(** * Chain manager and downloader of go-ethereum: a shallow embedding

    The development follows [core/chain_manager.go] and
    [eth/downloader/downloader.go].  Big integers ([*big.Int]) are [Z],
    machine integers are [Z] with their wrap-around written out, hashes
    are numbers (the zero hash is [0]), the key-value database is a pair
    of finite maps (one per key space) and the channels a goroutine
    selects on are lists of the messages still to arrive. *)

From Stdlib Require Import ZArith List Lia Bool.
From stdpp Require Import base option list gmap sets strings.

Local Open Scope Z_scope.

#[local] Set Warnings "-clear-no-such-hyp".

(** ** Machine integers and [math/big] *)

Module mach.

(** [int64(x)]: the two's complement reading of the low 64 bits. *)
Definition int64 (z : Z) : Z := (z + 2 ^ 63) mod 2 ^ 64 - 2 ^ 63.

(** [uint64(x)]: the low 64 bits. *)
Definition uint64 (z : Z) : Z := z mod 2 ^ 64.

Definition max_int64 : Z := 2 ^ 63 - 1.
Definition min_int64 : Z := - 2 ^ 63.

End mach.

Module big.

(** [x.Div(x, y)] is Euclidean division (the remainder is never
    negative) and panics on a zero divisor: [None]. *)
Definition Div (x y : Z) : option Z :=
  if y =? 0 then None else Some (Z.sgn y * (x / Z.abs y)).

(** [x.Cmp(y)]: -1, 0 or 1. *)
Definition Cmp (x y : Z) : Z :=
  match x ?= y with Lt => -1 | Eq => 0 | Gt => 1 end.

(** [x.Uint64()]: the low 64 bits of the absolute value. *)
Definition Uint64 (x : Z) : Z := mach.uint64 (Z.abs x).

(** [x.Bytes()] is the big-endian encoding of the absolute value; as a
    database key it is determined by that absolute value. *)
Definition Bytes (x : Z) : Z := Z.abs x.

End big.

Module common.

(** [common.Hash]: 32 opaque bytes, read as a number; [Hash{}] is 0. *)
Abbreviation Hash := N.

Definition zeroHash : N := 0%N.

(** Modelled from the spec: [common.BigMax] and [common.BigMin] are not
    among the sources; the gas-limit rule calls them max and min. *)
Definition BigMax (x y : Z) : Z := if big.Cmp x y <? 0 then y else x.
Definition BigMin (x y : Z) : Z := if big.Cmp x y >? 0 then y else x.

End common.

(** ** Protocol parameters *)

Module params.

(** The package [params] is not among the sources: its constants are
    taken as parameters. *)
Record t := {
  DifficultyBoundDivisor : Z;
  DurationLimit : Z;
  MinimumDifficulty : Z;
  GasLimitBoundDivisor : Z;
  MinGasLimit : Z;
  GenesisGasLimit : Z
}.

(** A sample instance, used to run the definitions. *)
Definition sample : t := {|
  DifficultyBoundDivisor := 2048;
  DurationLimit := 8;
  MinimumDifficulty := 131072;
  GasLimitBoundDivisor := 1024;
  MinGasLimit := 125000;
  GenesisGasLimit := 3141592
|}.

End params.

(** ** Headers and blocks ([core/types], as far as the chain manager and
    the downloader read them) *)

Module Header.

(** Modelled from the spec: the header (core/types is not among the
    sources) with the fields of the data model that the chain manager and
    the downloader read.  [Time] is an unsigned 64-bit field: the chain
    manager converts it with [int64(...)] before subtracting.  [Hash]
    stands for the hash of the encoded header, a function of the fields
    above it. *)
Record t := {
  ParentHash : common.Hash;
  Number : Z;
  Time : Z;
  Difficulty : Z;
  GasLimit : Z;
  GasUsed : Z;
  Nonce : N;
  Hash : common.Hash
}.

Definition wf (h : t) : Prop := 0 <= Time h < 2 ^ 64.

End Header.

Module Block.

(** Modelled from the spec: the block (core/types is not among the
    sources): header, uncles, number of transactions, the stored total
    difficulty and the transient queued flag. *)
Record t := {
  header : Header.t;
  Uncles : list Header.t;
  Transactions : nat;
  Td : Z;
  queued : bool
}.

Definition Hash (b : t) : common.Hash := Header.Hash (header b).
Definition ParentHash (b : t) : common.Hash := Header.ParentHash (header b).
Definition Number (b : t) : Z := Header.Number (header b).
Definition NumberU64 (b : t) : Z := big.Uint64 (Header.Number (header b)).
Definition Difficulty (b : t) : Z := Header.Difficulty (header b).
Definition GasLimit (b : t) : Z := Header.GasLimit (header b).
Definition GasUsed (b : t) : Z := Header.GasUsed (header b).
Definition Nonce (b : t) : N := Header.Nonce (header b).

(** Modelled from the spec: [Block.Time()] is the header's time; it is
    compared with an [int64] in [InsertChain], so it is that time read as
    a signed 64-bit integer. *)
Definition Time (b : t) : Z := mach.int64 (Header.Time (header b)).

Definition setTd (td : Z) (b : t) : t :=
  {| header := header b; Uncles := Uncles b; Transactions := Transactions b;
     Td := td; queued := queued b |}.

Definition SetQueued (q : bool) (b : t) : t :=
  {| header := header b; Uncles := Uncles b; Transactions := Transactions b;
     Td := Td b; queued := q |}.

End Block.

(** ** [core/chain_manager.go] *)

Module core.

Definition blockCacheLimit : nat := Z.to_nat 10000.
Definition maxFutureBlocks : nat := 256.
Definition maxTimeFutureBlocks : Z := 30.

Section Rules.

Variable P : params.t.

(** [CalcDifficulty]; [None] is the panic of a division by zero. *)
Definition CalcDifficulty (block parent : Header.t) : option Z :=
  match big.Div (Header.Difficulty parent) (params.DifficultyBoundDivisor P) with
  | None => None
  | Some adjust =>
      let diff :=
        if big.Cmp (mach.int64 (mach.int64 (Header.Time block)
                                - mach.int64 (Header.Time parent)))
                   (params.DurationLimit P) <? 0
        then Header.Difficulty parent + adjust
        else Header.Difficulty parent - adjust in
      if big.Cmp diff (params.MinimumDifficulty P) <? 0
      then Some (params.MinimumDifficulty P)
      else Some diff
  end.

(** [CalcGasLimit]. *)
Definition CalcGasLimit (parent : Block.t) : option Z :=
  match big.Div (Block.GasLimit parent) (params.GasLimitBoundDivisor P) with
  | None => None
  | Some decay =>
      let contrib := Block.GasUsed parent * 3 in
      match big.Div contrib 2 with
      | None => None
      | Some contrib =>
          match big.Div contrib (params.GasLimitBoundDivisor P) with
          | None => None
          | Some contrib =>
              let gl := Block.GasLimit parent - decay in
              let gl := gl + contrib in
              let gl := gl + 1 in
              let gl := common.BigMax gl (params.MinGasLimit P) in
              if big.Cmp gl (params.GenesisGasLimit P) <? 0
              then
                let gl2 := Block.GasLimit parent + decay in
                Some (common.BigMin (params.GenesisGasLimit P) gl2)
              else Some gl
          end
      end
  end.

End Rules.

(** [CalcTD]: a nil parent is [None]. *)
Definition CalcTD (block : Block.t) (parent : option Block.t) : Z :=
  match parent with
  | None => Block.Difficulty block
  | Some p => Block.Td p + Header.Difficulty (Block.header block)
  end.

(** *** The block cache *)

Module BlockCache.

(** Modelled from the spec: [BlockCache] (core/block_cache.go) is not
    among the sources.  It is a fixed-capacity, insertion-ordered mapping
    from hash to block; [Push] inserts and, at capacity, evicts the oldest
    entry. *)
Record t := { size : nat; blocks : list Block.t }.

Definition New (size : nat) : t := {| size := size; blocks := [] |}.

Definition Push (b : Block.t) (c : t) : t :=
  {| size := size c;
     blocks := if (size c <=? length (blocks c))%nat
               then tail (blocks c) ++ [b]
               else blocks c ++ [b] |}.

Definition Get (h : common.Hash) (c : t) : option Block.t :=
  find (fun b => N.eqb (Block.Hash b) h) (rev (blocks c)).

Definition Has (h : common.Hash) (c : t) : bool :=
  existsb (fun b => N.eqb (Block.Hash b) h) (blocks c).

Definition Delete (h : common.Hash) (c : t) : t :=
  {| size := size c;
     blocks := List.filter (fun b => negb (N.eqb (Block.Hash b) h)) (blocks c) |}.

End BlockCache.

(** *** Errors and events *)

(** Modelled from the spec: the processor's errors (core/error.go is not
    among the sources) are those of the processor contract: known block,
    future block, missing parent, or any other error. *)
Inductive ProcessError :=
| KnownBlockError
| BlockFutureErr
| ParentError
| OtherError (code : N).

Definition IsKnownBlockErr (e : ProcessError) : bool :=
  match e with KnownBlockError => true | _ => false end.

Definition IsBlockFutureErr (e : ProcessError) : bool :=
  match e with BlockFutureErr => true | _ => false end.

Definition IsParentErr (e : ProcessError) : bool :=
  match e with ParentError => true | _ => false end.

(** The errors [InsertChain] returns. *)
Inductive Error :=
| BlockNonceErr (hash : common.Hash) (number : Z) (nonce : N)
| BadHashErr (hash : common.Hash)
| FutureTooFarErr (time max : Z)
| ProcessErr (e : ProcessError)
| InvalidOldChain
| InvalidNewChain.

Definition Logs := list N.

Inductive ChainEv :=
| ChainEvent (block : Block.t) (hash : common.Hash) (logs : Logs)
| ChainSideEvent (block : Block.t) (logs : Logs)
| ChainSplitEvent (block : Block.t) (logs : Logs).

(** *** The chain manager

    The block database has two key spaces, ["block-hash-" ++ hash] and
    ["block-num-" ++ number.Bytes()], and the key ["LastBlock"]; stored
    blocks are kept decoded (the storage encoding carries the total
    difficulty). *)

Record ChainManager := {
  blockDb : gmap N Block.t;
  numDb : gmap Z N;
  lastBlockDb : option N;
  genesisBlock : Block.t;
  td : Z;
  currentBlock : Block.t;
  lastBlockHash : common.Hash;
  cache : BlockCache.t;
  futureBlocks : BlockCache.t
}.

Definition GetBlock (bc : ChainManager) (hash : common.Hash) : option Block.t :=
  blockDb bc !! hash.

Definition HasBlock (bc : ChainManager) (hash : common.Hash) : bool :=
  bool_decide (is_Some (blockDb bc !! hash)).

(** [getBlockByNumber]: the key is [big.NewInt(int64(num)).Bytes()]. *)
Definition getBlockByNumber (bc : ChainManager) (num : Z) : option Block.t :=
  match numDb bc !! big.Bytes (mach.int64 num) with
  | None => None
  | Some key => GetBlock bc key
  end.

Definition GetBlockByNumber (bc : ChainManager) (num : Z) : option Block.t :=
  getBlockByNumber bc num.

Definition Td (bc : ChainManager) : Z := td bc.

Definition CurrentBlock (bc : ChainManager) : Block.t := currentBlock bc.

Definition setTotalDifficulty (td' : Z) (bc : ChainManager) : ChainManager :=
  {| blockDb := blockDb bc; numDb := numDb bc; lastBlockDb := lastBlockDb bc;
     genesisBlock := genesisBlock bc; td := td';
     currentBlock := currentBlock bc; lastBlockHash := lastBlockHash bc;
     cache := cache bc; futureBlocks := futureBlocks bc |}.

(** [insert]: the number index, the last-block pointer and the head. *)
Definition insert (block : Block.t) (bc : ChainManager) : ChainManager :=
  {| blockDb := blockDb bc;
     numDb := <[big.Bytes (Block.Number block) := Block.Hash block]> (numDb bc);
     lastBlockDb := Some (Block.Hash block);
     genesisBlock := genesisBlock bc; td := td bc;
     currentBlock := block; lastBlockHash := Block.Hash block;
     cache := cache bc; futureBlocks := futureBlocks bc |}.

(** [write]: the block under its hash, and the cache. *)
Definition write (block : Block.t) (bc : ChainManager) : ChainManager :=
  {| blockDb := <[Block.Hash block := block]> (blockDb bc);
     numDb := numDb bc; lastBlockDb := lastBlockDb bc;
     genesisBlock := genesisBlock bc; td := td bc;
     currentBlock := currentBlock bc; lastBlockHash := lastBlockHash bc;
     cache := BlockCache.Push block (cache bc); futureBlocks := futureBlocks bc |}.

Definition setFutureBlocks (f : BlockCache.t) (bc : ChainManager) : ChainManager :=
  {| blockDb := blockDb bc; numDb := numDb bc; lastBlockDb := lastBlockDb bc;
     genesisBlock := genesisBlock bc; td := td bc;
     currentBlock := currentBlock bc; lastBlockHash := lastBlockHash bc;
     cache := cache bc; futureBlocks := f |}.

(** [GetBlockHashesFromHash]: the loop runs at most [max] times. *)
Fixpoint hashesFrom (bc : ChainManager) (max : nat) (block : Block.t)
  : list common.Hash :=
  match max with
  | O => []
  | S max' =>
      match GetBlock bc (Block.ParentHash block) with
      | None => []
      | Some block' =>
          Block.Hash block' ::
            (if big.Cmp (Block.Number block') 0 <=? 0 then []
             else hashesFrom bc max' block')
      end
  end.

Definition GetBlockHashesFromHash (bc : ChainManager) (hash : common.Hash)
  (max : Z) : list common.Hash :=
  match GetBlock bc hash with
  | None => []
  | Some block => hashesFrom bc (Z.to_nat max) block
  end.

(** [GetAncestors]. *)
Fixpoint GetAncestors (bc : ChainManager) (block : Block.t) (length : nat)
  : list Block.t :=
  match length with
  | O => []
  | S length' =>
      match GetBlock bc (Block.ParentHash block) with
      | None => []
      | Some block' => block' :: GetAncestors bc block' length'
      end
  end.

(** [CalcTotalDiff]: the helper that counts the uncles too. *)
Definition CalcTotalDiff (bc : ChainManager) (block : Block.t) : option Z :=
  match GetBlock bc (Block.ParentHash block) with
  | None => None
  | Some parent =>
      let uncleDiff :=
        fold_left (fun acc u => acc + Header.Difficulty u) (Block.Uncles block) 0 in
      Some (Block.Td parent + uncleDiff + Header.Difficulty (Block.header block))
  end.

(** *** Reorganisation: [diff] and [merge]

    The walks along parent pointers need not end in an arbitrary
    database; they take fuel, and [None] is "out of fuel". *)

Fixpoint reduceOld (fuel : nat) (bc : ChainManager) (oldBlock : option Block.t)
  (newNum : Z) : option (option Block.t) :=
  match oldBlock with
  | None => Some None
  | Some ob =>
      if Block.NumberU64 ob =? newNum then Some (Some ob)
      else match fuel with
           | O => None
           | S fuel' => reduceOld fuel' bc (GetBlock bc (Block.ParentHash ob)) newNum
           end
  end.

Fixpoint reduceNew (fuel : nat) (bc : ChainManager) (newBlock : option Block.t)
  (oldNum : Z) (newChain : list Block.t)
  : option (option Block.t * list Block.t) :=
  match newBlock with
  | None => Some (None, newChain)
  | Some nb =>
      if Block.NumberU64 nb =? oldNum then Some (Some nb, newChain)
      else match fuel with
           | O => None
           | S fuel' =>
               reduceNew fuel' bc (GetBlock bc (Block.ParentHash nb)) oldNum
                 (newChain ++ [nb])
           end
  end.

Fixpoint findCommon (fuel : nat) (bc : ChainManager) (oldBlock newBlock : Block.t)
  (newChain : list Block.t) : option (Error + list Block.t) :=
  if N.eqb (Block.Hash oldBlock) (Block.Hash newBlock) then Some (inr newChain)
  else
    let newChain := newChain ++ [newBlock] in
    match GetBlock bc (Block.ParentHash oldBlock),
          GetBlock bc (Block.ParentHash newBlock) with
    | None, _ => Some (inl InvalidOldChain)
    | Some _, None => Some (inl InvalidNewChain)
    | Some ob, Some nb =>
        match fuel with
        | O => None
        | S fuel' => findCommon fuel' bc ob nb newChain
        end
    end.

Definition diff (fuel : nat) (bc : ChainManager) (oldBlock newBlock : Block.t)
  : option (Error + list Block.t) :=
  let reduced :=
    if Block.NumberU64 oldBlock >? Block.NumberU64 newBlock
    then match reduceOld fuel bc (Some oldBlock) (Block.NumberU64 newBlock) with
         | None => None
         | Some ob => Some (ob, Some newBlock, [])
         end
    else match reduceNew fuel bc (Some newBlock) (Block.NumberU64 oldBlock) [] with
         | None => None
         | Some (nb, newChain) => Some (Some oldBlock, nb, newChain)
         end in
  match reduced with
  | None => None
  | Some (None, _, _) => Some (inl InvalidOldChain)
  | Some (Some _, None, _) => Some (inl InvalidNewChain)
  | Some (Some ob, Some nb, newChain) => findCommon fuel bc ob nb newChain
  end.

Definition merge (fuel : nat) (bc : ChainManager) (oldBlock newBlock : Block.t)
  : option (Error + ChainManager) :=
  match diff fuel bc oldBlock newBlock with
  | None => None
  | Some (inl err) => Some (inl err)
  | Some (inr newChain) =>
      Some (inr (fold_left (fun bc' block => insert block bc') newChain bc))
  end.

(** *** [InsertChain]

    What the call reads from its surroundings: the bad-hash table, the
    proof-of-work verifier, the block processor, the interrupt flag as
    read at the top of iteration [i] and the wall clock (seconds) as read
    in iteration [i]. *)

Record Env := {
  BadHashes : gset N;
  Verify : Header.t -> bool;
  Process : ChainManager -> Block.t -> ProcessError + Logs;
  procInterrupt : nat -> bool;
  Now : nat -> Z
}.

(** How a call can fail to return: the receive on [nonceDone] never
    completes, an index is out of range, or a reorganisation walk does
    not end. *)
Inductive Fault := NonceStarved | IndexOutOfRange | ReorgDiverges.

Inductive Outcome :=
| Return (i : nat) (err : option Error)
| Abort (why : Fault).

(** The variables of the loop: the manager, the results still to arrive
    on [nonceDone] (index of the block, in order of arrival; the verdict
    is [pow.Verify] of that block), [nonceChecked] and the event queue. *)
Record loopState := {
  bc : ChainManager;
  nonceDone : list nat;
  nonceChecked : list bool;
  queue : list (option ChainEv)
}.

Inductive NonceWait :=
| NonceReady (nonceChecked : list bool) (nonceDone : list nat)
| NonceInvalid (i : nat) (block : Block.t)
| NonceFault (why : Fault).

(** [for !nonceChecked[i] { r := <-nonceDone; ... }] *)
Fixpoint waitNonce (E : Env) (chain : list Block.t) (i : nat)
  (nonceChecked : list bool) (nonceDone : list nat) : NonceWait :=
  match nonceChecked !! i with
  | None => NonceFault IndexOutOfRange
  | Some true => NonceReady nonceChecked nonceDone
  | Some false =>
      match nonceDone with
      | [] => NonceFault NonceStarved
      | r :: nonceDone' =>
          match chain !! r with
          | None => NonceFault IndexOutOfRange
          | Some block =>
              let nonceChecked' := <[r := true]> nonceChecked in
              if Verify E (Block.header block)
              then waitNonce E chain i nonceChecked' nonceDone'
              else NonceInvalid r block
          end
      end
  end.

Inductive Step :=
| Next (st : loopState) (block : Block.t)
| Break
| Stop (st : loopState) (block : Block.t) (out : Outcome).

Definition withBc (bc' : ChainManager) (st : loopState) : loopState :=
  {| bc := bc'; nonceDone := nonceDone st; nonceChecked := nonceChecked st;
     queue := queue st |}.

Definition withNonces (checked : list bool) (done : list nat) (st : loopState)
  : loopState :=
  {| bc := bc st; nonceDone := done; nonceChecked := checked; queue := queue st |}.

Definition setQueue (i : nat) (ev : ChainEv) (st : loopState) : loopState :=
  {| bc := bc st; nonceDone := nonceDone st; nonceChecked := nonceChecked st;
     queue := <[i := Some ev]> (queue st) |}.

(** The block is marked queued and parked in the future-block cache. *)
Definition park (st : loopState) (block : Block.t) : Step :=
  let block := Block.SetQueued true block in
  Next (withBc (setFutureBlocks (BlockCache.Push block (futureBlocks (bc st)))
                  (bc st)) st) block.

(** The part of the loop body after a successful [Process]. *)
Definition accept (fuel : nat) (i : nat) (block : Block.t) (logs : Logs)
  (st : loopState) : Step :=
  let cblock := currentBlock (bc st) in
  let finish (st : loopState) : Step :=
    let bc1 := write block (bc st) in
    Next (withBc (setFutureBlocks
                    (BlockCache.Delete (Block.Hash block) (futureBlocks bc1)) bc1)
            st) block in
  if big.Cmp (Block.Td block) (Td (bc st)) >? 0 then
    let merged :=
      if negb (N.eqb (Block.ParentHash block) (Block.Hash cblock)) then
        match merge fuel (bc st) cblock block with
        | None => inl (Abort ReorgDiverges)
        | Some (inl err) => inl (Return i (Some err))
        | Some (inr bc') => inr (setQueue i (ChainSplitEvent block logs) (withBc bc' st))
        end
      else inr st in
    match merged with
    | inl out => Stop st block out
    | inr st =>
        let bc' := insert block (setTotalDifficulty (Block.Td block) (bc st)) in
        finish (setQueue i (ChainEvent block (Block.Hash block) logs) (withBc bc' st))
    end
  else
    finish (setQueue i (ChainSideEvent block logs) st).

(** [block.Td = new(big.Int).Set(CalcTD(block, self.GetBlock(block.ParentHash())))] *)
Definition stamp (bc : ChainManager) (block : Block.t) : Block.t :=
  Block.setTd (CalcTD block (GetBlock bc (Block.ParentHash block))) block.

(** One iteration of [for i, block := range chain].  The counters and
    the transient states, which the loop writes and does not read, are
    left out. *)
Definition insertBlock (E : Env) (fuel : nat) (chain : list Block.t) (i : nat)
  (block : Block.t) (st : loopState) : Step :=
  if procInterrupt E i then Break
  else
    match waitNonce E chain i (nonceChecked st) (nonceDone st) with
    | NonceFault why => Stop st block (Abort why)
    | NonceInvalid r bad =>
        Stop st block
          (Return r (Some (BlockNonceErr (Block.Hash bad) (Block.Number bad)
                             (Block.Nonce bad))))
    | NonceReady checked done =>
        let st := withNonces checked done st in
        if bool_decide (Block.Hash block ∈ BadHashes E) then
          Stop st block (Return i (Some (BadHashErr (Block.Hash block))))
        else
          let block := stamp (bc st) block in
          match Process E (bc st) block with
          | inl err =>
              if IsKnownBlockErr err then Next st block
              else if IsBlockFutureErr err then
                let max := mach.int64 (Now E i + maxTimeFutureBlocks) in
                if Block.Time block >? max
                then Stop st block
                       (Return i (Some (FutureTooFarErr (Block.Time block) max)))
                else park st block
              else if IsParentErr err
                      && BlockCache.Has (Block.ParentHash block)
                           (futureBlocks (bc st))
              then park st block
              else Stop st block (Return i (Some (ProcessErr err)))
          | inr logs => accept fuel i block logs st
          end
    end.

(** What a call leaves behind: the manager, the blocks of the batch (they
    are shared with the caller, who sees the stamped total difficulties
    and queued flags), the result, and the queue event when it was posted. *)
Record Result := {
  manager : ChainManager;
  blocks : list Block.t;
  outcome : Outcome;
  posted : option (list (option ChainEv))
}.

Definition leave (st : loopState) (blocks : list Block.t) : Result :=
  {| manager := bc st; blocks := blocks; outcome := Return 0 None;
     posted := Some (queue st) |}.

Fixpoint insertLoop (E : Env) (fuel : nat) (chain : list Block.t) (i : nat)
  (done rest : list Block.t) (st : loopState) : Result :=
  match rest with
  | [] => leave st done
  | block :: rest' =>
      match insertBlock E fuel chain i block st with
      | Break => leave st (done ++ rest)
      | Stop st' block' out =>
          {| manager := bc st'; blocks := done ++ block' :: rest';
             outcome := out; posted := None |}
      | Next st' block' => insertLoop E fuel chain (S i) (done ++ [block']) rest' st'
      end
  end.

(** [arrivals] is the order in which the verifier's results reach the
    channel [nonceDone]. *)
(** The variables as the loop is entered. *)
Definition enter (arrivals : list nat) (self : ChainManager)
  (chain : list Block.t) : loopState :=
  {| bc := self; nonceDone := arrivals;
     nonceChecked := replicate (length chain) false;
     queue := replicate (length chain) None |}.

Definition InsertChain (E : Env) (fuel : nat) (arrivals : list nat)
  (self : ChainManager) (chain : list Block.t) : Result :=
  insertLoop E fuel chain 0 [] chain (enter arrivals self chain).

(** The loop [k] iterations later, when it gets there: the variables,
    the blocks gone through and the blocks still to come. *)
Fixpoint loopAt (E : Env) (fuel : nat) (chain : list Block.t) (k i : nat)
  (done rest : list Block.t) (st : loopState)
  : option (loopState * list Block.t * list Block.t) :=
  match k with
  | O => Some (st, done, rest)
  | S k' =>
      match rest with
      | [] => None
      | block :: rest' =>
          match insertBlock E fuel chain i block st with
          | Next st' block' => loopAt E fuel chain k' (S i) (done ++ [block']) rest' st'
          | _ => None
          end
      end
  end.

(** *** Rewinding the chain: [removeBlock], [Reset], [SetHead]

    A manager here has a head and a cache: [currentBlock] and [cache]
    are not nil. *)

Definition removeBlock (block : Block.t) (bc : ChainManager) : ChainManager :=
  {| blockDb := delete (Block.Hash block) (blockDb bc);
     numDb := numDb bc; lastBlockDb := lastBlockDb bc;
     genesisBlock := genesisBlock bc; td := td bc;
     currentBlock := currentBlock bc; lastBlockHash := lastBlockHash bc;
     cache := cache bc; futureBlocks := futureBlocks bc |}.

Definition setCurrentBlock (block : Block.t) (bc : ChainManager) : ChainManager :=
  {| blockDb := blockDb bc; numDb := numDb bc; lastBlockDb := lastBlockDb bc;
     genesisBlock := genesisBlock bc; td := td bc;
     currentBlock := block; lastBlockHash := lastBlockHash bc;
     cache := cache bc; futureBlocks := futureBlocks bc |}.

Definition setLastBlockHash (hash : common.Hash) (bc : ChainManager) : ChainManager :=
  {| blockDb := blockDb bc; numDb := numDb bc; lastBlockDb := lastBlockDb bc;
     genesisBlock := genesisBlock bc; td := td bc;
     currentBlock := currentBlock bc; lastBlockHash := hash;
     cache := cache bc; futureBlocks := futureBlocks bc |}.

Definition setGenesisBlock (gb : Block.t) (bc : ChainManager) : ChainManager :=
  {| blockDb := blockDb bc; numDb := numDb bc; lastBlockDb := lastBlockDb bc;
     genesisBlock := gb; td := td bc;
     currentBlock := currentBlock bc; lastBlockHash := lastBlockHash bc;
     cache := cache bc; futureBlocks := futureBlocks bc |}.

Definition setCache (c : BlockCache.t) (bc : ChainManager) : ChainManager :=
  {| blockDb := blockDb bc; numDb := numDb bc; lastBlockDb := lastBlockDb bc;
     genesisBlock := genesisBlock bc; td := td bc;
     currentBlock := currentBlock bc; lastBlockHash := lastBlockHash bc;
     cache := c; futureBlocks := futureBlocks bc |}.

(** [for block := ...; block != nil && !stop(block);
         block = bc.GetBlock(block.Header().ParentHash) { bc.removeBlock(block) }];
    [None]: out of fuel. *)
Fixpoint removeWalk (fuel : nat) (stop : Block.t -> bool) (bc : ChainManager)
  (block : option Block.t) : option ChainManager :=
  match block with
  | None => Some bc
  | Some b =>
      if stop b then Some bc
      else match fuel with
           | O => None
           | S fuel' =>
               let bc' := removeBlock b bc in
               removeWalk fuel' stop bc' (GetBlock bc' (Block.ParentHash b))
           end
  end.

(** [makeCache]: the last [blockCacheLimit - 1] ancestors, then the head. *)
Definition makeCache (bc : ChainManager) : ChainManager :=
  let ancestors := GetAncestors bc (currentBlock bc) (blockCacheLimit - 1) in
  let ancestors := ancestors ++ [currentBlock bc] in
  setCache (fold_left (fun c block => BlockCache.Push block c) ancestors (cache bc)) bc.

(** [Reset]. *)
Definition Reset (fuel : nat) (bc : ChainManager) : option ChainManager :=
  match removeWalk fuel (fun _ => false) bc (Some (currentBlock bc)) with
  | None => None
  | Some bc =>
      let bc := write (genesisBlock bc) bc in
      let bc := insert (genesisBlock bc) bc in
      let bc := setCurrentBlock (genesisBlock bc) bc in
      let bc := makeCache bc in
      Some (setTotalDifficulty 0 bc)
  end.

(** [ResetWithGenesisBlock]. *)
Definition ResetWithGenesisBlock (fuel : nat) (gb : Block.t) (bc : ChainManager)
  : option ChainManager :=
  match removeWalk fuel (fun _ => false) bc (Some (currentBlock bc)) with
  | None => None
  | Some bc =>
      let gb := Block.setTd (Block.Difficulty gb) gb in
      let bc := setGenesisBlock gb bc in
      let bc := write (genesisBlock bc) bc in
      let bc := insert (genesisBlock bc) bc in
      let bc := setCurrentBlock (genesisBlock bc) bc in
      let bc := makeCache bc in
      Some (setTotalDifficulty (Block.Difficulty gb) bc)
  end.

(** How [setLastState] and [SetHead] end: with a manager, with
    [os.Exit(1)], with a panic (a division by zero in [CalcGasLimit], a
    nil total difficulty in [setTotalDifficulty]), never because a walk
    runs out of fuel, or never because the goroutine waits for the lock
    [bc.mu] that it holds itself. *)
Inductive Loaded :=
| Done (bc : ChainManager)
| Exit
| Panics
| Diverges
| Deadlocks.

(** [setLastState]; the gas limit of the head is computed and not kept
    here.  [locked]: the caller holds [bc.mu], as [SetHead] does; the
    exported [GetBlockByNumber] and [Reset] take the lock themselves. *)
Definition setLastState (P : params.t) (fuel : nat) (locked : bool)
  (bc : ChainManager) : Loaded :=
  let finish (bc : ChainManager) : Loaded :=
    let bc := setTotalDifficulty (Block.Td (currentBlock bc)) bc in
    match CalcGasLimit P (currentBlock bc) with
    | None => Panics
    | Some _ => Done bc
    end in
  match lastBlockDb bc with
  | Some data =>
      match GetBlock bc data with
      | Some block =>
          finish (setLastBlockHash (Block.Hash block) (setCurrentBlock block bc))
      | None =>
          if locked then Deadlocks
          else
            match GetBlockByNumber bc 400000 with
            | None => Exit
            | Some block =>
                finish (insert block
                          (setLastBlockHash (Block.Hash block)
                             (setCurrentBlock block bc)))
            end
      end
  | None =>
      if locked then Deadlocks
      else
        match Reset fuel bc with
        | None => Diverges
        | Some bc => finish bc
        end
  end.

(** [SetHead]; it holds [bc.mu] throughout.  [hasTd]: [head.Td] is not
    nil, as for a block read from the database or stamped by
    [InsertChain]; [setTotalDifficulty] copies the number with
    [new(big.Int).Set(td)] and panics on a nil one, after the walk and
    before [insert]. *)
Definition SetHead (P : params.t) (fuel : nat) (head : Block.t) (hasTd : bool)
  (bc : ChainManager) : Loaded :=
  match removeWalk fuel (fun block => N.eqb (Block.Hash block) (Block.Hash head))
          bc (Some (currentBlock bc)) with
  | None => Diverges
  | Some bc =>
      let bc := setCache (BlockCache.New blockCacheLimit) bc in
      let bc := setCurrentBlock head bc in
      let bc := makeCache bc in
      if hasTd then
        let bc := setTotalDifficulty (Block.Td head) bc in
        let bc := insert head bc in
        setLastState P fuel true bc
      else Panics
  end.

(** *** [Export] and [ExportN]

    The writer is the list of the blocks written; [encodeFails] tells for
    which block the write fails. *)

Inductive ExportErr :=
| FirstGreaterThanLast (first last : Z)
| NotFound (nr : Z)
| WriteFailed (nr : Z).

(** [for nr := first; nr <= last; nr++]; [nr] is a [uint64], and [None]
    is "out of fuel". *)
Fixpoint exportLoop (encodeFails : Block.t -> bool) (fuel : nat)
  (bc : ChainManager) (nr last : Z) (w : list Block.t)
  : option (option ExportErr * list Block.t) :=
  if nr <=? last then
    match fuel with
    | O => None
    | S fuel' =>
        match GetBlockByNumber bc nr with
        | None => Some (Some (NotFound nr), w)
        | Some block =>
            if encodeFails block then Some (Some (WriteFailed nr), w)
            else exportLoop encodeFails fuel' bc (mach.uint64 (nr + 1)) last
                   (w ++ [block])
        end
    end
  else Some (None, w).

Definition ExportN (encodeFails : Block.t -> bool) (fuel : nat)
  (bc : ChainManager) (w : list Block.t) (first last : Z)
  : option (option ExportErr * list Block.t) :=
  if first >? last then Some (Some (FirstGreaterThanLast first last), w)
  else exportLoop encodeFails fuel bc first last w.

Definition Export (encodeFails : Block.t -> bool) (fuel : nat)
  (bc : ChainManager) (w : list Block.t)
  : option (option ExportErr * list Block.t) :=
  ExportN encodeFails fuel bc w 0 (Block.NumberU64 (currentBlock bc)).

(** *** [GetUnclesInChain] *)

Fixpoint GetUnclesInChain (bc : ChainManager) (block : option Block.t)
  (length : nat) : list Header.t :=
  match block, length with
  | Some b, S length' =>
      Block.Uncles b ++ GetUnclesInChain bc (GetBlock bc (Block.ParentHash b)) length'
  | _, _ => []
  end.

End core.

(** ** [eth/downloader/downloader.go] *)

Module downloader.

Definition MinHashFetch : Z := 512.
Definition MaxHashFetch : Z := 2048.
Definition MaxBlockFetch : nat := 128.

(** Durations, in nanoseconds as [time.Duration] has them. *)
Definition second : Z := 1000000000.
Definition hashTTL : Z := 5 * second.
Definition blockSoftTTL : Z := 3 * second.
Definition blockHardTTL : Z := 3 * blockSoftTTL.
Definition crossCheckCycle : Z := second.

Definition maxBannedHashes : nat := 4096.

Inductive Err :=
| errLowTd
| ErrBusy
| errUnknownPeer
| ErrBadPeer
| ErrStallingPeer
| errBannedHead
| errNoPeers
| ErrPendingQueue
| ErrTimeout
| ErrEmptyHashSet
| errPeersUnavailable
| errAlreadyInPool
| ErrInvalidChain
| ErrCrossCheckFailed
| errCancelHashFetch
| errCancelBlockFetch
| errNoSyncActive
| errNoBlocksToBan
| errHeadNotBanned
| errFetch.

Module blockPack.
Record t := { peerId : string; blocks : list Block.t }.
End blockPack.

Module hashPack.
Record t := { peerId : string; hashes : list common.Hash }.
End hashPack.

Record crossCheck := { expire : Z; parent : common.Hash }.

(** Modelled from the spec: a peer (eth/downloader/peer.go is not among
    the sources) is known by its id and the head hash it advertises; its
    [getHashes] and [getBlocks] callbacks send a request to it. *)
Module peer.
Record t := { id : string; head : common.Hash }.
End peer.

Inductive Request :=
| GetHashes (to : string) (from : common.Hash)
| GetBlocks (to : string) (hashes : list common.Hash).

(** Modelled from the spec: the queue (eth/downloader/queue.go is not
    among the sources).  [Insert] appends the unknown hashes to the
    pending ones in order, skips duplicates and returns those newly added;
    [Has] knows the pending hashes and the delivered blocks. *)
Module queue.

Record t := {
  hashPool : list common.Hash;
  blockPool : gmap N Block.t;
  blockOffset : Z
}.

Definition New : t := {| hashPool := []; blockPool := ∅; blockOffset := 0 |}.

Definition pending (hash : common.Hash) (q : t) : bool :=
  existsb (N.eqb hash) (hashPool q).

Definition GetBlock (hash : common.Hash) (q : t) : option Block.t :=
  blockPool q !! hash.

Definition Has (hash : common.Hash) (q : t) : bool :=
  pending hash q || bool_decide (is_Some (blockPool q !! hash)).

Definition push (hash : common.Hash) (q : t) : t :=
  {| hashPool := hashPool q ++ [hash]; blockPool := blockPool q;
     blockOffset := blockOffset q |}.

Fixpoint Insert (hashes : list common.Hash) (q : t) : list common.Hash * t :=
  match hashes with
  | [] => ([], q)
  | hash :: hashes' =>
      if pending hash q then Insert hashes' q
      else let '(inserts, q') := Insert hashes' (push hash q) in
           (hash :: inserts, q')
  end.

Definition Prepare (offset : Z) (q : t) : t :=
  {| hashPool := hashPool q; blockPool := blockPool q; blockOffset := offset |}.

Definition Pending (q : t) : nat := length (hashPool q).

End queue.

Record Downloader := {
  queue : queue.t;
  peers : list peer.t;
  checks : gmap N crossCheck;
  banned : gset N
}.

Definition withQueue (q : queue.t) (d : Downloader) : Downloader :=
  {| queue := q; peers := peers d; checks := checks d; banned := banned d |}.

Definition withChecks (c : gmap N crossCheck) (d : Downloader) : Downloader :=
  {| queue := queue d; peers := peers d; checks := c; banned := banned d |}.

Definition withBanned (b : gset N) (d : Downloader) : Downloader :=
  {| queue := queue d; peers := peers d; checks := checks d; banned := b |}.

(** [d.peers.Peer(id)] *)
Definition Peer (peerId : string) (d : Downloader) : option peer.t :=
  find (fun p => String.eqb (peer.id p) peerId) (peers d).

(** [rand.Intn(n)] panics unless [0 < n]; any value below [n] can come
    out, here the one the random source [rnd] selects. *)
Definition Intn (rnd : nat) (n : Z) : option Z :=
  if n <=? 0 then None else Some (Z.of_nat rnd mod n).

Section Downloader.

(** The surroundings: the table of hard-coded bad hashes, the callbacks
    into the chain, the queue's reservation and the peer's fetch (both in
    files that are not among the sources) and the order in which
    [set.Each] walks a set (the iteration order of a Go map).  Of
    [peer.Fetch] the error it returns is modelled; the request it passes
    on to the peer is made in the file that is not among the sources. *)
Variable BadHashes : gset N.
Variable hasBlock : common.Hash -> bool.
Variable getBlock : common.Hash -> option Block.t.
Variable Reserve : queue.t -> peer.t -> nat -> option (list common.Hash * queue.t).
Variable Fetch : peer.t -> list common.Hash -> option Err.
Variable each : gset N -> list N.

(** [New]: the banned set starts as the known bad hashes. *)
Definition New : Downloader :=
  {| queue := queue.New; peers := []; checks := ∅;
     banned := set_fold (fun hash banned => {[hash]} ∪ banned) ∅ BadHashes |}.

(** *** [banBlocks] *)

(** What the select of [banBlocks] can receive. *)
Inductive banEvent :=
| BanCancel
| BanTimeout
| BanHashes
| BanBlocks (pack : blockPack.t).

Inductive banOutcome :=
| BanReturn (err : option Err)
| BanWaiting
| BanEvicting.

(** [types.BlockBy(types.Number).Sort(blocks)]: ascending block numbers,
    blocks of equal number in the order of the delivery (as the insertion
    sort of Go's [sort] leaves a short slice). *)
Fixpoint insertByNumber (b : Block.t) (l : list Block.t) : list Block.t :=
  match l with
  | [] => [b]
  | x :: l' =>
      if big.Cmp (Block.Number x) (Block.Number b) <? 0
      then x :: insertByNumber b l'
      else b :: l
  end.

Definition sortByNumber (l : list Block.t) : list Block.t :=
  fold_right insertByNumber [] l.

(** [blocks[index]] after the loop over [blocks[1:]]. *)
Fixpoint lastLinked (cur : Block.t) (rest : list Block.t) : Block.t :=
  match rest with
  | [] => cur
  | block :: rest' =>
      if N.eqb (Block.ParentHash block) (Block.Hash cur)
      then lastLinked block rest'
      else cur
  end.

(** The item one [banned.Each] pass leaves in [evacuate]: the first one
    met that is not hard coded, the zero hash when there is none. *)
Definition evacuee (banned : gset N) : common.Hash :=
  match find (fun item => negb (bool_decide (item ∈ BadHashes))) (each banned) with
  | Some item => item
  | None => common.zeroHash
  end.

(** [for d.banned.Size() > maxBannedHashes { ... }]; [None]: out of fuel. *)
Fixpoint phaseOut (fuel : nat) (banned : gset N) : option (gset N) :=
  if (maxBannedHashes <? size banned)%nat then
    match fuel with
    | O => None
    | S fuel' => phaseOut fuel' (banned ∖ {[evacuee banned]})
    end
  else Some banned.

(** A single delivered block that answers a pending cross check is a
    stale cross check: the check is dropped. *)
Definition staleCrossCheck (blocks : list Block.t) (d : Downloader)
  : option Downloader :=
  match blocks with
  | [block] =>
      match checks d !! Block.Hash block with
      | Some _ => Some (withChecks (delete (Block.Hash block) (checks d)) d)
      | None => None
      end
  | _ => None
  end.

(** The select loop of [banBlocks]. *)
Fixpoint banLoop (fuel : nat) (peerId : string) (head : common.Hash)
  (events : list banEvent) (d : Downloader) : Downloader * banOutcome :=
  match events with
  | [] => (d, BanWaiting)
  | BanCancel :: _ => (d, BanReturn (Some errCancelBlockFetch))
  | BanTimeout :: _ => (d, BanReturn (Some ErrTimeout))
  | BanHashes :: events' => banLoop fuel peerId head events' d
  | BanBlocks pack :: events' =>
      let blocks := blockPack.blocks pack in
      match staleCrossCheck blocks d with
      | Some d' => banLoop fuel peerId head events' d'
      | None =>
          if negb (String.eqb (blockPack.peerId pack) peerId) then
            banLoop fuel peerId head events' d
          else
            match sortByNumber blocks with
            | [] => (d, BanReturn (Some errNoBlocksToBan))
            | first :: rest =>
                if negb (N.eqb (Block.Hash first) head)
                then (d, BanReturn (Some errHeadNotBanned))
                else
                  let banned := {[Block.Hash (lastLinked first rest)]} ∪ banned d in
                  match phaseOut fuel banned with
                  | None => (withBanned banned d, BanEvicting)
                  | Some banned' => (withBanned banned' d, BanReturn None)
                  end
            end
      end
  end.

Definition banBlocks (fuel : nat) (peerId : string) (head : common.Hash)
  (events : list banEvent) (d : Downloader) : Downloader * banOutcome :=
  match Peer peerId d with
  | None => (d, BanReturn None)
  | Some peer =>
      match Reserve (queue d) peer MaxBlockFetch with
      | None => (d, BanReturn None)
      | Some (request, q) =>
          let d := withQueue q d in
          match Fetch peer request with
          | Some err => (d, BanReturn (Some err))
          | None => banLoop fuel peerId head events d
          end
      end
  end.

(** *** [fetchHashes] *)

(** What the select of [fetchHashes] can receive.  A hash delivery comes
    with what its handling reads: the random source, the clock, and what
    [banBlocks] receives should it be called. *)
Inductive fetchEvent :=
| Cancel
| Hashes (pack : hashPack.t) (rnd : nat) (now : Z) (ban : list banEvent)
| Blocks (pack : blockPack.t)
| CrossTick (now : Z)
| Timeout.

(** The variables of [fetchHashes], and the requests that [fetchHashes]
    itself has made so far through the callbacks [getHashes] and
    [getBlocks] of the active peer; a request that [banBlocks] makes
    through [peer.Fetch] is not among them. *)
Record fetchState := {
  d : Downloader;
  active : peer.t;
  head : common.Hash;
  attempted : gset string;
  sent : list Request
}.

Definition withD (d' : Downloader) (st : fetchState) : fetchState :=
  {| d := d'; active := active st; head := head st;
     attempted := attempted st; sent := sent st |}.

Definition withHead (h : common.Hash) (st : fetchState) : fetchState :=
  {| d := d st; active := active st; head := h;
     attempted := attempted st; sent := sent st |}.

Definition withActive (p : peer.t) (st : fetchState) : fetchState :=
  {| d := d st; active := p; head := head st;
     attempted := attempted st; sent := sent st |}.

Definition send (r : Request) (st : fetchState) : fetchState :=
  {| d := d st; active := active st; head := head st;
     attempted := attempted st; sent := sent st ++ [r] |}.

(** The closure [getHashes]: ask the active peer (and re-arm the timer). *)
Definition getHashes (from : common.Hash) (st : fetchState) : fetchState :=
  send (GetHashes (peer.id (active st)) from) st.

Inductive fetchStep :=
| Continue (st : fetchState)
| Finished (st : fetchState)
| Fail (st : fetchState) (err : Err)
| Stuck (st : fetchState)
| Panic.

(** The first banned hash of a delivery, with its index. *)
Fixpoint findBanned (banned : gset N) (index : nat) (hashes : list common.Hash)
  : option (nat * common.Hash) :=
  match hashes with
  | [] => None
  | hash :: hashes' =>
      if bool_decide (hash ∈ banned) then Some (index, hash)
      else findBanned banned (S index) hashes'
  end.

(** [for index, head = range hashPack.hashes]: the hashes before the
    first known one, whether one was found, and the last value of [head]. *)
Fixpoint scanKnown (known : common.Hash -> bool) (hashes : list common.Hash)
  (head : common.Hash) : list common.Hash * bool * common.Hash :=
  match hashes with
  | [] => ([], false, head)
  | h :: hashes' =>
      if known h then ([], true, h)
      else let '(kept, done, head') := scanKnown known hashes' h in
           (h :: kept, done, head')
  end.

(** The cross check of a batch of new hashes: [None] is a panic of
    [rand.Intn] or an index out of range. *)
Definition crossSelect (rnd : nat) (inserts : list common.Hash)
  : option (common.Hash * common.Hash) :=
  match Intn rnd (Z.of_nat (length inserts) - 1) with
  | None => None
  | Some cross =>
      match inserts !! Z.to_nat cross, inserts !! Z.to_nat (cross + 1) with
      | Some origin, Some parent => Some (origin, parent)
      | _, _ => None
      end
  end.

(** [case hashPack := <-d.hashCh] *)
Definition onHashes (fuel : nat) (pack : hashPack.t) (rnd : nat) (now : Z)
  (ban : list banEvent) (st : fetchState) : fetchStep :=
  if negb (String.eqb (hashPack.peerId pack) (peer.id (active st))) then Continue st
  else
    let hashes := hashPack.hashes pack in
    if (length hashes =? 0)%nat then Fail st ErrEmptyHashSet
    else
      match findBanned (banned (d st)) 0 hashes with
      | Some (index, hash) =>
          let '(_, q) := queue.Insert (take (S index) hashes) (queue (d st)) in
          match banBlocks fuel (peer.id (active st)) hash ban (withQueue q (d st)) with
          | (d', BanReturn _) => Fail (withD d' st) ErrInvalidChain
          | (d', _) => Stuck (withD d' st)
          end
      | None =>
          let known h :=
            hasBlock h || bool_decide (is_Some (queue.GetBlock h (queue (d st)))) in
          let '(hashes, done, head) := scanKnown known hashes (head st) in
          let '(inserts, q) := queue.Insert hashes (queue (d st)) in
          let st := withHead head (withD (withQueue q (d st)) st) in
          if (length inserts =? 0)%nat && negb done then Fail st ErrBadPeer
          else if negb done then
            if Z.of_nat (length inserts) <? MinHashFetch then Fail st ErrStallingPeer
            else
              match crossSelect rnd inserts with
              | None => Panic
              | Some (origin, parent) =>
                  let check := {| expire := now + blockSoftTTL; parent := parent |} in
                  let st := withD (withChecks (<[origin := check]> (checks (d st)))
                                     (d st)) st in
                  let st := send (GetBlocks (peer.id (active st)) [origin]) st in
                  Continue (getHashes head st)
              end
          else
            let offset :=
              match getBlock head with
              | Some block => mach.int64 (mach.uint64 (Block.NumberU64 block + 1))
              | None => 0
              end in
            Finished (withD (withQueue (queue.Prepare offset (queue (d st))) (d st)) st)
      end.

(** [case blockPack := <-d.blockCh] *)
Definition onBlocks (pack : blockPack.t) (st : fetchState) : fetchStep :=
  if negb (String.eqb (blockPack.peerId pack) (peer.id (active st))) then Continue st
  else
    match blockPack.blocks pack with
    | [block] =>
        match checks (d st) !! Block.Hash block with
        | Some check =>
            if negb (N.eqb (Block.ParentHash block) (parent check))
            then Fail st ErrCrossCheckFailed
            else Continue (withD (withChecks (delete (Block.Hash block)
                                                (checks (d st))) (d st)) st)
        | None => Continue st
        end
    | _ => Continue st
    end.

(** [case <-crossTicker.C] *)
Definition onCrossTick (now : Z) (st : fetchState) : fetchStep :=
  if existsb (fun hc => now >? expire (snd hc)) (map_to_list (checks (d st)))
  then Fail st ErrCrossCheckFailed
  else Continue st.

(** The peer a timeout looks for. *)
Definition eligible (st : fetchState) (p : peer.t) : bool :=
  queue.Has (peer.head p) (queue (d st)) && negb (bool_decide (peer.id p ∈ attempted st)).

(** [case <-timeout.C] *)
Definition onTimeout (st : fetchState) : fetchStep :=
  match find (eligible st) (peers (d st)) with
  | None => Fail st ErrTimeout
  | Some p =>
      if N.eqb (head st) common.zeroHash then Fail st ErrTimeout
      else Continue (getHashes (head st) (withActive p st))
  end.

Definition handle (fuel : nat) (ev : fetchEvent) (st : fetchState) : fetchStep :=
  match ev with
  | Cancel => Fail st errCancelHashFetch
  | Hashes pack rnd now ban => onHashes fuel pack rnd now ban st
  | Blocks pack => onBlocks pack st
  | CrossTick now => onCrossTick now st
  | Timeout => onTimeout st
  end.

Inductive fetchResult :=
| FetchReturn (st : fetchState) (err : option Err)
| FetchWaiting (st : fetchState)
| FetchStuck (st : fetchState)
| FetchPanic.

(** [for finished := false; !finished; { select { ... } }] *)
Fixpoint fetchLoop (fuel : nat) (events : list fetchEvent) (st : fetchState)
  : fetchResult :=
  match events with
  | [] => FetchWaiting st
  | ev :: events' =>
      match handle fuel ev st with
      | Continue st' => fetchLoop fuel events' st'
      | Finished st' => FetchReturn st' None
      | Fail st' err => FetchReturn st' (Some err)
      | Stuck st' => FetchStuck st'
      | Panic => FetchPanic
      end
  end.

(** The state in which the loop is entered. *)
Definition fetchStart (p : peer.t) (h : common.Hash) (self : Downloader)
  : fetchState :=
  let '(_, q) := queue.Insert [h] (queue self) in
  let st := {| d := withQueue q self; active := p; head := common.zeroHash;
               attempted := ∅; sent := [] |} in
  let st := getHashes h st in
  {| d := d st; active := active st; head := head st;
     attempted := {[peer.id p]} ∪ attempted st; sent := sent st |}.

Definition fetchHashes (fuel : nat) (p : peer.t) (h : common.Hash)
  (events : list fetchEvent) (self : Downloader) : fetchResult :=
  fetchLoop fuel events (fetchStart p h self).

(** *** Import statistics: [TakeBlocks] and [Stats] *)

(** [Block]: an origin-tagged block. *)
Record taggedBlock := { RawBlock : Block.t; OriginPeer : string }.

(** The statistics fields of the downloader. *)
Record importStats := {
  importStart : Z;
  importQueue : list taggedBlock;
  importDone : Z
}.

(** [TakeBlocks], given the blocks [d.queue.TakeBlocks()] yields and the
    clock. *)
Definition TakeBlocks (blocks : list taggedBlock) (now : Z) (s : importStats)
  : list taggedBlock * importStats :=
  (blocks,
   if (0 <? length blocks)%nat
   then {| importStart := now; importQueue := blocks; importDone := 0 |}
   else s).

(** [for len(d.importQueue) > 0 && d.hasBlock(d.importQueue[0].RawBlock.Hash())];
    [importDone] is an [int]. *)
Fixpoint pruneImported (queue : list taggedBlock) (done : Z)
  : list taggedBlock * Z :=
  match queue with
  | [] => ([], done)
  | block :: queue' =>
      if hasBlock (Block.Hash (RawBlock block))
      then pruneImported queue' (mach.int64 (done + 1))
      else (queue, done)
  end.

(** [Stats], given what [d.queue.Size()] returns and the time since the
    import started: pending, cached, importing and the estimate. *)
Definition Stats (pending cached : Z) (elapsed : Z) (s : importStats)
  : (Z * Z * Z * Z) * importStats :=
  let '(queue, done) := pruneImported (importQueue s) (importDone s) in
  let importing := Z.of_nat (length queue) in
  let estimate :=
    if done >? 0
    then mach.int64 (Z.quot elapsed done
                     * mach.int64 (mach.int64 (pending + cached) + importing))
    else 0 in
  ((pending, cached, importing, estimate),
   {| importStart := importStart s; importQueue := queue; importDone := done |}).

End Downloader.

End downloader.

(** ** The rules of the specification, in its words *)

Module rules.

(** The difficulty rule: [adjust = P.difficulty / BoundDivisor]; add it
    when the block follows its parent by less than the duration limit,
    subtract it otherwise; clamp to the minimum difficulty. *)
Definition difficulty (P : params.t) (B parent : Header.t) : Z :=
  let adjust := Header.Difficulty parent / params.DifficultyBoundDivisor P in
  let diff :=
    if Header.Time B - Header.Time parent <? params.DurationLimit P
    then Header.Difficulty parent + adjust
    else Header.Difficulty parent - adjust in
  if diff <? params.MinimumDifficulty P then params.MinimumDifficulty P else diff.

(** The gas-limit rule. *)
Definition gasLimit (P : params.t) (parent : Block.t) : Z :=
  let decay := Block.GasLimit parent / params.GasLimitBoundDivisor P in
  let contrib := (Block.GasUsed parent * 3 / 2) / params.GasLimitBoundDivisor P in
  let gl := Z.max (Block.GasLimit parent - decay + contrib + 1) (params.MinGasLimit P) in
  if gl <? params.GenesisGasLimit P
  then Z.min (params.GenesisGasLimit P) (Block.GasLimit parent + decay)
  else gl.

End rules.

(** ** Chains of blocks *)

Module chains.

(** Each block's parent is its predecessor, the first one's is [parent]. *)
Fixpoint linked (parent : common.Hash) (chain : list Block.t) : Prop :=
  match chain with
  | [] => True
  | b :: rest => Block.ParentHash b = parent /\ linked (Block.Hash b) rest
  end.

(** The total difficulties of a linked chain by the primary rule, the
    first block's from [parent]. *)
Fixpoint stamped (parent : option Block.t) (chain : list Block.t)
  : list Block.t :=
  match chain with
  | [] => []
  | b :: rest =>
      let b' := Block.setTd (core.CalcTD b parent) b in
      b' :: stamped (Some b') rest
  end.

(** Total difficulties strictly increasing above [td]. *)
Fixpoint increasing (td : Z) (chain : list Block.t) : Prop :=
  match chain with
  | [] => True
  | b :: rest => td < Block.Td b /\ increasing (Block.Td b) rest
  end.

(** [a] comes before [b] in [l]. *)
Fixpoint precedes (a b : nat) (l : list nat) : bool :=
  match l with
  | [] => false
  | x :: l' =>
      if Nat.eqb x a then true
      else if Nat.eqb x b then false
      else precedes a b l'
  end.

(** [cs] is the canonical chain of the manager, genesis first: block [n]
    has number [n], is stored under its hash and indexed under its
    number, its parent is block [n - 1], and the last block is the head. *)
Definition canonical (bc : core.ChainManager) (cs : list Block.t) : Prop :=
  last cs = Some (core.currentBlock bc) /\
  forall (n : nat) (b : Block.t),
    cs !! n = Some b ->
    Block.Number b = Z.of_nat n /\
    core.GetBlock bc (Block.Hash b) = Some b /\
    core.numDb bc !! Z.of_nat n = Some (Block.Hash b) /\
    match n with
    | O => True
    | S m => exists p, cs !! m = Some p /\ Block.ParentHash b = Block.Hash p
    end.

(** The manager with the blocks of [l] removed from the database. *)
Definition without (bc : core.ChainManager) (l : list Block.t) : core.ChainManager :=
  fold_left (fun bc b => core.removeBlock b bc) l bc.

(** [l], highest block first, follows the parent pointers through the
    database: each block's parent is the next one, one number below. *)
Fixpoint descends (bc : core.ChainManager) (l : list Block.t) : Prop :=
  match l with
  | x :: rest =>
      match rest with
      | y :: _ =>
          core.GetBlock bc (Block.ParentHash x) = Some y /\
          Block.Number x = Block.Number y + 1
      | [] => True
      end /\ descends bc rest
  | [] => True
  end.

End chains.

(** ** Invariants *)

Module invariants.

(** Every nonce result not yet seen is still to arrive. *)
Definition noncesPending (n : nat) (checked : list bool) (done : list nat) : Prop :=
  length checked = n /\
  Forall (fun r => (r < n)%nat) done /\
  forall j, (j < n)%nat -> checked !! j = Some true \/ j ∈ done.

(** The hard-coded hashes are banned and the banned set is within its
    bound. *)
Definition bannedInv (BadHashes : gset N) (d : downloader.Downloader) : Prop :=
  BadHashes ⊆ downloader.banned d /\
  (size (downloader.banned d) <= downloader.maxBannedHashes)%nat.

Definition stepKeeps (BadHashes : gset N) (r : downloader.fetchStep) : Prop :=
  match r with
  | downloader.Continue st | downloader.Finished st
  | downloader.Fail st _ | downloader.Stuck st =>
      bannedInv BadHashes (downloader.d st)
  | downloader.Panic => True
  end.

Definition resultKeeps (BadHashes : gset N) (r : downloader.fetchResult) : Prop :=
  match r with
  | downloader.FetchReturn st _ | downloader.FetchWaiting st
  | downloader.FetchStuck st => bannedInv BadHashes (downloader.d st)
  | downloader.FetchPanic => True
  end.

(** Every block of the database is stored under its own hash. *)
Definition keyed (bc : core.ChainManager) : Prop :=
  forall h b, core.GetBlock bc h = Some b -> Block.Hash b = h.

(** An outcome that ends the call before the block of the iteration is
    stamped: a nonce result, the blacklist. *)
Definition beforeStamping (out : core.Outcome) : Prop :=
  match out with
  | core.Abort core.NonceStarved
  | core.Abort core.IndexOutOfRange
  | core.Return _ (Some (core.BlockNonceErr _ _ _))
  | core.Return _ (Some (core.BadHashErr _)) => True
  | _ => False
  end.

(** The total-difficulty rule in the database: a stored block whose
    parent is stored carries the parent's total difficulty plus its own
    difficulty. *)
Definition tdRule (bc : core.ChainManager) : Prop :=
  forall h B P,
    core.GetBlock bc h = Some B ->
    core.GetBlock bc (Block.ParentHash B) = Some P ->
    Block.Td B = Block.Td P + Block.Difficulty B.

(** No reorganisation event in a queue of chain events. *)
Definition noSplit (queue : list (option core.ChainEv)) : Prop :=
  Forall (fun ev => match ev with
                    | Some (core.ChainSplitEvent _ _) => False
                    | _ => True
                    end) queue.

(** An outcome other than [(0, nil)]. *)
Definition failed (out : core.Outcome) : Prop :=
  match out with
  | core.Return _ None => False
  | _ => True
  end.

End invariants.

(** ** Sample data *)

Module sample.

Definition header (parentHash : N) (number time difficulty : Z) (hash : N)
  : Header.t :=
  {| Header.ParentHash := parentHash; Header.Number := number;
     Header.Time := time; Header.Difficulty := difficulty;
     Header.GasLimit := 3141592; Header.GasUsed := 0; Header.Nonce := 0%N;
     Header.Hash := hash |}.

Definition block (parentHash : N) (number time difficulty : Z) (hash : N)
  (td : Z) : Block.t :=
  {| Block.header := header parentHash number time difficulty hash;
     Block.Uncles := []; Block.Transactions := 0%nat; Block.Td := td;
     Block.queued := false |}.

(** A manager whose chain is the genesis block alone. *)
Definition genesis : Block.t := block 0 0 0 131072 100 131072.

Definition manager : core.ChainManager :=
  {| core.blockDb := {[ 100%N := genesis ]};
     core.numDb := {[ 0 := 100%N ]};
     core.lastBlockDb := Some 100%N;
     core.genesisBlock := genesis;
     core.td := 131072;
     core.currentBlock := genesis;
     core.lastBlockHash := 100%N;
     core.cache := core.BlockCache.Push genesis (core.BlockCache.New core.blockCacheLimit);
     core.futureBlocks := core.BlockCache.New core.maxFutureBlocks |}.

(** Three blocks on top of it, as a peer hands them over (no total
    difficulty yet). *)
Definition B1 : Block.t := block 100 1 10 131073 101 0.
Definition B2 : Block.t := block 101 2 20 131074 102 0.
Definition B3 : Block.t := block 102 3 30 131075 103 0.

(** Two blocks ahead of the clock (1000), within the tolerance. *)
Definition F1 : Block.t := block 100 1 1010 131073 201 0.
Definition F2 : Block.t := block 201 2 1020 131074 202 0.

(** A verifier that rejects the nonce of one block. *)
Definition verify_but (bad : N) (h : Header.t) : bool :=
  negb (N.eqb (Header.Hash h) bad).

(** A processor that accepts every block. *)
Definition accepting (bc : core.ChainManager) (b : Block.t)
  : core.ProcessError + core.Logs := inr [].

(** A processor that knows the clock (1000) and the database: a block
    ahead of the clock is a future block, a block whose parent is not
    stored lacks its parent. *)
Definition checking (bc : core.ChainManager) (b : Block.t)
  : core.ProcessError + core.Logs :=
  if Block.Time b >? 1000 then inl core.BlockFutureErr
  else match core.GetBlock bc (Block.ParentHash b) with
       | None => inl core.ParentError
       | Some _ => inr []
       end.

Definition env (bad : gset N) (verify : Header.t -> bool)
  (process : core.ChainManager -> Block.t -> core.ProcessError + core.Logs)
  (interrupt : bool) : core.Env :=
  {| core.BadHashes := bad; core.Verify := verify; core.Process := process;
     core.procInterrupt := fun _ => interrupt; core.Now := fun _ => 1000 |}.

(** The manager after the import of [B1]. *)
Definition manager1 : core.ChainManager :=
  core.manager
    (core.InsertChain (env ∅ (fun _ => true) accepting false) 0 [0%nat]
       manager [B1]).

(** A block whose parent [B1] may not be there yet, and a heavy block on
    top of it. *)
Definition O2 : Block.t := block 101 2 20 10 302 0.
Definition O3 : Block.t := block 302 3 30 300000 303 0.

(** A block that competes with [B1] and one on top of it; the manager
    after the import of [B1] and then of [S1], which stays a side block. *)
Definition S1 : Block.t := block 100 1 11 131073 401 0.
Definition S2 : Block.t := block 401 2 21 131074 402 0.

Definition manager2 : core.ChainManager :=
  core.manager
    (core.InsertChain (env ∅ (fun _ => true) accepting false) 0 [0%nat]
       manager1 [S1]).

(** A downloader with one hard-coded bad hash and two peers; a queue
    that hands out its first pending hashes; peers that take every
    request. *)
Definition badHashes : gset N := {[ 7%N ]}.

Definition peerA : downloader.peer.t :=
  {| downloader.peer.id := "A"; downloader.peer.head := 900%N |}.
Definition peerB : downloader.peer.t :=
  {| downloader.peer.id := "B"; downloader.peer.head := 900%N |}.

Definition syncing : downloader.Downloader :=
  {| downloader.queue := downloader.queue.New;
     downloader.peers := [peerA; peerB];
     downloader.checks := ∅;
     downloader.banned := badHashes |}.

Definition reserve (q : downloader.queue.t) (p : downloader.peer.t) (n : nat)
  : option (list common.Hash * downloader.queue.t) :=
  match take n (downloader.queue.hashPool q) with
  | [] => None
  | request => Some (request, q)
  end.

Definition fetch (p : downloader.peer.t) (request : list common.Hash)
  : option downloader.Err := None.

(** A delivery of 512 new hashes by peer A. *)
Definition batch : downloader.hashPack.t :=
  {| downloader.hashPack.peerId := "A";
     downloader.hashPack.hashes := map N.of_nat (seq 1000 512) |}.

Definition noBlock (h : common.Hash) : bool := false.
Definition noBlockAt (h : common.Hash) : option Block.t := None.

End sample.

(** * Properties *)

(** ** Arithmetic of the model *)

Lemma big_Div_pos (x y : Z) : 0 < y -> big.Div x y = Some (x / y).
Proof.
  intros Hy. unfold big.Div.
  destruct (Z.eqb_spec y 0) as [->|_]; [lia|].
  rewrite Z.sgn_pos, Z.abs_eq by lia. f_equal. lia.
Qed.

Lemma big_Cmp_lt (x y : Z) : (big.Cmp x y <? 0) = (x <? y).
Proof.
  unfold big.Cmp, Z.ltb at 2. destruct (x ?= y); reflexivity.
Qed.

Lemma big_Cmp_gt (x y : Z) : (big.Cmp x y >? 0) = (x >? y).
Proof.
  unfold big.Cmp, Z.gtb at 2. destruct (x ?= y); reflexivity.
Qed.

Lemma big_Cmp_le (x y : Z) : (big.Cmp x y <=? 0) = (x <=? y).
Proof.
  unfold big.Cmp, Z.leb at 2. destruct (x ?= y); reflexivity.
Qed.

Lemma int64_small (z : Z) : - 2 ^ 63 <= z < 2 ^ 63 -> mach.int64 z = z.
Proof.
  intros Hz. unfold mach.int64. rewrite Z.mod_small; lia.
Qed.

Lemma int64_sub (a b : Z) :
  mach.int64 (mach.int64 a - mach.int64 b) = mach.int64 (a - b).
Proof.
  unfold mach.int64. f_equal.
  replace ((a + 2 ^ 63) mod 2 ^ 64 - 2 ^ 63 - ((b + 2 ^ 63) mod 2 ^ 64 - 2 ^ 63) + 2 ^ 63)
    with (((a + 2 ^ 63) mod 2 ^ 64 - (b + 2 ^ 63) mod 2 ^ 64) + 2 ^ 63) by lia.
  rewrite <- Zplus_mod_idemp_l, <- Zminus_mod, Zplus_mod_idemp_l.
  f_equal. lia.
Qed.

Lemma BigMax_max (x y : Z) : common.BigMax x y = Z.max x y.
Proof. unfold common.BigMax. rewrite big_Cmp_lt. destruct (Z.ltb_spec x y); lia. Qed.

Lemma BigMin_min (x y : Z) : common.BigMin x y = Z.min x y.
Proof. unfold common.BigMin. rewrite big_Cmp_gt. destruct (Z.gtb_spec x y); lia. Qed.

(** ** The difficulty and gas-limit rules *)

(** C7. With a positive gas-limit bound divisor, [CalcGasLimit] returns
    the gas limit of the rule: decay = gasLimit / divisor, contrib =
    (gasUsed * 3 / 2) / divisor, gl = max(gasLimit - decay + contrib + 1,
    MinGasLimit), and min(GenesisGasLimit, gasLimit + decay) instead when
    gl is below GenesisGasLimit. *)
Theorem CalcGasLimit_rule (P : params.t) (parent : Block.t) :
  0 < params.GasLimitBoundDivisor P ->
  core.CalcGasLimit P parent = Some (rules.gasLimit P parent).
Proof.
  intros Hdiv. unfold core.CalcGasLimit, rules.gasLimit.
  rewrite (big_Div_pos _ _ Hdiv).
  rewrite (big_Div_pos (Block.GasUsed parent * 3) 2) by lia.
  rewrite (big_Div_pos _ _ Hdiv). cbv zeta.
  rewrite BigMax_max, big_Cmp_lt, BigMin_min.
  destruct (_ <? _); reflexivity.
Qed.

Lemma CalcGasLimit_rule_witness :
  0 < params.GasLimitBoundDivisor params.sample /\
  core.CalcGasLimit params.sample (sample.block 0 0 0 131072 1 131072)
  = Some 3141592.
Proof.
  split; [reflexivity|].
  rewrite (CalcGasLimit_rule params.sample _ eq_refl). reflexivity.
Defined.

(** C6 (amended). With a positive difficulty bound divisor and a time
    difference that fits a signed 64-bit integer, [CalcDifficulty] returns
    the difficulty of the rule. *)
Theorem CalcDifficulty_rule (P : params.t) (B parent : Header.t) :
  0 < params.DifficultyBoundDivisor P ->
  - 2 ^ 63 <= Header.Time B - Header.Time parent < 2 ^ 63 ->
  core.CalcDifficulty P B parent = Some (rules.difficulty P B parent).
Proof.
  intros Hdiv Htime. unfold core.CalcDifficulty, rules.difficulty.
  rewrite (big_Div_pos _ _ Hdiv). cbv zeta.
  rewrite int64_sub, (int64_small _ Htime), !big_Cmp_lt.
  destruct (_ <? params.DurationLimit P);
    destruct (_ <? params.MinimumDifficulty P); reflexivity.
Qed.

Lemma CalcDifficulty_rule_witness :
  core.CalcDifficulty params.sample
    (sample.header 1 1 1010 0 2) (sample.header 0 0 1000 1048576 1)
  = Some 1048064.
Proof.
  rewrite (CalcDifficulty_rule params.sample); [reflexivity|reflexivity|].
  cbn. lia.
Defined.

(** C6, as stated, fails where the 64-bit subtraction wraps: a block
    whose time is 2^63 and whose parent's time is 0 gets the raised
    difficulty, although it follows its parent by far more than the
    duration limit. *)
Lemma CalcDifficulty_rule_wraps :
  let B := sample.header 1 1 (2 ^ 63) 0 2 in
  let parent := sample.header 0 0 0 1048576 1 in
  Header.wf B /\ Header.wf parent /\
  0 < params.DifficultyBoundDivisor params.sample /\
  core.CalcDifficulty params.sample B parent = Some 1049088 /\
  rules.difficulty params.sample B parent = 1048064.
Proof.
  cbv zeta. unfold Header.wf. cbn.
  repeat split; try reflexivity; try lia; discriminate.
Qed.

Lemma last_cons_default {A : Type} (l : list A) :
  forall x d : A, List.last (x :: l) d = List.last l x.
Proof.
  induction l as [|a l IH]; intros x d; [reflexivity|].
  change (List.last (a :: l) d = List.last (a :: l) x).
  rewrite !IH. reflexivity.
Qed.

(** ** The nonce results *)


Lemma noncesPending_enter (arrivals : list nat) (n : nat) :
  arrivals ≡ₚ seq 0 n -> invariants.noncesPending n (replicate n false) arrivals.
Proof.
  intros Hperm. split; [apply length_replicate|]. split.
  - rewrite Hperm. apply Forall_forall. intros r Hr.
    apply elem_of_seq in Hr. lia.
  - intros j Hj. right. rewrite Hperm. apply elem_of_seq. lia.
Qed.

Lemma waitNonce_ready (E : core.Env) (chain : list Block.t) (i : nat) :
  Forall (fun b => core.Verify E (Block.header b) = true) chain ->
  (i < length chain)%nat ->
  forall done checked,
    invariants.noncesPending (length chain) checked done ->
    exists checked' done',
      core.waitNonce E chain i checked done = core.NonceReady checked' done' /\
      invariants.noncesPending (length chain) checked' done' /\
      checked' !! i = Some true.
Proof.
  intros Hver Hi. induction done as [|r done IH]; intros checked (Hlen & Hlt & Hall).
  - destruct (Hall i Hi) as [Hc|Hin]; [|by apply elem_of_nil in Hin].
    exists checked, []. cbn. rewrite Hc. repeat split; auto.
  - destruct (Hall i Hi) as [Hc|Hin].
    + exists checked, (r :: done). cbn. rewrite Hc. repeat split; auto.
    + cbn. destruct (checked !! i) as [[|]|] eqn:Hci.
      * exists checked, (r :: done). repeat split; auto.
      * apply Forall_cons in Hlt as [Hr Hlt].
        destruct (lookup_lt_is_Some_2 chain r Hr) as [block Hblock].
        rewrite Hblock.
        rewrite (proj1 (Forall_forall _ _) Hver block)
          by (eapply list_elem_of_lookup_2; eauto).
        apply IH. split; [by rewrite length_insert|]. split; [exact Hlt|].
        intros j Hj. destruct (decide (j = r)) as [->|Hne].
        -- left. apply list_lookup_insert_eq. lia.
        -- destruct (Hall j Hj) as [Hc|Hin'].
           ++ left. rewrite list_lookup_insert_ne by congruence. exact Hc.
           ++ right. apply elem_of_cons in Hin' as [?|?]; [congruence|done].
      * apply lookup_ge_None in Hci. lia.
Qed.

(** ** Importing a chain that extends the head *)

Section ValidImport.

Variable E : core.Env.
Variable fuel : nat.
Variable chain : list Block.t.

Hypothesis not_interrupted : forall i, core.procInterrupt E i = false.
Hypothesis no_bad_hash :
  Forall (fun b => Block.Hash b ∉ core.BadHashes E) chain.
Hypothesis nonces_verify :
  Forall (fun b => core.Verify E (Block.header b) = true) chain.

(** One block whose parent is the head, which the processor accepts and
    whose stamped total difficulty is above the manager's: it becomes
    the head. *)
Lemma insertBlock_extends (i : nat) (block : Block.t) (st : core.loopState) :
  (i < length chain)%nat ->
  block ∈ chain ->
  invariants.noncesPending (length chain) (core.nonceChecked st) (core.nonceDone st) ->
  Block.ParentHash block = Block.Hash (core.currentBlock (core.bc st)) ->
  let block' :=
    core.stamp (core.bc st) block in
  (exists logs, core.Process E (core.bc st) block' = inr logs) ->
  core.td (core.bc st) < Block.Td block' ->
  exists st',
    core.insertBlock E fuel chain i block st = core.Next st' block' /\
    invariants.noncesPending (length chain) (core.nonceChecked st') (core.nonceDone st') /\
    core.currentBlock (core.bc st') = block' /\
    core.td (core.bc st') = Block.Td block' /\
    core.GetBlock (core.bc st') (Block.Hash block') = Some block'.
Proof.
  intros Hi Hin Hpend Hparent block' [logs Hlogs] Htd.
  destruct (waitNonce_ready E chain i nonces_verify Hi _ _ Hpend)
    as (checked' & done' & Hwait & Hpend' & _).
  unfold core.insertBlock. rewrite not_interrupted, Hwait.
  rewrite bool_decide_eq_false_2
    by (apply (proj1 (Forall_forall _ _) no_bad_hash); exact Hin).
  cbn [core.bc core.withNonces]. fold block'. rewrite Hlogs.
  unfold core.accept. cbn [core.bc core.withNonces].
  rewrite big_Cmp_gt. unfold core.Td.
  destruct (Z.gtb_spec (Block.Td block') (core.td (core.bc st))) as [_|?]; [|lia].
  replace (Block.ParentHash block') with (Block.ParentHash block) by reflexivity.
  rewrite Hparent, N.eqb_refl. cbn [negb].
  eexists. split; [reflexivity|].
  cbn. repeat split; try apply Hpend'.
  unfold core.GetBlock. cbn. apply lookup_insert_eq.
Qed.

(** The loop over a linked chain with increasing total difficulties,
    each block of which the processor accepts when its turn comes. *)
Lemma insertLoop_extends (rest : list Block.t) :
  forall (i : nat) (done : list Block.t) (st : core.loopState),
    (i + length rest = length chain)%nat ->
    rest ⊆ chain ->
    invariants.noncesPending (length chain) (core.nonceChecked st) (core.nonceDone st) ->
    (forall k st' done' block rest',
        core.loopAt E fuel chain k i done rest st = Some (st', done', block :: rest') ->
        exists logs,
          core.Process E (core.bc st') (core.stamp (core.bc st') block) = inr logs) ->
    chains.linked (Block.Hash (core.currentBlock (core.bc st))) rest ->
    let parent :=
      core.GetBlock (core.bc st) (Block.Hash (core.currentBlock (core.bc st))) in
    chains.increasing (core.td (core.bc st)) (chains.stamped parent rest) ->
    let r := core.insertLoop E fuel chain i done rest st in
    core.outcome r = core.Return 0 None /\
    core.blocks r = done ++ chains.stamped parent rest /\
    core.currentBlock (core.manager r)
    = List.last (chains.stamped parent rest) (core.currentBlock (core.bc st)) /\
    core.td (core.manager r)
    = match rest with
      | [] => core.td (core.bc st)
      | _ => Block.Td (core.currentBlock (core.manager r))
      end.
Proof.
  induction rest as [|block rest IH];
    intros i done st Hlen Hsub Hpend Hproc Hlink parent Hinc r.
  - subst r. cbn. rewrite app_nil_r. auto.
  - destruct Hlink as [Hparent Hlink]. destruct Hinc as [Htd Hinc].
    assert (Hin : block ∈ chain) by (apply Hsub; left).
    assert (Hi : (i < length chain)%nat) by (cbn in Hlen; lia).
    subst parent. rewrite <- Hparent in *.
    destruct (insertBlock_extends i block st Hi Hin Hpend Hparent
                (Hproc 0%nat st done block rest eq_refl) Htd)
      as (st' & Hstep & Hpend' & Hcur & Htd' & Hget).
    subst r. cbn [core.insertLoop]. rewrite Hstep.
    assert (Hproc' : forall k st0 done0 block0 rest0,
               core.loopAt E fuel chain k (S i)
                 (done ++ [core.stamp (core.bc st) block]) rest st'
               = Some (st0, done0, block0 :: rest0) ->
               exists logs,
                 core.Process E (core.bc st0) (core.stamp (core.bc st0) block0)
                 = inr logs).
    { intros k st0 done0 block0 rest0 Hat. apply (Hproc (S k) st0 done0 block0 rest0).
      cbn [core.loopAt]. rewrite Hstep. exact Hat. }
    unfold core.stamp in *.
    set (block' := Block.setTd _ block) in *.
    specialize (IH (S i) (done ++ [block']) st').
    rewrite Hcur, Hget, Htd' in IH.
    destruct IH as (Hout & Hblocks & Hhead & Htotal); auto.
    { cbn in Hlen. lia. }
    { intros x Hx. apply Hsub. by right. }
    split; [exact Hout|]. split.
    { rewrite Hblocks, <- app_assoc. reflexivity. }
    split.
    { rewrite Hhead. cbn [chains.stamped]. fold block'.
      symmetry. apply last_cons_default. }
    destruct rest; [|exact Htotal].
    rewrite Htotal, Hhead. reflexivity.
Qed.

End ValidImport.

Lemma loopAt_length (E : core.Env) (fuel : nat) (chain : list Block.t) (k : nat) :
  forall i done rest st st' done' rest',
    core.loopAt E fuel chain k i done rest st = Some (st', done', rest') ->
    length rest = (k + length rest')%nat.
Proof.
  induction k as [|k IH]; intros i done rest st st' done' rest' Hat; cbn in Hat.
  - injection Hat as _ _ ->. reflexivity.
  - destruct rest as [|block rest]; [discriminate|].
    destruct (core.insertBlock E fuel chain i block st); try discriminate.
    apply IH in Hat. cbn. lia.
Qed.

Lemma stamped_last_header_gen (chain : list Block.t) :
  forall parent d d',
    Block.header d = Block.header d' ->
    Block.header (List.last (chains.stamped parent chain) d)
    = Block.header (List.last chain d').
Proof.
  induction chain as [|b chain IH]; intros parent d d' Hd; [exact Hd|].
  cbn [chains.stamped]. rewrite !last_cons_default.
  apply IH. reflexivity.
Qed.

Lemma stamped_last_header (chain : list Block.t) (parent : option Block.t)
  (d : Block.t) :
  Block.header (List.last (chains.stamped parent chain) d)
  = Block.header (List.last chain d).
Proof. apply stamped_last_header_gen. reflexivity. Qed.

(** C1 (amended). A non-empty chain that extends the head -- the first
    block's parent is the head, each later block's parent is its
    predecessor, every nonce verifies and every result arrives, the
    processor succeeds on every block when its turn comes (on the
    stamped block, in the manager as the blocks before it left it), the
    stamped total difficulties increase strictly above the manager's --
    and that holds no blacklisted hash, imported while the interrupt flag
    is not set:
    [InsertChain] returns (0, nil), the head is the last block of the
    chain and the manager's total difficulty is that block's. *)
Theorem InsertChain_extends_head (E : core.Env) (fuel : nat)
  (arrivals : list nat) (self : core.ChainManager) (chain : list Block.t) :
  chain <> [] ->
  (forall i, core.procInterrupt E i = false) ->
  Forall (fun b => Block.Hash b ∉ core.BadHashes E) chain ->
  Forall (fun b => core.Verify E (Block.header b) = true) chain ->
  arrivals ≡ₚ seq 0 (length chain) ->
  (forall k st done block rest,
      core.loopAt E fuel chain k 0 [] chain (core.enter arrivals self chain)
      = Some (st, done, block :: rest) ->
      exists logs,
        core.Process E (core.bc st) (core.stamp (core.bc st) block) = inr logs) ->
  chains.linked (Block.Hash (core.currentBlock self)) chain ->
  chains.increasing (core.td self)
    (chains.stamped (core.GetBlock self (Block.Hash (core.currentBlock self)))
       chain) ->
  let r := core.InsertChain E fuel arrivals self chain in
  core.outcome r = core.Return 0 None /\
  core.blocks r
  = chains.stamped (core.GetBlock self (Block.Hash (core.currentBlock self))) chain /\
  core.currentBlock (core.manager r)
  = List.last (core.blocks r) (core.currentBlock self) /\
  Block.header (core.currentBlock (core.manager r))
  = Block.header (List.last chain (core.currentBlock self)) /\
  core.td (core.manager r) = Block.Td (core.currentBlock (core.manager r)).
Proof.
  intros Hne Hint Hbad Hver Hperm Hproc Hlink Hinc r.
  destruct (insertLoop_extends E fuel chain Hint Hbad Hver chain 0 []
              (core.enter arrivals self chain)) as (Hout & Hblocks & Hhead & Htd);
    auto.
  { apply noncesPending_enter. exact Hperm. }
  fold (core.InsertChain E fuel arrivals self chain) in *. fold r in Hout, Hblocks, Hhead, Htd.
  cbn [core.enter core.bc app] in *.
  split; [exact Hout|]. split; [exact Hblocks|].
  split; [by rewrite Hblocks|].
  split; [rewrite Hhead; apply stamped_last_header|].
  destruct chain; [done|exact Htd].
Qed.

Lemma InsertChain_extends_head_witness :
  let r := core.InsertChain (sample.env ∅ (fun _ => true) sample.checking false)
             0 [2; 0; 1]%nat sample.manager [sample.B1; sample.B2; sample.B3] in
  core.outcome r = core.Return 0 None /\
  Block.header (core.currentBlock (core.manager r)) = Block.header sample.B3 /\
  core.td (core.manager r) = 131072 + 131073 + 131074 + 131075.
Proof.
  intros r.
  destruct (InsertChain_extends_head
              (sample.env ∅ (fun _ => true) sample.checking false)
              0 [2; 0; 1]%nat sample.manager [sample.B1; sample.B2; sample.B3])
    as (Hout & Hblocks & Hhead & Hheader & Htd).
  - discriminate.
  - reflexivity.
  - repeat constructor; apply not_elem_of_empty.
  - repeat constructor.
  - apply perm_trans with [0; 2; 1]%nat; repeat constructor.
  - intros k st done block rest Hat. exists [].
    destruct k as [|[|[|k]]].
    + vm_compute in Hat. injection Hat as <- <- <- <-. reflexivity.
    + vm_compute in Hat. injection Hat as <- <- <- <-. reflexivity.
    + vm_compute in Hat. injection Hat as <- <- <- <-. reflexivity.
    + apply loopAt_length in Hat. cbn in Hat. lia.
  - cbn. repeat split.
  - vm_compute. repeat split.
  - fold r in Hout, Hblocks, Hhead, Hheader, Htd.
    split; [exact Hout|]. split; [exact Hheader|].
    rewrite Htd, Hhead, Hblocks. reflexivity.
Defined.

(** C1, as stated, leaves two guards out.  With the interrupt flag set
    the loop is left at once: the call returns (0, nil) and the head is
    still the genesis block.  A blacklisted hash ends the call with an
    error.  In both runs the block extends the head, its nonce verifies,
    the processor accepts it and its total difficulty is above the
    manager's. *)
Lemma InsertChain_guards_block_valid_chain :
  let chain := [sample.B1] in
  chains.linked (Block.Hash (core.currentBlock sample.manager)) chain /\
  chains.increasing (core.td sample.manager)
    (chains.stamped
       (core.GetBlock sample.manager (Block.Hash (core.currentBlock sample.manager)))
       chain) /\
  (let r := core.InsertChain (sample.env ∅ (fun _ => true) sample.accepting true)
              0 [0]%nat sample.manager chain in
   core.outcome r = core.Return 0 None /\
   core.currentBlock (core.manager r) = sample.genesis /\
   core.td (core.manager r) = 131072) /\
  (let r := core.InsertChain (sample.env {[ 101%N ]} (fun _ => true) sample.accepting false)
              0 [0]%nat sample.manager chain in
   core.outcome r = core.Return 0 (Some (core.BadHashErr 101)) /\
   core.currentBlock (core.manager r) = sample.genesis).
Proof.
  vm_compute. repeat split.
Qed.

(** ** The total difficulty stamped on a block *)

Lemma insertLoop_loopAt (E : core.Env) (fuel : nat) (chain : list Block.t)
  (k : nat) :
  forall i done rest st st' done' rest',
    core.loopAt E fuel chain k i done rest st = Some (st', done', rest') ->
    core.insertLoop E fuel chain i done rest st
    = core.insertLoop E fuel chain (k + i) done' rest' st'.
Proof.
  induction k as [|k IH]; intros i done rest st st' done' rest' Hat; cbn in Hat.
  - by inversion Hat.
  - destruct rest as [|block rest]; [discriminate|].
    cbn [core.insertLoop].
    destruct (core.insertBlock E fuel chain i block st); try discriminate.
    rewrite (IH _ _ _ _ _ _ _ Hat). f_equal. lia.
Qed.

(** What one iteration does to the block: it comes out stamped by
    [CalcTD], or untouched when the iteration ends before the stamping;
    a block that stops the loop leaves the database as it was, a block
    the loop goes on after leaves it as it was or is stored under its
    hash. *)
Lemma insertBlock_stamps (E : core.Env) (fuel : nat) (chain : list Block.t)
  (i : nat) (block : Block.t) (st : core.loopState) :
  match core.insertBlock E fuel chain i block st with
  | core.Next st' block' =>
      block' = core.stamp (core.bc st) block \/
      block' = Block.SetQueued true (core.stamp (core.bc st) block)
  | core.Stop st' block' out =>
      (block' = block \/ block' = core.stamp (core.bc st) block) /\
      core.blockDb (core.bc st') = core.blockDb (core.bc st)
  | core.Break => True
  end /\
  match core.insertBlock E fuel chain i block st with
  | core.Next st' block' =>
      core.blockDb (core.bc st') = core.blockDb (core.bc st) \/
      core.GetBlock (core.bc st') (Block.Hash block) = Some block'
  | _ => True
  end.
Proof.
  unfold core.insertBlock.
  destruct (core.procInterrupt E i); [auto|].
  destruct (core.waitNonce _ _ _ _ _) as [checked done| |]; auto.
  destruct (bool_decide _); [auto|].
  cbn [core.bc core.withNonces].
  destruct (core.Process E (core.bc st) (core.stamp (core.bc st) block)) as [err|logs].
  - destruct err; cbn [core.IsKnownBlockErr core.IsBlockFutureErr core.IsParentErr andb];
      auto.
    + destruct (_ >? _); cbn; auto.
    + destruct (core.BlockCache.Has _ _); cbn; auto.
  - unfold core.accept. destruct (_ >? 0).
    + destruct (negb _).
      * destruct (core.merge _ _ _ _) as [[err|bc']|]; cbn; auto.
        split; [auto|]. right. apply lookup_insert_eq.
      * cbn. split; [auto|]. right. apply lookup_insert_eq.
    + cbn. split; [auto|]. right. apply lookup_insert_eq.
Qed.

Lemma fold_insert_keeps (l : list Block.t) :
  forall bc : core.ChainManager,
    let bc' := fold_left (fun bc' block => core.insert block bc') l bc in
    core.blockDb bc' = core.blockDb bc /\
    core.td bc' = core.td bc /\
    core.genesisBlock bc' = core.genesisBlock bc /\
    core.futureBlocks bc' = core.futureBlocks bc /\
    core.cache bc' = core.cache bc.
Proof.
  induction l as [|b l IH]; intros bc; [cbn; auto|].
  cbn [fold_left]. destruct (IH (core.insert b bc)) as (H1 & H2 & H3 & H4 & H5).
  cbn zeta. rewrite H1, H2, H3, H4, H5. cbn. auto.
Qed.

Lemma merge_keeps (fuel : nat) (bc bc' : core.ChainManager)
  (oldBlock newBlock : Block.t) :
  core.merge fuel bc oldBlock newBlock = Some (inr bc') ->
  core.blockDb bc' = core.blockDb bc /\
  core.td bc' = core.td bc /\
  core.genesisBlock bc' = core.genesisBlock bc /\
  core.futureBlocks bc' = core.futureBlocks bc /\
  core.cache bc' = core.cache bc.
Proof.
  unfold core.merge. destruct (core.diff _ _ _ _) as [[err|newChain]|]; try discriminate.
  intros [= <-]. apply fold_insert_keeps.
Qed.

Lemma diff_errors (fuel : nat) (bc : core.ChainManager)
  (oldBlock newBlock : Block.t) (err : core.Error) :
  core.diff fuel bc oldBlock newBlock = Some (inl err) ->
  err = core.InvalidOldChain \/ err = core.InvalidNewChain.
Proof.
  assert (Hcommon : forall fuel ob nb acc,
             core.findCommon fuel bc ob nb acc = Some (inl err) ->
             err = core.InvalidOldChain \/ err = core.InvalidNewChain).
  { clear fuel. induction fuel as [|fuel IH]; intros ob nb acc; cbn [core.findCommon];
      destruct (N.eqb _ _); try discriminate;
      destruct (core.GetBlock bc (Block.ParentHash ob));
      try (intros [= <-]; auto; fail);
      destruct (core.GetBlock bc (Block.ParentHash nb));
      try (intros [= <-]; auto; fail); try discriminate.
    apply IH. }
  unfold core.diff. destruct (_ >? _).
  - destruct (core.reduceOld _ _ _ _) as [[ob|]|]; try discriminate.
    + apply Hcommon.
    + intros [= <-]. auto.
  - destruct (core.reduceNew _ _ _ _ _) as [[[nb|] newChain]|]; try discriminate.
    + apply Hcommon.
    + intros [= <-]. auto.
Qed.

Lemma waitNonce_faults (E : core.Env) (chain : list Block.t) (i : nat)
  (nonceDone : list nat) :
  forall (nonceChecked : list bool) (why : core.Fault),
    core.waitNonce E chain i nonceChecked nonceDone = core.NonceFault why ->
    why = core.NonceStarved \/ why = core.IndexOutOfRange.
Proof.
  induction nonceDone as [|r nonceDone IH]; intros nonceChecked why; cbn [core.waitNonce];
    destruct (nonceChecked !! i) as [[|]|]; try discriminate;
    try (intros [= <-]; auto; fail).
  destruct (chain !! r); [|intros [= <-]; auto].
  destruct (core.Verify E _); [apply IH|discriminate].
Qed.

(** Which block an iteration that ends the call hands back: the block
    as it came when the call ends on a nonce result or on the blacklist,
    the stamped block in every other case. *)
Lemma insertBlock_stops (E : core.Env) (fuel : nat) (chain : list Block.t)
  (i : nat) (block : Block.t) (st : core.loopState) :
  match core.insertBlock E fuel chain i block st with
  | core.Stop st' block' out =>
      (invariants.beforeStamping out /\ block' = block) \/
      (~ invariants.beforeStamping out /\ block' = core.stamp (core.bc st) block)
  | _ => True
  end.
Proof.
  unfold core.insertBlock.
  destruct (core.procInterrupt E i); [exact I|].
  destruct (core.waitNonce _ _ _ _ _) as [checked done|r bad|why] eqn:Hwait.
  2: { left. split; [exact I|reflexivity]. }
  2: { destruct (waitNonce_faults _ _ _ _ _ _ Hwait) as [Hwhy|Hwhy]; subst why;
       left; (split; [exact I|reflexivity]). }
  destruct (bool_decide _); [left; split; [exact I|reflexivity]|].
  cbn [core.bc core.withNonces].
  destruct (core.Process E (core.bc st) (core.stamp (core.bc st) block)) as [err|logs].
  - destruct err; cbn [core.IsKnownBlockErr core.IsBlockFutureErr core.IsParentErr andb];
      try exact I; try (right; split; [intros []|reflexivity]).
    + destruct (_ >? _); [|exact I]. right. split; [intros []|reflexivity].
    + destruct (core.BlockCache.Has _ _); [exact I|].
      right. split; [intros []|reflexivity].
  - unfold core.accept. destruct (_ >? 0); [|exact I].
    destruct (negb _); [|exact I]. unfold core.merge.
    destruct (core.diff _ _ _ _) as [[err|newChain]|] eqn:Hdiff; [| exact I |].
    + right. split; [|reflexivity].
      destruct (diff_errors _ _ _ _ _ Hdiff) as [-> | ->]; intros [].
    + right. split; [intros []|reflexivity].
Qed.

Lemma tdRule_same_db (bc bc' : core.ChainManager) :
  core.blockDb bc' = core.blockDb bc -> invariants.tdRule bc -> invariants.tdRule bc'.
Proof.
  intros Hdb Hrule h B P. unfold core.GetBlock. rewrite Hdb. apply Hrule.
Qed.

(** Writing a stamped block keeps the rule when the block is not its own
    parent and no stored block names it as its parent. *)
Lemma tdRule_write (bc bc' : core.ChainManager) (block : Block.t) :
  invariants.tdRule bc ->
  Block.ParentHash block <> Block.Hash block ->
  (forall h B, core.GetBlock bc h = Some B -> Block.ParentHash B <> Block.Hash block) ->
  core.blockDb bc' = <[Block.Hash block := core.stamp bc block]> (core.blockDb bc) ->
  invariants.tdRule bc'.
Proof.
  intros Hrule Hself Hchild Hdb h B P HB HP. unfold core.GetBlock in *.
  rewrite Hdb in HB, HP.
  destruct (decide (h = Block.Hash block)) as [->|Hne].
  - rewrite lookup_insert_eq in HB. injection HB as <-.
    change (Block.ParentHash (core.stamp bc block)) with (Block.ParentHash block) in HP.
    rewrite lookup_insert_ne in HP by congruence.
    unfold core.stamp, core.CalcTD, core.GetBlock. rewrite HP. reflexivity.
  - rewrite lookup_insert_ne in HB by congruence.
    rewrite lookup_insert_ne in HP by (intros Heq; exact (Hchild h B HB (eq_sym Heq))).
    exact (Hrule h B P HB HP).
Qed.

Lemma insertBlock_tdRule (E : core.Env) (fuel : nat) (chain : list Block.t)
  (i : nat) (block : Block.t) (st : core.loopState) :
  (forall logs,
      core.Process E (core.bc st) (core.stamp (core.bc st) block) = inr logs ->
      Block.ParentHash block <> Block.Hash block /\
      forall h B, core.GetBlock (core.bc st) h = Some B ->
                  Block.ParentHash B <> Block.Hash block) ->
  invariants.tdRule (core.bc st) ->
  match core.insertBlock E fuel chain i block st with
  | core.Next st' _ | core.Stop st' _ _ => invariants.tdRule (core.bc st')
  | core.Break => True
  end.
Proof.
  intros Hnew Hrule. unfold core.insertBlock.
  destruct (core.procInterrupt E i); [exact I|].
  destruct (core.waitNonce _ _ _ _ _) as [checked done| |]; try exact Hrule.
  destruct (bool_decide _); [exact Hrule|].
  cbn [core.bc core.withNonces].
  destruct (core.Process E (core.bc st) (core.stamp (core.bc st) block)) as [err|logs].
  - destruct err; cbn [core.IsKnownBlockErr core.IsBlockFutureErr core.IsParentErr andb];
      try exact Hrule.
    + destruct (_ >? _); [exact Hrule|].
      cbn. apply (tdRule_same_db (core.bc st)); [reflexivity|exact Hrule].
    + destruct (core.BlockCache.Has _ _); [|exact Hrule].
      cbn. apply (tdRule_same_db (core.bc st)); [reflexivity|exact Hrule].
  - destruct (Hnew logs eq_refl) as [Hself Hchild].
    unfold core.accept. cbn [core.bc core.withNonces].
    destruct (_ >? 0).
    + destruct (negb _).
      * destruct (core.merge _ _ _ _) as [[err|bc']|] eqn:Hmerge; try exact Hrule.
        destruct (merge_keeps _ _ _ _ _ Hmerge) as (Hdb & _).
        cbn. apply (tdRule_write (core.bc st) _ block Hrule Hself Hchild).
        cbn. rewrite Hdb. reflexivity.
      * cbn. apply (tdRule_write (core.bc st) _ block Hrule Hself Hchild). reflexivity.
    + cbn. apply (tdRule_write (core.bc st) _ block Hrule Hself Hchild). reflexivity.
Qed.

Lemma insertLoop_tdRule (E : core.Env) (fuel : nat) (chain : list Block.t)
  (rest : list Block.t) :
  forall (i : nat) (done : list Block.t) (st : core.loopState),
    (forall k st' done' block rest' logs,
        core.loopAt E fuel chain k i done rest st = Some (st', done', block :: rest') ->
        core.Process E (core.bc st') (core.stamp (core.bc st') block) = inr logs ->
        Block.ParentHash block <> Block.Hash block /\
        forall h B, core.GetBlock (core.bc st') h = Some B ->
                    Block.ParentHash B <> Block.Hash block) ->
    invariants.tdRule (core.bc st) ->
    invariants.tdRule (core.manager (core.insertLoop E fuel chain i done rest st)).
Proof.
  induction rest as [|block rest IH]; intros i done st Hnew Hrule; [exact Hrule|].
  cbn [core.insertLoop].
  pose proof (insertBlock_tdRule E fuel chain i block st
                (fun logs => Hnew 0%nat st done block rest logs eq_refl) Hrule) as Hstep.
  destruct (core.insertBlock E fuel chain i block st) as [st' block'| |st' block' out]
    eqn:Hins; [|exact Hrule|exact Hstep].
  apply IH; [|exact Hstep].
  intros k st0 done0 block0 rest0 logs Hat.
  apply (Hnew (S k) st0 done0 block0 rest0 logs).
  cbn [core.loopAt]. rewrite Hins. exact Hat.
Qed.

(** C2 (amended). In a run of [InsertChain], the block of an iteration
    that gets as far as the stamping carries the stored parent's total
    difficulty plus its own difficulty (no uncle term) when its parent is
    in the database at that moment, and its own difficulty alone when it
    is not.  If the loop goes on, the database is as before or holds the
    block so stamped under its hash; if the call ends there, the block
    comes back as it was when the call ends on a nonce result or on the
    blacklist, and stamped so in every other case.  The rule of the
    database -- a stored block whose parent is stored carries the
    parent's total difficulty plus its own difficulty -- is kept by the
    call when every block the processor accepts is, at that moment, not
    its own parent and not named as parent by a stored block. *)
Theorem InsertChain_stamps_total_difficulty (E : core.Env) (fuel : nat)
  (arrivals : list nat) (self : core.ChainManager) (chain : list Block.t) :
  (forall (k : nat) (st : core.loopState) (done rest : list Block.t) (block : Block.t),
      core.loopAt E fuel chain k 0 [] chain (core.enter arrivals self chain)
      = Some (st, done, block :: rest) ->
      let rule :=
        match core.GetBlock (core.bc st) (Block.ParentHash block) with
        | Some parent => Block.Td parent + Block.Difficulty block
        | None => Block.Difficulty block
        end in
      match core.insertBlock E fuel chain k block st with
      | core.Next st' block' =>
          core.InsertChain E fuel arrivals self chain
          = core.insertLoop E fuel chain (S k) (done ++ [block']) rest st' /\
          Block.header block' = Block.header block /\
          Block.Td block' = rule /\
          (core.blockDb (core.bc st') = core.blockDb (core.bc st) \/
           core.GetBlock (core.bc st') (Block.Hash block) = Some block')
      | core.Stop st' block' out =>
          core.outcome (core.InsertChain E fuel arrivals self chain) = out /\
          core.blocks (core.InsertChain E fuel arrivals self chain)
          = done ++ block' :: rest /\
          ((invariants.beforeStamping out /\ block' = block) \/
           (~ invariants.beforeStamping out /\
            block' = core.stamp (core.bc st) block /\ Block.Td block' = rule))
      | core.Break =>
          core.outcome (core.InsertChain E fuel arrivals self chain)
          = core.Return 0 None
      end) /\
  (invariants.tdRule self ->
   (forall (k : nat) (st : core.loopState) (done rest : list Block.t)
           (block : Block.t) (logs : core.Logs),
       core.loopAt E fuel chain k 0 [] chain (core.enter arrivals self chain)
       = Some (st, done, block :: rest) ->
       core.Process E (core.bc st) (core.stamp (core.bc st) block) = inr logs ->
       Block.ParentHash block <> Block.Hash block /\
       forall h B, core.GetBlock (core.bc st) h = Some B ->
                   Block.ParentHash B <> Block.Hash block) ->
   invariants.tdRule (core.manager (core.InsertChain E fuel arrivals self chain))).
Proof.
  split.
  - intros k st done rest block Hat rule.
    assert (Hrule : Block.Td (core.stamp (core.bc st) block) = rule).
    { unfold rule, core.stamp, core.CalcTD.
      destruct (core.GetBlock _ _); reflexivity. }
    pose proof (insertBlock_stamps E fuel chain k block st) as [Hblock Hdb].
    pose proof (insertBlock_stops E fuel chain k block st) as Hstop.
    unfold core.InsertChain. rewrite (insertLoop_loopAt _ _ _ _ _ _ _ _ _ _ _ Hat).
    rewrite Nat.add_0_r. cbn [core.insertLoop].
    destruct (core.insertBlock E fuel chain k block st) as [st' block'| |st' block' out].
    + split; [reflexivity|]. destruct Hblock as [-> | ->]; auto.
    + reflexivity.
    + split; [reflexivity|]. split; [reflexivity|].
      destruct Hstop as [[Hb ->]|[Hb ->]]; [left; auto|right; auto].
  - intros Hrule Hnew.
    apply (insertLoop_tdRule E fuel chain chain 0 [] (core.enter arrivals self chain));
      [|exact Hrule].
    intros k st done block rest logs. apply Hnew.
Qed.

Lemma store_forall (bc : core.ChainManager) (Q : Block.t -> Prop) :
  Forall (fun hb => Q hb.2) (map_to_list (core.blockDb bc)) ->
  forall h B, core.GetBlock bc h = Some B -> Q B.
Proof.
  intros Hall h B HB. unfold core.GetBlock in HB.
  apply elem_of_map_to_list in HB.
  exact (proj1 (Forall_forall _ _) Hall (h, B) HB).
Qed.

Lemma InsertChain_stamps_total_difficulty_witness :
  let E := sample.env ∅ (fun _ => true) sample.accepting false in
  let chain := [sample.B1; sample.B2; sample.B3] in
  (exists st' block',
      core.insertBlock E 0 chain 0 sample.B1 (core.enter [2; 0; 1]%nat sample.manager chain)
      = core.Next st' block' /\
      Block.Td block' = 131072 + 131073) /\
  invariants.tdRule (core.manager (core.InsertChain E 0 [2; 0; 1]%nat sample.manager chain)).
Proof.
  intros E chain.
  destruct (InsertChain_stamps_total_difficulty E 0 [2; 0; 1]%nat sample.manager chain)
    as [Hstamp Hkeep].
  split.
  - destruct (core.insertBlock E 0 chain 0 sample.B1
                (core.enter [2; 0; 1]%nat sample.manager chain))
      as [st' block'| |] eqn:Hstep; [|vm_compute in Hstep; discriminate..].
    exists st', block'. split; [reflexivity|].
    pose proof (Hstamp 0%nat _ [] [sample.B2; sample.B3] sample.B1 eq_refl) as H.
    cbv zeta in H. rewrite Hstep in H. destruct H as (_ & _ & Htd & _).
    rewrite Htd. reflexivity.
  - apply Hkeep.
    + intros h B P HB HP.
      pose proof (store_forall sample.manager
                    (fun B => core.GetBlock sample.manager (Block.ParentHash B) = None)) as Hs.
      rewrite (Hs ltac:(vm_compute; repeat constructor) h B HB) in HP. discriminate.
    + intros k st done rest block logs Hat _.
      destruct k as [|[|[|k]]].
      * vm_compute in Hat. injection Hat as <- <- <- <-.
        split; [discriminate|].
        apply store_forall. vm_compute. repeat constructor; discriminate.
      * vm_compute in Hat. injection Hat as <- <- <- <-.
        split; [discriminate|].
        apply store_forall. vm_compute. repeat constructor; discriminate.
      * vm_compute in Hat. injection Hat as <- <- <- <-.
        split; [discriminate|].
        apply store_forall. vm_compute. repeat constructor; discriminate.
      * apply loopAt_length in Hat. cbn in Hat. lia.
Defined.

(** C2, as stated, fails for a block whose parent is not in the database
    when it is stamped.  In the first run two future blocks, the second
    the child of the first, are both parked: the first is not stored, so
    the second is stamped with its own difficulty, not with its parent's
    total difficulty plus that.  In the second run the processor accepts
    every block: [O2] comes before its parent [B1] and is stored as a
    side block with its own difficulty as total difficulty; [B1] becomes
    the head; the heavy [O3] on top of [O2] then reorganises the chain.
    Afterwards the database, which kept the rule before the call, holds
    [O2] on the chain of the head with its parent [B1] stored, and
    [O2]'s total difficulty is not [B1]'s plus [O2]'s difficulty. *)
Lemma InsertChain_parent_not_stored :
  (let E := sample.env ∅ (fun _ => true) sample.checking false in
   let r := core.InsertChain E 0 [0; 1]%nat sample.manager [sample.F1; sample.F2] in
   core.outcome r = core.Return 0 None /\
   map Block.header (core.blocks r) = [Block.header sample.F1; Block.header sample.F2] /\
   Block.ParentHash sample.F2 = Block.Hash sample.F1 /\
   core.GetBlock (core.manager r) (Block.Hash sample.F1) = None /\
   map Block.Td (core.blocks r) = [131072 + 131073; 131074] /\
   131074 <> (131072 + 131073) + Block.Difficulty sample.F2) /\
  (let E := sample.env ∅ (fun _ => true) sample.accepting false in
   let r := core.InsertChain E 3 [0; 1; 2]%nat sample.manager
              [sample.O2; sample.B1; sample.O3] in
   invariants.tdRule sample.manager /\
   core.outcome r = core.Return 0 None /\
   Block.Hash (core.currentBlock (core.manager r)) = Block.Hash sample.O3 /\
   core.GetBlockHashesFromHash (core.manager r) (Block.Hash sample.O3) 10
   = [Block.Hash sample.O2; Block.Hash sample.B1; Block.Hash sample.genesis] /\
   Block.Td <$> core.GetBlock (core.manager r) (Block.Hash sample.O2) = Some 10 /\
   Block.Td <$> core.GetBlock (core.manager r) (Block.ParentHash sample.O2)
   = Some (131072 + 131073) /\
   10 <> (131072 + 131073) + Block.Difficulty sample.O2 /\
   ~ invariants.tdRule (core.manager r)).
Proof.
  split; [vm_compute; repeat split; discriminate|].
  intros E r. split.
  { intros h B P HB HP.
    pose proof (store_forall sample.manager
                  (fun B => core.GetBlock sample.manager (Block.ParentHash B) = None)) as Hs.
    rewrite (Hs ltac:(vm_compute; repeat constructor) h B HB) in HP. discriminate. }
  split; [vm_compute; reflexivity|]. split; [vm_compute; reflexivity|].
  split; [vm_compute; reflexivity|]. split; [vm_compute; reflexivity|].
  split; [vm_compute; reflexivity|]. split; [vm_compute; discriminate|].
  intros Hrule.
  destruct (core.GetBlock (core.manager r) 302) as [B|] eqn:HB;
    [|vm_compute in HB; discriminate].
  destruct (core.GetBlock (core.manager r) 101) as [P|] eqn:HP;
    [|vm_compute in HP; discriminate].
  assert (Hpar : Block.ParentHash B = 101%N)
    by (vm_compute in HB; injection HB as <-; reflexivity).
  pose proof (Hrule 302%N B P HB) as H. rewrite Hpar in H. specialize (H HP).
  vm_compute in HB, HP. injection HB as <-. injection HP as <-.
  vm_compute in H. discriminate.
Qed.

(** ** A nonce that does not verify *)

Lemma waitNonce_spec (E : core.Env) (chain : list Block.t) (i : nat) :
  forall done checked,
    match core.waitNonce E chain i checked done with
    | core.NonceReady checked' _ => checked' !! i = Some true
    | core.NonceInvalid r bad =>
        chain !! r = Some bad /\ core.Verify E (Block.header bad) = false
    | core.NonceFault _ => True
    end.
Proof.
  induction done as [|r done IH]; intros checked; cbn.
  - destruct (checked !! i) as [[|]|] eqn:Hc; auto.
  - destruct (checked !! i) as [[|]|] eqn:Hc; auto.
    destruct (chain !! r) as [block|] eqn:Hr; auto.
    destruct (core.Verify E (Block.header block)) eqn:Hv; auto.
    apply IH.
Qed.

Lemma permutation_of_three (arrivals : list nat) :
  arrivals ≡ₚ [0; 1; 2]%nat ->
  arrivals = [0; 1; 2]%nat \/ arrivals = [0; 2; 1]%nat \/
  arrivals = [2; 0; 1]%nat \/ arrivals = [1; 0; 2]%nat \/
  arrivals = [1; 2; 0]%nat \/ arrivals = [2; 1; 0]%nat.
Proof.
  intros H.
  assert (Hlen := Permutation_length H).
  destruct arrivals as [|a [|b [|c [|]]]]; try discriminate.
  assert (Hnd : NoDup [a; b; c]).
  { rewrite H. repeat constructor; rewrite ?elem_of_cons, ?elem_of_nil; lia. }
  assert (Ha : a ∈ [0; 1; 2]%nat) by (rewrite <- H; repeat constructor).
  assert (Hb : b ∈ [0; 1; 2]%nat) by (rewrite <- H; repeat constructor).
  assert (Hc : c ∈ [0; 1; 2]%nat) by (rewrite <- H; repeat constructor).
  apply NoDup_cons in Hnd as [Hab Hnd]. apply NoDup_cons in Hnd as [Hbc _].
  clear H Hlen. rewrite !elem_of_cons, ?elem_of_nil in *.
  destruct_or!; subst; try (exfalso; lia); auto 10.
Qed.

Section BadNonce.

Variable E : core.Env.
Variable fuel : nat.
Variable self : core.ChainManager.
Variables B1 B2 B3 : Block.t.

Hypothesis not_interrupted : forall i, core.procInterrupt E i = false.
Hypothesis B1_verifies : core.Verify E (Block.header B1) = true.
Hypothesis B2_fails : core.Verify E (Block.header B2) = false.
Hypothesis B3_verifies : core.Verify E (Block.header B3) = true.

(** The failing result arrives before the first block's: nothing is
    imported. *)
Lemma bad_nonce_first (arrivals : list nat) :
  arrivals = [1; 0; 2]%nat \/ arrivals = [1; 2; 0]%nat \/ arrivals = [2; 1; 0]%nat ->
  core.InsertChain E fuel arrivals self [B1; B2; B3]
  = {| core.manager := self; core.blocks := [B1; B2; B3];
       core.outcome :=
         core.Return 1 (Some (core.BlockNonceErr (Block.Hash B2) (Block.Number B2)
                                (Block.Nonce B2)));
       core.posted := None |}.
Proof.
  intros [-> | [-> | ->]]; unfold core.InsertChain, core.enter;
    cbn [core.insertLoop]; unfold core.insertBlock; rewrite not_interrupted; cbn;
    rewrite ?B1_verifies, ?B2_fails, ?B3_verifies; cbn;
    rewrite ?B1_verifies, ?B2_fails, ?B3_verifies; reflexivity.
Qed.

Hypothesis B1_not_bad : Block.Hash B1 ∉ core.BadHashes E.
Hypothesis B1_extends : Block.ParentHash B1 = Block.Hash (core.currentBlock self).

Hypothesis B1_processed : exists logs, core.Process E self (core.stamp self B1) = inr logs.
Hypothesis B1_heavier : core.td self < Block.Td (core.stamp self B1).

(** The first block's result arrives before the failing one: the first
    block is imported, then the call fails. *)
Lemma bad_nonce_second (arrivals : list nat) :
  arrivals = [0; 1; 2]%nat \/ arrivals = [0; 2; 1]%nat \/ arrivals = [2; 0; 1]%nat ->
  let r := core.InsertChain E fuel arrivals self [B1; B2; B3] in
  core.outcome r
  = core.Return 1 (Some (core.BlockNonceErr (Block.Hash B2) (Block.Number B2)
                           (Block.Nonce B2))) /\
  core.currentBlock (core.manager r) = (core.stamp self B1) /\
  core.td (core.manager r) = Block.Td (core.stamp self B1) /\
  core.blocks r = [(core.stamp self B1); B2; B3].
Proof.
  destruct B1_processed as [logs Hlogs].
  intros [-> | [-> | ->]]; unfold core.InsertChain, core.enter;
    cbn [core.insertLoop]; unfold core.insertBlock; rewrite !not_interrupted; cbn;
    rewrite ?B1_verifies, ?B2_fails, ?B3_verifies; cbn;
    rewrite ?B1_verifies, ?B2_fails, ?B3_verifies;
    rewrite bool_decide_eq_false_2 by exact B1_not_bad;
    cbn [core.bc core.withNonces]; fold (core.stamp self B1); rewrite Hlogs;
    unfold core.accept; cbn [core.bc core.withNonces];
    rewrite big_Cmp_gt; unfold core.Td;
    (destruct (Z.gtb_spec (Block.Td (core.stamp self B1)) (core.td self)) as [_|?]; [|lia]);
    replace (Block.ParentHash (core.stamp self B1)) with (Block.ParentHash B1) by reflexivity;
    rewrite B1_extends, N.eqb_refl; cbn [negb].
  all: cbn [core.insertLoop]; unfold core.insertBlock; rewrite ?not_interrupted.
  all: cbn; rewrite ?B1_verifies, ?B2_fails, ?B3_verifies; cbn;
    rewrite ?B1_verifies, ?B2_fails, ?B3_verifies; cbn.
  all: rewrite B1_extends; auto.
Qed.

End BadNonce.




(** ** Future blocks *)

Lemma BlockCache_Has_Push (b : Block.t) (c : core.BlockCache.t) :
  core.BlockCache.Has (Block.Hash b) (core.BlockCache.Push b c) = true.
Proof.
  unfold core.BlockCache.Has, core.BlockCache.Push. cbn.
  destruct (_ <=? _)%nat; rewrite existsb_app; cbn;
    rewrite N.eqb_refl; apply orb_true_iff; right; reflexivity.
Qed.

(** C5 (amended). The processor answers [BlockFutureErr] for the block
    at index [i] (the flag is not set, the nonce has been seen, the hash
    is not blacklisted).  The block's timestamp is below 2^63 and the
    clock plus 30 seconds fits a signed 64-bit integer.  If the timestamp
    is beyond the clock plus 30 seconds the call returns [(i, error)];
    otherwise the block is marked queued and pushed into the future-block
    cache, and the loop goes on with the next block, the head and the
    total difficulty being as before. *)
Theorem InsertChain_future_block (E : core.Env) (fuel : nat)
  (chain : list Block.t) (i : nat) (done rest : list Block.t) (block : Block.t)
  (st : core.loopState) (checked : list bool) (pending : list nat) :
  core.procInterrupt E i = false ->
  core.waitNonce E chain i (core.nonceChecked st) (core.nonceDone st)
  = core.NonceReady checked pending ->
  Block.Hash block ∉ core.BadHashes E ->
  let stamped :=
    core.stamp (core.bc st) block in
  core.Process E (core.bc st) stamped = inl core.BlockFutureErr ->
  0 <= Header.Time (Block.header block) < 2 ^ 63 ->
  - 2 ^ 63 <= core.Now E i + core.maxTimeFutureBlocks < 2 ^ 63 ->
  if Header.Time (Block.header block) >? core.Now E i + core.maxTimeFutureBlocks
  then
    core.insertLoop E fuel chain i done (block :: rest) st
    = {| core.manager := core.bc st; core.blocks := done ++ stamped :: rest;
         core.outcome :=
           core.Return i
             (Some (core.FutureTooFarErr (Header.Time (Block.header block))
                      (core.Now E i + core.maxTimeFutureBlocks)));
         core.posted := None |}
  else
    let parked := Block.SetQueued true stamped in
    let bc' :=
      core.setFutureBlocks
        (core.BlockCache.Push parked (core.futureBlocks (core.bc st))) (core.bc st) in
    core.insertLoop E fuel chain i done (block :: rest) st
    = core.insertLoop E fuel chain (S i) (done ++ [parked]) rest
        (core.withBc bc' (core.withNonces checked pending st)) /\
    Block.queued parked = true /\
    core.BlockCache.Has (Block.Hash block) (core.futureBlocks bc') = true /\
    core.currentBlock bc' = core.currentBlock (core.bc st) /\
    core.td bc' = core.td (core.bc st) /\
    core.blockDb bc' = core.blockDb (core.bc st) /\
    core.numDb bc' = core.numDb (core.bc st).
Proof.
  intros Hint Hwait Hbad stamped Hproc Htime Hnow.
  cbn [core.insertLoop]. unfold core.insertBlock.
  rewrite Hint, Hwait, (bool_decide_eq_false_2 _ Hbad).
  cbn [core.bc core.withNonces]. fold stamped. rewrite Hproc.
  cbn [core.IsKnownBlockErr core.IsBlockFutureErr].
  rewrite (int64_small _ Hnow).
  replace (Block.Time stamped) with (Header.Time (Block.header block))
    by (unfold Block.Time; cbn; symmetry; apply int64_small; lia).
  destruct (Header.Time (Block.header block) >? core.Now E i + core.maxTimeFutureBlocks).
  - reflexivity.
  - cbn zeta. unfold core.park. cbn [core.bc core.withNonces].
    split; [reflexivity|]. split; [reflexivity|].
    split; [apply (BlockCache_Has_Push (Block.SetQueued true stamped))|].
    repeat split.
Qed.

Lemma InsertChain_future_block_witness :
  let E := sample.env ∅ (fun _ => true) sample.checking false in
  let r := core.InsertChain E 0 [0]%nat sample.manager [sample.F1] in
  core.outcome r = core.Return 0 None /\
  core.BlockCache.Has 201 (core.futureBlocks (core.manager r)) = true /\
  core.currentBlock (core.manager r) = sample.genesis.
Proof.
  intros E r.
  pose proof (InsertChain_future_block E 0 [sample.F1] 0 [] [] sample.F1
                (core.enter [0]%nat sample.manager [sample.F1]) [true] []
                eq_refl eq_refl (not_elem_of_empty _) eq_refl) as H.
  assert (Htime : 0 <= Header.Time (Block.header sample.F1) < 2 ^ 63)
    by (vm_compute; split; [discriminate|reflexivity]).
  assert (Hnow : - 2 ^ 63 <= core.Now E 0 + core.maxTimeFutureBlocks < 2 ^ 63)
    by (vm_compute; split; [discriminate|reflexivity]).
  specialize (H Htime Hnow).
  change (Header.Time (Block.header sample.F1)
          >? core.Now E 0 + core.maxTimeFutureBlocks)
    with false in H.
  cbv zeta in H. destruct H as (Hloop & _ & Hhas & Hcur & _).
  unfold r, core.InsertChain. rewrite Hloop.
  split; [reflexivity|]. split; [exact Hhas|]. exact Hcur.
Defined.

(** C5, as stated, fails for a timestamp of 2^63 or more: the code
    compares [block.Time()], the timestamp read as a signed 64-bit
    integer.  The first block below has the timestamp 2^63 + 5, far
    beyond the clock (1000) plus 30 seconds; the processor answers
    [BlockFutureErr]; the block is parked and the call returns
    [(0, nil)].  The sum of the clock and the 30 seconds is a signed
    64-bit integer too: with the clock at 2^63 - 10 the second block,
    whose timestamp 5 is not beyond the clock plus 30 seconds, ends the
    call with [(0, error)]. *)
Lemma InsertChain_future_block_wraps :
  (let E := sample.env ∅ (fun _ => true) (fun _ _ => inl core.BlockFutureErr) false in
   let block := sample.block 100 1 (2 ^ 63 + 5) 131073 201 0 in
   let r := core.InsertChain E 0 [0]%nat sample.manager [block] in
   Header.wf (Block.header block) /\
   core.Now E 0 + core.maxTimeFutureBlocks < Header.Time (Block.header block) /\
   core.outcome r = core.Return 0 None /\
   core.BlockCache.Has 201 (core.futureBlocks (core.manager r)) = true /\
   map Block.queued (core.blocks r) = [true]) /\
  (let E :=
     {| core.BadHashes := ∅; core.Verify := fun _ => true;
        core.Process := fun _ _ => inl core.BlockFutureErr;
        core.procInterrupt := fun _ => false; core.Now := fun _ => 2 ^ 63 - 10 |} in
   let block := sample.block 100 1 5 131073 201 0 in
   let r := core.InsertChain E 0 [0]%nat sample.manager [block] in
   Header.wf (Block.header block) /\
   Header.Time (Block.header block) <= core.Now E 0 + core.maxTimeFutureBlocks /\
   core.outcome r
   = core.Return 0 (Some (core.FutureTooFarErr 5 (- 2 ^ 63 + 20))) /\
   core.futureBlocks (core.manager r) = core.futureBlocks sample.manager).
Proof.
  split; vm_compute; repeat split; discriminate.
Qed.

(** ** Hashes along the canonical chain *)

Lemma hashesFrom_canonical (bc : core.ChainManager) (cs : list Block.t) :
  chains.canonical bc cs ->
  forall (k : nat) (block : Block.t),
    cs !! k = Some block ->
    core.hashesFrom bc k block = rev (map Block.Hash (take k cs)).
Proof.
  intros [_ Hcs]. induction k as [|m IH]; intros block Hk; [reflexivity|].
  destruct (Hcs _ _ Hk) as (_ & _ & _ & p & Hp & Hparent).
  destruct (Hcs _ _ Hp) as (Hnum & Hget & _ & _).
  cbn [core.hashesFrom]. rewrite Hparent, Hget, big_Cmp_le, Hnum.
  rewrite (take_S_r _ _ _ Hp), map_app, rev_app_distr. cbn [map rev app].
  f_equal. destruct (Z.leb_spec (Z.of_nat m) 0) as [Hm|Hm].
  - assert (m = 0%nat) as -> by lia. reflexivity.
  - apply IH. exact Hp.
Qed.

(** C9 (amended). Along the canonical chain, for every block number [n]
    below the head's (the head's number being below 2^63),
    [GetBlockByNumber(n)] is the block whose hash is element [n] of the
    reversal of [GetBlockHashesFromHash(head, head.number)]; that walk
    collects the hashes of the ancestors, the parent first, and stops at
    the genesis block or after [max] hashes. *)
Theorem hashes_from_head_by_number (bc : core.ChainManager)
  (cs : list Block.t) (n : nat) :
  chains.canonical bc cs ->
  Block.Number (core.currentBlock bc) < 2 ^ 63 ->
  Z.of_nat n < Block.Number (core.currentBlock bc) ->
  exists b,
    core.GetBlockByNumber bc (Z.of_nat n) = Some b /\
    rev (core.GetBlockHashesFromHash bc (Block.Hash (core.currentBlock bc))
           (Block.Number (core.currentBlock bc))) !! n
    = Some (Block.Hash b).
Proof.
  intros Hcan Hsmall Hn. pose proof Hcan as [Hlast Hcs].
  apply last_Some in Hlast as [cs' ->].
  assert (Hhead : (cs' ++ [core.currentBlock bc]) !! length cs'
                  = Some (core.currentBlock bc)).
  { rewrite lookup_app_r, Nat.sub_diag by lia. reflexivity. }
  destruct (Hcs _ _ Hhead) as (Hnum & Hget & _ & _).
  rewrite Hnum in Hn, Hsmall |- *.
  assert (Hlt : (n < length cs')%nat) by lia.
  destruct (lookup_lt_is_Some_2 cs' n Hlt) as [b Hb].
  assert (Hb' : (cs' ++ [core.currentBlock bc]) !! n = Some b)
    by (rewrite lookup_app_l by lia; exact Hb).
  destruct (Hcs _ _ Hb') as (_ & Hgetb & Hidx & _).
  exists b. split.
  - unfold core.GetBlockByNumber, core.getBlockByNumber, big.Bytes.
    rewrite int64_small by lia. rewrite Z.abs_eq by lia. rewrite Hidx. exact Hgetb.
  - unfold core.GetBlockHashesFromHash. rewrite Hget, Nat2Z.id.
    rewrite (hashesFrom_canonical _ _ Hcan _ _ Hhead), rev_involutive.
    rewrite take_app_length, list_lookup_fmap, Hb. reflexivity.
Qed.

Lemma canonical_manager1 :
  chains.canonical sample.manager1
    [sample.genesis; core.currentBlock sample.manager1].
Proof.
  split; [reflexivity|].
  intros [|[|n]] b; cbn; intros [= <-]; vm_compute; repeat split.
  eexists. split; reflexivity.
Qed.

Lemma hashes_from_head_by_number_witness :
  exists b,
    core.GetBlockByNumber sample.manager1 0 = Some b /\
    rev (core.GetBlockHashesFromHash sample.manager1 101 1) !! 0%nat
    = Some (Block.Hash b).
Proof.
  apply (hashes_from_head_by_number sample.manager1 _ 0 canonical_manager1).
  - reflexivity.
  - reflexivity.
Defined.

(** C9, as stated, fails at the head's own number: the walk starts at
    the head's parent, so the reversed list has [head.number] elements
    and none at index [head.number]. *)
Lemma hashes_from_head_miss_the_head :
  chains.canonical sample.manager1
    [sample.genesis; core.currentBlock sample.manager1] /\
  Block.Number (core.currentBlock sample.manager1) = 1 /\
  Block.Hash <$> core.GetBlockByNumber sample.manager1 1 = Some 101%N /\
  core.GetBlockHashesFromHash sample.manager1 101 1 = [100%N] /\
  rev (core.GetBlockHashesFromHash sample.manager1 101 1) !! 1%nat = None.
Proof.
  split; [exact canonical_manager1|]. vm_compute. repeat split.
Qed.

(** ** The banned set of the downloader *)

Section Banned.

Variable BadHashes : gset N.
Variable each : gset N -> list N.

Hypothesis few_bad_hashes : (size BadHashes <= downloader.maxBannedHashes)%nat.
Hypothesis each_walks_the_set : forall s, each s ≡ₚ elements s.

Local Abbreviation bannedInv := (invariants.bannedInv BadHashes).

Lemma New_banned :
  downloader.banned (downloader.New BadHashes) = BadHashes.
Proof.
  unfold downloader.New. cbn.
  apply (set_fold_ind_L (fun r X => r = X)); [reflexivity|].
  intros x X r _ ->. reflexivity.
Qed.

Lemma evacuee_not_hard_coded (banned : gset N) :
  BadHashes ⊆ banned ->
  (size BadHashes < size banned)%nat ->
  downloader.evacuee BadHashes each banned ∈ banned /\
  downloader.evacuee BadHashes each banned ∉ BadHashes.
Proof.
  intros Hsub Hsize. unfold downloader.evacuee.
  destruct (find _ (each banned)) as [item|] eqn:Hfind.
  - apply find_some in Hfind as [Hin Hnot].
    apply list_elem_of_In in Hin. rewrite each_walks_the_set in Hin.
    apply elem_of_elements in Hin. split; [exact Hin|].
    apply negb_true_iff, bool_decide_eq_false in Hnot. exact Hnot.
  - exfalso. assert (banned ⊆ BadHashes) as Hsup.
    { intros x Hx. destruct (decide (x ∈ BadHashes)) as [|Hnin]; [done|].
      assert (In x (each banned)) as Hx'.
      { apply list_elem_of_In. rewrite each_walks_the_set.
        apply elem_of_elements. exact Hx. }
      pose proof (find_none _ _ Hfind x Hx') as Hnone. cbn beta in Hnone.
      rewrite bool_decide_eq_false_2 in Hnone by exact Hnin.
      discriminate Hnone. }
    apply subseteq_size in Hsup. lia.
Qed.

(** The eviction loop ends, keeps the hard-coded hashes and restores the
    bound. *)
Lemma phaseOut_restores (fuel : nat) :
  forall banned : gset N,
    BadHashes ⊆ banned ->
    (size banned <= downloader.maxBannedHashes + fuel)%nat ->
    exists banned',
      downloader.phaseOut BadHashes each fuel banned = Some banned' /\
      BadHashes ⊆ banned' /\ banned' ⊆ banned /\
      (size banned' <= downloader.maxBannedHashes)%nat.
Proof.
  induction fuel as [|fuel IH]; intros banned Hsub Hsize.
  - exists banned. cbn [downloader.phaseOut].
    destruct (Nat.ltb_spec downloader.maxBannedHashes (size banned)); [lia|].
    repeat split; auto.
  - cbn [downloader.phaseOut].
    destruct (Nat.ltb_spec downloader.maxBannedHashes (size banned)) as [Hover|Hok].
    + destruct (evacuee_not_hard_coded banned Hsub) as [Hin Hnot]; [lia|].
      set (item := downloader.evacuee BadHashes each banned) in *.
      destruct (IH (banned ∖ {[item]})) as (banned' & Hrun & Hsub' & Hsup' & Hsize').
      * intros x Hx. apply elem_of_difference. split; [apply Hsub; exact Hx|].
        rewrite elem_of_singleton. intros ->. exact (Hnot Hx).
      * rewrite size_difference, size_singleton
          by (apply singleton_subseteq_l; exact Hin).
        lia.
      * exists banned'. repeat split; auto.
        intros x Hx. apply Hsup' in Hx. apply elem_of_difference in Hx. tauto.
    + exists banned. repeat split; auto.
Qed.

Lemma banLoop_banned (fuel : nat) (peerId : string) (head : common.Hash)
  (events : list downloader.banEvent) :
  (0 < fuel)%nat ->
  forall d : downloader.Downloader,
    bannedInv d ->
    let r := downloader.banLoop BadHashes each fuel peerId head events d in
    bannedInv (fst r) /\ snd r <> downloader.BanEvicting /\
    forall h, h ∈ downloader.banned d -> h ∉ downloader.banned (fst r) ->
              h ∉ BadHashes.
Proof.
  intros Hfuel. induction events as [|ev events IH]; intros d Hinv.
  - cbn. repeat split; try apply Hinv; try discriminate. tauto.
  - destruct ev as [| | |pack]; cbn [downloader.banLoop].
    + cbn. repeat split; try apply Hinv; try discriminate. tauto.
    + cbn. repeat split; try apply Hinv; try discriminate. tauto.
    + apply IH. exact Hinv.
    + destruct (downloader.staleCrossCheck _ d) as [d'|] eqn:Hstale.
      { assert (downloader.banned d' = downloader.banned d) as Hsame.
        { unfold downloader.staleCrossCheck in Hstale.
          destruct (downloader.blockPack.blocks pack) as [|b [|]]; try discriminate.
          destruct (_ !! _); [|discriminate]. by inversion Hstale. }
        rewrite <- Hsame. apply IH. unfold invariants.bannedInv. rewrite Hsame. exact Hinv. }
      destruct (negb _); [apply IH; exact Hinv|].
      destruct (downloader.sortByNumber _) as [|first rest].
      { cbn. repeat split; try apply Hinv; try discriminate. tauto. }
      destruct (negb _).
      { cbn. repeat split; try apply Hinv; try discriminate. tauto. }
      destruct Hinv as [Hsub Hsize].
      set (banned := {[_]} ∪ downloader.banned d).
      destruct (phaseOut_restores fuel banned) as (banned' & Hrun & Hsub' & _ & Hsize').
      * set_solver.
      * pose proof (size_union_alt {[Block.Hash (downloader.lastLinked first rest)]}
                      (downloader.banned d)) as Hu.
        fold banned in Hu. rewrite size_singleton in Hu.
        assert (size (downloader.banned d ∖ {[Block.Hash (downloader.lastLinked first rest)]})
                <= size (downloader.banned d))%nat
          by (apply subseteq_size; set_solver).
        lia.
      * rewrite Hrun. cbn [fst snd downloader.banned downloader.withBanned].
        split; [split; assumption|]. split; [discriminate|].
        intros h _ Hnot Hbad. apply Hnot. apply Hsub'. exact Hbad.
Qed.

Variable Reserve :
  downloader.queue.t -> downloader.peer.t -> nat
  -> option (list common.Hash * downloader.queue.t).
Variable Fetch : downloader.peer.t -> list common.Hash -> option downloader.Err.

Lemma banBlocks_banned (fuel : nat) (peerId : string) (head : common.Hash)
  (events : list downloader.banEvent) (d : downloader.Downloader) :
  (0 < fuel)%nat ->
  bannedInv d ->
  let r := downloader.banBlocks BadHashes Reserve Fetch each fuel peerId head
             events d in
  bannedInv (fst r) /\ snd r <> downloader.BanEvicting /\
  forall h, h ∈ downloader.banned d -> h ∉ downloader.banned (fst r) ->
            h ∉ BadHashes.
Proof.
  intros Hfuel Hinv. unfold downloader.banBlocks.
  destruct (downloader.Peer peerId d) as [peer|].
  2: { cbn. repeat split; try apply Hinv; try discriminate. tauto. }
  destruct (Reserve _ _ _) as [[request q]|].
  2: { cbn. repeat split; try apply Hinv; try discriminate. tauto. }
  destruct (Fetch peer request).
  { cbn. repeat split; try apply Hinv; try discriminate. tauto. }
  apply (banLoop_banned fuel peerId head events Hfuel (downloader.withQueue q d)).
  exact Hinv.
Qed.

Variable hasBlock : common.Hash -> bool.
Variable getBlock : common.Hash -> option Block.t.

(** The handlers of [fetchHashes] touch the banned set through
    [banBlocks] only. *)
Local Abbreviation stepKeeps := (invariants.stepKeeps BadHashes).
Local Abbreviation resultKeeps := (invariants.resultKeeps BadHashes).

Lemma handle_banned (fuel : nat) (ev : downloader.fetchEvent)
  (st : downloader.fetchState) :
  (0 < fuel)%nat ->
  bannedInv (downloader.d st) ->
  stepKeeps (downloader.handle BadHashes hasBlock getBlock Reserve Fetch each
               fuel ev st).
Proof.
  intros Hfuel Hinv. destruct ev as [|pack rnd now ban|pack|now|]; cbn [downloader.handle].
  - exact Hinv.
  - unfold downloader.onHashes.
    destruct (negb _); [exact Hinv|].
    destruct (_ =? _)%nat; [exact Hinv|].
    destruct (downloader.findBanned _ _ _) as [[index hash]|].
    + destruct (downloader.queue.Insert _ _) as [inserts q].
      pose proof (banBlocks_banned fuel (downloader.peer.id (downloader.active st))
                    hash ban (downloader.withQueue q (downloader.d st)) Hfuel Hinv)
        as (Hinv' & _ & _).
      destruct (downloader.banBlocks _ _ _ _ _ _ _ _ _) as [d' [err| |]]; exact Hinv'.
    + destruct (downloader.scanKnown _ _ _) as [[hashes done] head].
      destruct (downloader.queue.Insert _ _) as [inserts q].
      destruct (_ && _); [exact Hinv|].
      destruct (negb done); [|exact Hinv].
      destruct (_ <? _); [exact Hinv|].
      destruct (downloader.crossSelect _ _) as [[origin parent]|]; [exact Hinv|exact I].
  - unfold downloader.onBlocks.
    destruct (negb _); [exact Hinv|].
    destruct (downloader.blockPack.blocks pack) as [|block [|]]; try exact Hinv.
    destruct (_ !! _); [|exact Hinv].
    destruct (negb _); exact Hinv.
  - unfold downloader.onCrossTick. destruct (existsb _ _); exact Hinv.
  - unfold downloader.onTimeout. destruct (find _ _); [|exact Hinv].
    destruct (_ =? _)%N; exact Hinv.
Qed.


Lemma fetchLoop_banned (fuel : nat) (events : list downloader.fetchEvent) :
  (0 < fuel)%nat ->
  forall st, bannedInv (downloader.d st) ->
    resultKeeps (downloader.fetchLoop BadHashes hasBlock getBlock Reserve Fetch
                   each fuel events st).
Proof.
  intros Hfuel. induction events as [|ev events IH]; intros st Hinv; [exact Hinv|].
  cbn [downloader.fetchLoop].
  pose proof (handle_banned fuel ev st Hfuel Hinv) as Hstep.
  destruct (downloader.handle _ _ _ _ _ _ _ _ _); cbn in Hstep |- *; auto.
Qed.

End Banned.



(** ** The cross check of a hash delivery *)

Lemma crossSelect_in_bounds (rnd : nat) (inserts : list common.Hash) :
  downloader.MinHashFetch <= Z.of_nat (length inserts) ->
  exists cross origin parent,
    downloader.Intn rnd (Z.of_nat (length inserts) - 1) = Some cross /\
    0 <= cross < Z.of_nat (length inserts) - 1 /\
    inserts !! Z.to_nat cross = Some origin /\
    inserts !! Z.to_nat (cross + 1) = Some parent /\
    downloader.crossSelect rnd inserts = Some (origin, parent).
Proof.
  unfold downloader.MinHashFetch. intros Hmin.
  unfold downloader.crossSelect, downloader.Intn.
  destruct (Z.leb_spec (Z.of_nat (length inserts) - 1) 0) as [?|Hpos]; [lia|].
  set (cross := Z.of_nat rnd mod (Z.of_nat (length inserts) - 1)).
  assert (Hcross : 0 <= cross < Z.of_nat (length inserts) - 1)
    by (apply Z.mod_pos_bound; lia).
  destruct (lookup_lt_is_Some_2 inserts (Z.to_nat cross)) as [origin Ho]; [lia|].
  destruct (lookup_lt_is_Some_2 inserts (Z.to_nat (cross + 1))) as [parent Hp]; [lia|].
  exists cross, origin, parent. rewrite Ho, Hp. auto.
Qed.

Section NoPanic.

Variable BadHashes : gset N.
Variable hasBlock : common.Hash -> bool.
Variable getBlock : common.Hash -> option Block.t.
Variable Reserve :
  downloader.queue.t -> downloader.peer.t -> nat
  -> option (list common.Hash * downloader.queue.t).
Variable Fetch : downloader.peer.t -> list common.Hash -> option downloader.Err.
Variable each : gset N -> list N.

Lemma onHashes_no_panic (fuel : nat) (pack : downloader.hashPack.t) (rnd : nat)
  (now : Z) (ban : list downloader.banEvent) (st : downloader.fetchState) :
  downloader.onHashes BadHashes hasBlock getBlock Reserve Fetch each fuel pack
    rnd now ban st <> downloader.Panic.
Proof.
  unfold downloader.onHashes.
  destruct (negb _); [discriminate|].
  destruct (_ =? _)%nat; [discriminate|].
  destruct (downloader.findBanned _ _ _) as [[index hash]|].
  - destruct (downloader.queue.Insert _ _) as [inserts q].
    destruct (downloader.banBlocks _ _ _ _ _ _ _ _ _) as [d' [err| |]]; discriminate.
  - destruct (downloader.scanKnown _ _ _) as [[hashes done] head].
    destruct (downloader.queue.Insert _ _) as [inserts q].
    destruct (_ && _); [discriminate|].
    destruct (negb done); [|discriminate].
    destruct (Z.ltb_spec (Z.of_nat (length inserts)) downloader.MinHashFetch)
      as [|Hmin]; [discriminate|].
    destruct (crossSelect_in_bounds rnd inserts Hmin)
      as (cross & origin & parent & _ & _ & _ & _ & Hsel).
    rewrite Hsel. discriminate.
Qed.

Lemma handle_no_panic (fuel : nat) (ev : downloader.fetchEvent)
  (st : downloader.fetchState) :
  downloader.handle BadHashes hasBlock getBlock Reserve Fetch each fuel ev st
  <> downloader.Panic.
Proof.
  destruct ev as [|pack rnd now ban|pack|now|]; cbn [downloader.handle].
  - discriminate.
  - apply onHashes_no_panic.
  - unfold downloader.onBlocks.
    destruct (negb _); [discriminate|].
    destruct (downloader.blockPack.blocks pack) as [|block [|]]; try discriminate.
    destruct (_ !! _); [|discriminate].
    destruct (negb _); discriminate.
  - unfold downloader.onCrossTick. destruct (existsb _ _); discriminate.
  - unfold downloader.onTimeout. destruct (find _ _); [|discriminate].
    destruct (_ =? _)%N; discriminate.
Qed.

Lemma fetchLoop_no_panic (fuel : nat) (events : list downloader.fetchEvent) :
  forall st,
    downloader.fetchLoop BadHashes hasBlock getBlock Reserve Fetch each fuel
      events st <> downloader.FetchPanic.
Proof.
  induction events as [|ev events IH]; intros st; [discriminate|].
  cbn [downloader.fetchLoop].
  pose proof (handle_no_panic fuel ev st) as Hstep.
  destruct (downloader.handle _ _ _ _ _ _ _ _ _); try discriminate; auto.
Qed.

End NoPanic.

(** C10. A cross check is chosen only among at least [MinHashFetch]
    (512) new hashes: [rand.Intn] gets a positive bound, the index drawn
    is below [len(inserts) - 1], and [inserts[cross]] and
    [inserts[cross+1]] exist.  No hash delivery, no event and no run of
    [fetchHashes] ends in a panic. *)
Theorem cross_check_in_bounds :
  downloader.MinHashFetch = 512 /\
  (forall (rnd : nat) (inserts : list common.Hash),
      downloader.MinHashFetch <= Z.of_nat (length inserts) ->
      exists cross origin parent,
        downloader.Intn rnd (Z.of_nat (length inserts) - 1) = Some cross /\
        0 <= cross < Z.of_nat (length inserts) - 1 /\
        inserts !! Z.to_nat cross = Some origin /\
        inserts !! Z.to_nat (cross + 1) = Some parent /\
        downloader.crossSelect rnd inserts = Some (origin, parent)) /\
  (forall BadHashes hasBlock getBlock Reserve Fetch each fuel pack rnd now ban st,
      downloader.onHashes BadHashes hasBlock getBlock Reserve Fetch each fuel
        pack rnd now ban st <> downloader.Panic) /\
  (forall BadHashes hasBlock getBlock Reserve Fetch each fuel p h events self,
      downloader.fetchHashes BadHashes hasBlock getBlock Reserve Fetch each fuel
        p h events self <> downloader.FetchPanic).
Proof.
  split; [reflexivity|]. split; [exact crossSelect_in_bounds|]. split.
  - intros. apply onHashes_no_panic.
  - intros. apply fetchLoop_no_panic.
Qed.

Lemma cross_check_in_bounds_witness :
  downloader.crossSelect 1000 (map N.of_nat (seq 1000 512))
  = Some (1489%N, 1490%N).
Proof.
  destruct (proj1 (proj2 cross_check_in_bounds) 1000%nat
              (map N.of_nat (seq 1000 512)))
    as (cross & origin & parent & _ & _ & _ & _ & Hsel).
  - vm_compute. discriminate.
  - rewrite Hsel. vm_compute in Hsel. exact (eq_sym Hsel).
Defined.

(** ** The hash-request timeout *)

Lemma onTimeout_spec (st : downloader.fetchState) :
  match downloader.onTimeout st with
  | downloader.Fail st' err =>
      st' = st /\ err = downloader.ErrTimeout /\
      (downloader.head st = common.zeroHash \/
       (forall p, p ∈ downloader.peers (downloader.d st) ->
                  downloader.eligible st p = false))
  | downloader.Continue st' =>
      downloader.head st <> common.zeroHash /\
      exists p,
        find (downloader.eligible st) (downloader.peers (downloader.d st)) = Some p /\
        p ∈ downloader.peers (downloader.d st) /\
        downloader.queue.Has (downloader.peer.head p)
          (downloader.queue (downloader.d st)) = true /\
        (downloader.peer.id p ∉ downloader.attempted st) /\
        st' = downloader.getHashes (downloader.head st) (downloader.withActive p st)
  | _ => False
  end.
Proof.
  unfold downloader.onTimeout.
  destruct (find _ _) as [p|] eqn:Hfind.
  - destruct (N.eqb_spec (downloader.head st) common.zeroHash) as [Hz|Hnz].
    + auto.
    + split; [exact Hnz|]. exists p. apply find_some in Hfind as [Hin Hel].
      apply list_elem_of_In in Hin. unfold downloader.eligible in Hel.
      apply andb_true_iff in Hel as [Hhas Hatt].
      apply negb_true_iff, bool_decide_eq_false in Hatt. auto.
  - split; [reflexivity|]. split; [reflexivity|]. right. intros p Hp.
    apply (find_none _ _ Hfind). apply list_elem_of_In. exact Hp.
Qed.

Section Attempted.

Variable BadHashes : gset N.
Variable hasBlock : common.Hash -> bool.
Variable getBlock : common.Hash -> option Block.t.
Variable Reserve :
  downloader.queue.t -> downloader.peer.t -> nat
  -> option (list common.Hash * downloader.queue.t).
Variable Fetch : downloader.peer.t -> list common.Hash -> option downloader.Err.
Variable each : gset N -> list N.

(** No handler marks a peer attempted or clears a mark. *)
Lemma handle_attempted (fuel : nat) (ev : downloader.fetchEvent)
  (st st' : downloader.fetchState) :
  downloader.handle BadHashes hasBlock getBlock Reserve Fetch each fuel ev st
  = downloader.Continue st' ->
  downloader.attempted st' = downloader.attempted st.
Proof.
  destruct ev as [|pack rnd now ban|pack|now|]; cbn [downloader.handle].
  - discriminate.
  - unfold downloader.onHashes.
    destruct (negb _); [by intros [= <-]|].
    destruct (_ =? _)%nat; [discriminate|].
    destruct (downloader.findBanned _ _ _) as [[index hash]|].
    + destruct (downloader.queue.Insert _ _) as [inserts q].
      destruct (downloader.banBlocks _ _ _ _ _ _ _ _ _) as [d' [err| |]]; discriminate.
    + destruct (downloader.scanKnown _ _ _) as [[hashes done] head].
      destruct (downloader.queue.Insert _ _) as [inserts q].
      destruct (_ && _); [discriminate|].
      destruct (negb done); [|discriminate].
      destruct (_ <? _); [discriminate|].
      destruct (downloader.crossSelect _ _) as [[origin parent]|]; [|discriminate].
      by intros [= <-].
  - unfold downloader.onBlocks.
    destruct (negb _); [by intros [= <-]|].
    destruct (downloader.blockPack.blocks pack) as [|block [|]];
      try by intros [= <-].
    destruct (_ !! _); [|by intros [= <-]].
    destruct (negb _); [discriminate|by intros [= <-]].
  - unfold downloader.onCrossTick. destruct (existsb _ _); [discriminate|].
    by intros [= <-].
  - unfold downloader.onTimeout. destruct (find _ _); [|discriminate].
    destruct (_ =? _)%N; [discriminate|]. by intros [= <-].
Qed.

Lemma fetchLoop_attempted (fuel : nat) (events : list downloader.fetchEvent) :
  forall st st',
    downloader.fetchLoop BadHashes hasBlock getBlock Reserve Fetch each fuel
      events st = downloader.FetchWaiting st' ->
    downloader.attempted st' = downloader.attempted st.
Proof.
  induction events as [|ev events IH]; intros st st'; cbn [downloader.fetchLoop].
  - by intros [= <-].
  - destruct (downloader.handle _ _ _ _ _ _ _ _ _) as [st1|st1|st1 err|st1|] eqn:Hstep;
      try discriminate.
    intros Hloop. rewrite (IH _ _ Hloop). eapply handle_attempted. exact Hstep.
Qed.

End Attempted.

(** C4 (amended). When the hash-request timeout fires, the downloader
    looks for the first registered peer whose advertised head is among
    the queued hashes and whose id is not marked attempted.  If there is
    none, or if the last hash is still the zero hash, it returns
    [ErrTimeout] and changes nothing; otherwise it makes that peer the
    active one and asks it for the hashes from the last hash.  The peer
    the fetch started with is marked attempted as long as the fetch runs:
    no timeout selects it. *)
Theorem timeout_switches_peer :
  (forall st : downloader.fetchState,
      match downloader.onTimeout st with
      | downloader.Fail st' err =>
          st' = st /\ err = downloader.ErrTimeout /\
          (downloader.head st = common.zeroHash \/
           (forall p, p ∈ downloader.peers (downloader.d st) ->
                      downloader.eligible st p = false))
      | downloader.Continue st' =>
          downloader.head st <> common.zeroHash /\
          exists p,
            find (downloader.eligible st) (downloader.peers (downloader.d st))
            = Some p /\
            p ∈ downloader.peers (downloader.d st) /\
            downloader.queue.Has (downloader.peer.head p)
              (downloader.queue (downloader.d st)) = true /\
            (downloader.peer.id p ∉ downloader.attempted st) /\
            downloader.active st' = p /\
            downloader.sent st'
            = downloader.sent st
              ++ [downloader.GetHashes (downloader.peer.id p) (downloader.head st)] /\
            downloader.head st' = downloader.head st /\
            downloader.d st' = downloader.d st
      | _ => False
      end) /\
  (forall BadHashes hasBlock getBlock Reserve Fetch each fuel p0 h events self st st',
      downloader.fetchHashes BadHashes hasBlock getBlock Reserve Fetch each fuel
        p0 h events self = downloader.FetchWaiting st ->
      downloader.onTimeout st = downloader.Continue st' ->
      downloader.peer.id p0 ∈ downloader.attempted st /\
      downloader.peer.id (downloader.active st') <> downloader.peer.id p0).
Proof.
  split.
  - intros st. pose proof (onTimeout_spec st) as H.
    destruct (downloader.onTimeout st) as [st'|st'|st' err|st'|]; auto.
    destruct H as (Hnz & p & Hfind & Hin & Hhas & Hatt & ->).
    split; [exact Hnz|]. exists p. repeat split; auto.
  - intros BadHashes hasBlock getBlock Reserve Fetch each fuel p0 h events self
      st st' Hrun Hstep.
    assert (Hatt : downloader.peer.id p0 ∈ downloader.attempted st).
    { unfold downloader.fetchHashes in Hrun.
      rewrite (fetchLoop_attempted _ _ _ _ _ _ _ _ _ _ Hrun).
      unfold downloader.fetchStart.
      destruct (downloader.queue.Insert _ _) as [inserts q]. cbn.
      apply elem_of_union_l, elem_of_singleton. reflexivity. }
    split; [exact Hatt|].
    pose proof (onTimeout_spec st) as H. rewrite Hstep in H.
    destruct H as (_ & p & _ & _ & _ & Hnot & ->). cbn.
    intros Heq. apply Hnot. rewrite Heq. exact Hatt.
Qed.

Lemma timeout_switches_peer_witness :
  exists st st',
    downloader.fetchHashes sample.badHashes sample.noBlock sample.noBlockAt
      sample.reserve sample.fetch elements 1 sample.peerA 900
      [downloader.Hashes sample.batch 1000 0 []] sample.syncing
    = downloader.FetchWaiting st /\
    downloader.onTimeout st = downloader.Continue st' /\
    downloader.active st' = sample.peerB /\
    downloader.peer.id (downloader.active st') <> downloader.peer.id sample.peerA.
Proof.
  assert (exists st st',
             downloader.fetchHashes sample.badHashes sample.noBlock sample.noBlockAt
               sample.reserve sample.fetch elements 1 sample.peerA 900
               [downloader.Hashes sample.batch 1000 0 []] sample.syncing
             = downloader.FetchWaiting st /\
             downloader.onTimeout st = downloader.Continue st' /\
             downloader.active st' = sample.peerB)
    as (st & st' & Hrun & Hstep & Hactive)
    by (eexists; eexists; split; [|split]; vm_compute; reflexivity).
  exists st, st'. split; [exact Hrun|]. split; [exact Hstep|].
  split; [exact Hactive|].
  exact (proj2 (proj2 timeout_switches_peer _ _ _ _ _ _ _ _ _ _ _ st st' Hrun Hstep)).
Defined.

(** C4, as stated, fails twice.  A timeout before any hash has been
    received returns [ErrTimeout] although a peer that was not attempted
    advertises a queued head.  And a peer a timeout has switched to is not
    marked attempted: the next timeout selects peer B again and sends it
    the same request. *)
Lemma timeout_zero_head_and_reselection :
  downloader.eligible (downloader.fetchStart sample.peerA 900 sample.syncing)
    sample.peerB = true /\
  (exists st,
      downloader.fetchHashes sample.badHashes sample.noBlock sample.noBlockAt
        sample.reserve sample.fetch elements 1 sample.peerA 900
        [downloader.Timeout] sample.syncing
      = downloader.FetchReturn st (Some downloader.ErrTimeout)) /\
  match
    downloader.fetchHashes sample.badHashes sample.noBlock sample.noBlockAt
      sample.reserve sample.fetch elements 1 sample.peerA 900
      [downloader.Hashes sample.batch 1000 0 []; downloader.Timeout;
       downloader.Timeout] sample.syncing
  with
  | downloader.FetchWaiting st =>
      downloader.active st = sample.peerB /\
      drop 3 (downloader.sent st)
      = [downloader.GetHashes "B" 1511; downloader.GetHashes "B" 1511]
  | _ => False
  end.
Proof.
  split; [reflexivity|]. split.
  - eexists. vm_compute. reflexivity.
  - vm_compute. split; reflexivity.
Qed.

(** * Further properties of the chain manager *)

(** ** What [InsertChain] keeps *)

(** One iteration: the total difficulty does not go down, the database
    gains at most the block, no reorganisation event stays in the queue;
    an iteration that ends the call changes nothing and reports a
    failure. *)
Lemma insertBlock_effect (E : core.Env) (fuel : nat) (chain : list Block.t)
  (i : nat) (block : Block.t) (st : core.loopState) :
  match core.insertBlock E fuel chain i block st with
  | core.Next st' block' =>
      core.td (core.bc st) <= core.td (core.bc st') /\
      (core.blockDb (core.bc st') = core.blockDb (core.bc st) \/
       core.blockDb (core.bc st')
       = <[Block.Hash block := block']> (core.blockDb (core.bc st))) /\
      core.genesisBlock (core.bc st') = core.genesisBlock (core.bc st) /\
      length (core.queue st') = length (core.queue st) /\
      (invariants.noSplit (core.queue st) -> invariants.noSplit (core.queue st'))
  | core.Stop st' block' out => core.bc st' = core.bc st /\ invariants.failed out
  | core.Break => True
  end.
Proof.
  unfold core.insertBlock.
  destruct (core.procInterrupt E i); [exact I|].
  destruct (core.waitNonce _ _ _ _ _) as [checked done| |]; [|split; [reflexivity|exact I]..].
  destruct (bool_decide _); [split; [reflexivity|exact I]|].
  cbn [core.bc core.withNonces].
  set (block' := core.stamp (core.bc st) block).
  assert (Hhash : Block.Hash block' = Block.Hash block) by reflexivity.
  clearbody block'.
  destruct (core.Process E (core.bc st) block') as [err|logs].
  - destruct err; cbn [core.IsKnownBlockErr core.IsBlockFutureErr core.IsParentErr andb].
    + cbn. repeat split; auto; lia.
    + destruct (_ >? _); cbn; repeat split; auto; lia.
    + destruct (core.BlockCache.Has _ _); cbn; repeat split; auto; lia.
    + cbn. auto.
  - unfold core.accept. cbn [core.bc core.withNonces].
    rewrite big_Cmp_gt. unfold core.Td.
    destruct (Z.gtb_spec (Block.Td block') (core.td (core.bc st))) as [Hgt|Hle].
    + destruct (negb _).
      * destruct (core.merge _ _ _ _) as [[err|bc']|] eqn:Hmerge; [cbn; auto| |cbn; auto].
        destruct (merge_keeps _ _ _ _ _ Hmerge) as (Hdb & Htd & Hgen & _ & _).
        cbn. rewrite Hdb, Hgen, Hhash. split; [lia|]. split; [auto|].
        split; [reflexivity|].
        rewrite list_insert_insert_eq, length_insert. split; [reflexivity|].
        intros Hq. apply Forall_insert; [exact Hq|exact I].
      * cbn. rewrite Hhash. split; [lia|]. split; [auto|]. split; [reflexivity|].
        rewrite length_insert. split; [reflexivity|].
        intros Hq. apply Forall_insert; [exact Hq|exact I].
    + cbn. rewrite Hhash. split; [lia|]. split; [auto|]. split; [reflexivity|].
      rewrite length_insert. split; [reflexivity|].
      intros Hq. apply Forall_insert; [exact Hq|exact I].
Qed.

Lemma insertLoop_effect (E : core.Env) (fuel : nat) (chain : list Block.t)
  (rest : list Block.t) :
  forall (i : nat) (done : list Block.t) (st : core.loopState),
    let r := core.insertLoop E fuel chain i done rest st in
    core.td (core.bc st) <= core.td (core.manager r) /\
    (forall h, is_Some (core.blockDb (core.bc st) !! h) ->
               is_Some (core.blockDb (core.manager r) !! h)) /\
    core.genesisBlock (core.manager r) = core.genesisBlock (core.bc st) /\
    map Block.header (core.blocks r) = map Block.header (done ++ rest) /\
    map Block.Uncles (core.blocks r) = map Block.Uncles (done ++ rest) /\
    match core.posted r with
    | Some queue =>
        core.outcome r = core.Return 0 None /\
        length queue = length (core.queue st) /\
        (invariants.noSplit (core.queue st) -> invariants.noSplit queue)
    | None => invariants.failed (core.outcome r)
    end.
Proof.
  induction rest as [|block rest IH]; intros i done st.
  - cbn. rewrite app_nil_r. repeat split; auto; lia.
  - cbn [core.insertLoop].
    pose proof (insertBlock_effect E fuel chain i block st) as Hstep.
    pose proof (insertBlock_stamps E fuel chain i block st) as [Hblock _].
    destruct (core.insertBlock E fuel chain i block st) as [st' block'| |st' block' out].
    + destruct Hstep as (Htd & Hdb & Hgen & Hlen & Hq).
      specialize (IH (S i) (done ++ [block']) st'). cbn zeta in IH |- *.
      destruct IH as (Htd' & Hdb' & Hgen' & Hheaders & Huncles & Hposted).
      split; [lia|]. split.
      { intros h Hh. apply Hdb'. destruct Hdb as [-> | ->]; [exact Hh|].
        destruct (decide (Block.Hash block = h)) as [<-|Hne].
        - rewrite lookup_insert_eq. eauto.
        - rewrite lookup_insert_ne by exact Hne. exact Hh. }
      split; [congruence|]. split.
      { rewrite Hheaders, <- app_assoc, !map_app. cbn.
        destruct Hblock as [-> | ->]; reflexivity. }
      split.
      { rewrite Huncles, <- app_assoc, !map_app. cbn.
        destruct Hblock as [-> | ->]; reflexivity. }
      destruct (core.posted _); [|exact Hposted].
      destruct Hposted as (Hout & Hlen' & Hq'). split; [exact Hout|].
      split; [congruence|auto].
    + cbn. repeat split; auto; lia.
    + destruct Hstep as [Hbc Hfail]. cbn. rewrite Hbc.
      split; [lia|]. split; [auto|]. split; [reflexivity|].
      split; [|split; [|exact Hfail]].
      * rewrite !map_app. cbn. destruct Hblock as [[-> | ->] _]; reflexivity.
      * rewrite !map_app. cbn. destruct Hblock as [[-> | ->] _]; reflexivity.
Qed.

(** X1. Whatever the batch and whatever the surroundings do, a call of
    [InsertChain] never lowers the manager's total difficulty. *)
Theorem InsertChain_td_never_decreases (E : core.Env) (fuel : nat)
  (arrivals : list nat) (self : core.ChainManager) (chain : list Block.t) :
  core.td self <= core.td (core.manager (core.InsertChain E fuel arrivals self chain)).
Proof.
  apply (insertLoop_effect E fuel chain chain 0 [] (core.enter arrivals self chain)).
Qed.

(** X2. [InsertChain] never removes a block from the database, never
    replaces the genesis block and never changes a header of the batch:
    the blocks it hands back differ from the ones it got in total
    difficulty and queued flag only. *)
Theorem InsertChain_keeps_blocks (E : core.Env) (fuel : nat)
  (arrivals : list nat) (self : core.ChainManager) (chain : list Block.t) :
  let r := core.InsertChain E fuel arrivals self chain in
  (forall h, is_Some (core.GetBlock self h) ->
             is_Some (core.GetBlock (core.manager r) h)) /\
  core.genesisBlock (core.manager r) = core.genesisBlock self /\
  map Block.header (core.blocks r) = map Block.header chain /\
  map Block.Uncles (core.blocks r) = map Block.Uncles chain.
Proof.
  destruct (insertLoop_effect E fuel chain chain 0 [] (core.enter arrivals self chain))
    as (_ & Hdb & Hgen & Hheaders & Huncles & _).
  cbn zeta. auto.
Qed.

(** X3. The queue event [InsertChain] posts has one slot for each block
    of the batch and never holds a [ChainSplitEvent]: after a
    reorganisation the block's slot is overwritten with its
    [ChainEvent]. *)
Theorem InsertChain_posts_no_split (E : core.Env) (fuel : nat)
  (arrivals : list nat) (self : core.ChainManager) (chain : list Block.t) :
  match core.posted (core.InsertChain E fuel arrivals self chain) with
  | Some queue => length queue = length chain /\ invariants.noSplit queue
  | None => True
  end.
Proof.
  destruct (insertLoop_effect E fuel chain chain 0 [] (core.enter arrivals self chain))
    as (_ & _ & _ & _ & _ & Hposted).
  unfold core.InsertChain. destruct (core.posted _); [|exact I].
  destruct Hposted as (_ & Hlen & Hq). cbn in Hlen, Hq.
  rewrite length_replicate in Hlen. split; [exact Hlen|].
  apply Hq. apply Forall_replicate. exact I.
Qed.

(** X4. The queue event is posted exactly when the call returns
    [(0, nil)].  When an iteration ends the call otherwise, the manager
    is as the iterations before it left it and nothing is posted: the
    events of the blocks already imported from the batch are dropped. *)
Theorem InsertChain_failure_posts_nothing (E : core.Env) (fuel : nat)
  (arrivals : list nat) (self : core.ChainManager) (chain : list Block.t) :
  let r := core.InsertChain E fuel arrivals self chain in
  (is_Some (core.posted r) <-> core.outcome r = core.Return 0 None) /\
  forall k st done block rest st' block' out,
    core.loopAt E fuel chain k 0 [] chain (core.enter arrivals self chain)
    = Some (st, done, block :: rest) ->
    core.insertBlock E fuel chain k block st = core.Stop st' block' out ->
    core.manager r = core.bc st /\ core.outcome r = out /\ core.posted r = None /\
    invariants.failed out.
Proof.
  cbn zeta. split.
  - destruct (insertLoop_effect E fuel chain chain 0 [] (core.enter arrivals self chain))
      as (_ & _ & _ & _ & _ & Hposted).
    unfold core.InsertChain. destruct (core.posted _) as [queue|].
    + split; [intros _; apply Hposted|eauto].
    + split; [intros [? [=]]|].
      intros Hout. rewrite Hout in Hposted. destruct Hposted.
  - intros k st done block rest st' block' out Hat Hstep.
    pose proof (insertBlock_effect E fuel chain k block st) as Heff.
    rewrite Hstep in Heff. destruct Heff as [Hbc Hfail].
    unfold core.InsertChain. rewrite (insertLoop_loopAt _ _ _ _ _ _ _ _ _ _ _ Hat).
    rewrite Nat.add_0_r. cbn [core.insertLoop]. rewrite Hstep. cbn. auto.
Qed.

Lemma InsertChain_failure_posts_nothing_witness :
  let E := sample.env ∅ (sample.verify_but 102) sample.accepting false in
  let r := core.InsertChain E 0 [0; 1; 2]%nat sample.manager
             [sample.B1; sample.B2; sample.B3] in
  Block.Hash (core.currentBlock (core.manager r)) = 101%N /\
  core.posted r = None.
Proof.
  intros E r.
  assert (exists st st' block' out,
             core.loopAt E 0 [sample.B1; sample.B2; sample.B3] 1 0 []
               [sample.B1; sample.B2; sample.B3]
               (core.enter [0; 1; 2]%nat sample.manager
                  [sample.B1; sample.B2; sample.B3])
             = Some (st, [core.stamp sample.manager sample.B1],
                     sample.B2 :: [sample.B3]) /\
             core.insertBlock E 0 [sample.B1; sample.B2; sample.B3] 1 sample.B2 st
             = core.Stop st' block' out /\
             Block.Hash (core.currentBlock (core.bc st)) = 101%N)
    as (st & st' & block' & out & Hat & Hstep & Hhead)
    by (do 4 eexists; split; [vm_compute; reflexivity|];
        split; vm_compute; reflexivity).
  destruct (proj2 (InsertChain_failure_posts_nothing E 0 [0; 1; 2]%nat
                     sample.manager [sample.B1; sample.B2; sample.B3])
              1%nat st _ _ _ st' block' out Hat Hstep) as (Hm & _ & Hposted & _).
  fold r in Hm, Hposted. rewrite Hm. auto.
Defined.

(** ** Known blocks and side blocks *)

Section KnownBlocks.

Variable E : core.Env.
Variable fuel : nat.
Variable self : core.ChainManager.
Variable chain : list Block.t.

Hypothesis not_interrupted : forall i, core.procInterrupt E i = false.
Hypothesis no_bad_hash :
  Forall (fun b => Block.Hash b ∉ core.BadHashes E) chain.
Hypothesis nonces_verify :
  Forall (fun b => core.Verify E (Block.header b) = true) chain.
Hypothesis all_known :
  forall b, b ∈ chain ->
            core.Process E self (core.stamp self b) = inl core.KnownBlockError.

Lemma insertLoop_known (rest : list Block.t) :
  forall (i : nat) (done : list Block.t) (st : core.loopState),
    (i + length rest = length chain)%nat ->
    rest ⊆ chain ->
    invariants.noncesPending (length chain) (core.nonceChecked st) (core.nonceDone st) ->
    core.bc st = self ->
    let r := core.insertLoop E fuel chain i done rest st in
    core.outcome r = core.Return 0 None /\
    core.manager r = self /\
    core.blocks r = done ++ map (core.stamp self) rest /\
    core.posted r = Some (core.queue st).
Proof.
  induction rest as [|block rest IH]; intros i done st Hlen Hsub Hpend Hself.
  - cbn. rewrite app_nil_r. auto.
  - assert (Hin : block ∈ chain) by (apply Hsub; left).
    assert (Hi : (i < length chain)%nat) by (cbn in Hlen; lia).
    destruct (waitNonce_ready E chain i nonces_verify Hi _ _ Hpend)
      as (checked' & done' & Hwait & Hpend' & _).
    cbn [core.insertLoop]. unfold core.insertBlock.
    rewrite not_interrupted, Hwait.
    rewrite bool_decide_eq_false_2
      by (apply (proj1 (Forall_forall _ _) no_bad_hash); exact Hin).
    cbn [core.bc core.withNonces]. rewrite Hself.
    rewrite (all_known block Hin).
    cbn [core.IsKnownBlockErr].
    destruct (IH (S i) (done ++ [core.stamp self block])
                (core.withNonces checked' done' st)) as (Hout & Hm & Hblocks & Hposted).
    + cbn in Hlen. lia.
    + intros x Hx. apply Hsub. by right.
    + exact Hpend'.
    + exact Hself.
    + cbn zeta. rewrite Hout, Hm, Hblocks, Hposted, <- app_assoc. auto.
Qed.

End KnownBlocks.

(** X5. Importing a batch each of whose blocks, stamped, the processor
    reports as known in the manager as it is (every nonce verifies, no
    hash is blacklisted, the flag is not set) leaves the manager as it
    was: head, total difficulty, database and caches.  The call returns
    [(0, nil)], posts a queue of empty slots, and the blocks come back
    stamped. *)
Theorem InsertChain_known_blocks_ignored (E : core.Env) (fuel : nat)
  (arrivals : list nat) (self : core.ChainManager) (chain : list Block.t) :
  (forall i, core.procInterrupt E i = false) ->
  Forall (fun b => Block.Hash b ∉ core.BadHashes E) chain ->
  Forall (fun b => core.Verify E (Block.header b) = true) chain ->
  arrivals ≡ₚ seq 0 (length chain) ->
  (forall b, b ∈ chain ->
             core.Process E self (core.stamp self b) = inl core.KnownBlockError) ->
  let r := core.InsertChain E fuel arrivals self chain in
  core.outcome r = core.Return 0 None /\
  core.manager r = self /\
  core.blocks r = map (core.stamp self) chain /\
  core.posted r = Some (replicate (length chain) None).
Proof.
  intros Hint Hbad Hver Hperm Hknown.
  apply (insertLoop_known E fuel self chain Hint Hbad Hver Hknown chain 0 []
           (core.enter arrivals self chain)); auto.
  apply noncesPending_enter. exact Hperm.
Qed.

Lemma InsertChain_known_blocks_ignored_witness :
  let process (bc : core.ChainManager) (b : Block.t)
    : core.ProcessError + core.Logs :=
    if core.HasBlock bc (Block.Hash b) then inl core.KnownBlockError else inr [] in
  let E := sample.env ∅ (fun _ => true) process false in
  core.manager (core.InsertChain E 0 [1; 0]%nat sample.manager1
                  [sample.genesis; sample.B1])
  = sample.manager1.
Proof.
  intros process E.
  apply (InsertChain_known_blocks_ignored E 0 [1; 0]%nat sample.manager1
           [sample.genesis; sample.B1]).
  - reflexivity.
  - repeat constructor; apply not_elem_of_empty.
  - repeat constructor.
  - apply perm_swap.
  - intros b Hb. apply elem_of_cons in Hb as [->|Hb]; [reflexivity|].
    apply list_elem_of_singleton in Hb. subst b. reflexivity.
Defined.

Lemma BlockCache_Has_Delete (h : common.Hash) (c : core.BlockCache.t) :
  core.BlockCache.Has h (core.BlockCache.Delete h c) = false.
Proof.
  unfold core.BlockCache.Has, core.BlockCache.Delete. cbn.
  induction (core.BlockCache.blocks c) as [|b l IH]; [reflexivity|].
  cbn. destruct (N.eqb_spec (Block.Hash b) h) as [Heq|Hne]; cbn; [exact IH|].
  rewrite IH. destruct (N.eqb_spec (Block.Hash b) h); [contradiction|reflexivity].
Qed.

(** X6. A block the processor accepts whose total difficulty is not
    above the manager's is a side block: it is written to the database
    under its hash and leaves the future-block cache, its slot holds a
    [ChainSideEvent], and the head, the total difficulty, the number
    index and the last-block pointer stay as they are. *)
Theorem InsertChain_side_block (E : core.Env) (fuel : nat)
  (chain : list Block.t) (i : nat) (done rest : list Block.t) (block : Block.t)
  (st : core.loopState) (checked : list bool) (pending : list nat) (logs : core.Logs) :
  core.procInterrupt E i = false ->
  core.waitNonce E chain i (core.nonceChecked st) (core.nonceDone st)
  = core.NonceReady checked pending ->
  Block.Hash block ∉ core.BadHashes E ->
  let stamped := core.stamp (core.bc st) block in
  core.Process E (core.bc st) stamped = inr logs ->
  Block.Td stamped <= core.td (core.bc st) ->
  (i < length (core.queue st))%nat ->
  exists st',
    core.insertLoop E fuel chain i done (block :: rest) st
    = core.insertLoop E fuel chain (S i) (done ++ [stamped]) rest st' /\
    core.GetBlock (core.bc st') (Block.Hash block) = Some stamped /\
    (forall h, h <> Block.Hash block ->
               core.GetBlock (core.bc st') h = core.GetBlock (core.bc st) h) /\
    core.BlockCache.Has (Block.Hash block) (core.futureBlocks (core.bc st')) = false /\
    core.queue st' !! i = Some (Some (core.ChainSideEvent stamped logs)) /\
    core.currentBlock (core.bc st') = core.currentBlock (core.bc st) /\
    core.td (core.bc st') = core.td (core.bc st) /\
    core.numDb (core.bc st') = core.numDb (core.bc st) /\
    core.lastBlockDb (core.bc st') = core.lastBlockDb (core.bc st).
Proof.
  intros Hint Hwait Hbad stamped Hproc Htd Hi.
  cbn [core.insertLoop]. unfold core.insertBlock.
  rewrite Hint, Hwait, (bool_decide_eq_false_2 _ Hbad).
  cbn [core.bc core.withNonces]. fold stamped. rewrite Hproc.
  unfold core.accept. cbn [core.bc core.withNonces].
  rewrite big_Cmp_gt. unfold core.Td.
  destruct (Z.gtb_spec (Block.Td stamped) (core.td (core.bc st))) as [?|_]; [lia|].
  eexists. split; [reflexivity|]. cbn.
  split; [apply lookup_insert_eq|].
  split; [intros h Hne; apply lookup_insert_ne; intros Heq; apply Hne;
          rewrite <- Heq; reflexivity|].
  split; [apply (BlockCache_Has_Delete (Block.Hash stamped))|].
  split; [apply list_lookup_insert_eq; exact Hi|]. auto.
Qed.

Lemma InsertChain_side_block_witness :
  let E := sample.env ∅ (fun _ => true) sample.accepting false in
  let light := sample.block 100 1 10 0 401 0 in
  let r := core.InsertChain E 0 [0]%nat sample.manager [light] in
  core.currentBlock (core.manager r) = sample.genesis /\
  Block.Td <$> core.GetBlock (core.manager r) 401 = Some 131072.
Proof.
  intros E light r.
  destruct (InsertChain_side_block E 0 [light] 0 [] [] light
              (core.enter [0]%nat sample.manager [light]) [true] [] []
              eq_refl eq_refl (not_elem_of_empty _) eq_refl)
    as (st' & Hloop & Hget & _ & _ & _ & Hcur & _).
  - vm_compute. discriminate.
  - cbn. lia.
  - unfold r, core.InsertChain. rewrite Hloop. cbn [core.insertLoop core.leave core.manager].
    rewrite Hcur. split; [reflexivity|].
    change (Block.Hash light) with 401%N in Hget. unfold core.GetBlock in *.
    rewrite Hget. reflexivity.
Defined.


(** ** Reading back what was written *)

Lemma uint64_small (z : Z) : 0 <= z < 2 ^ 64 -> mach.uint64 z = z.
Proof. intros H. unfold mach.uint64. apply Z.mod_small. lia. Qed.

Lemma canonical_hash_inj (bc : core.ChainManager) (cs : list Block.t)
  (i j : nat) (a b : Block.t) :
  chains.canonical bc cs ->
  cs !! i = Some a -> cs !! j = Some b -> Block.Hash a = Block.Hash b -> i = j.
Proof.
  intros [_ H] Ha Hb Heq.
  destruct (H _ _ Ha) as (Hna & Hga & _). destruct (H _ _ Hb) as (Hnb & Hgb & _).
  rewrite Heq, Hgb in Hga. injection Hga as ->. lia.
Qed.

Lemma canonical_head (bc : core.ChainManager) (cs : list Block.t) :
  chains.canonical bc cs ->
  exists cs', cs = cs' ++ [core.currentBlock bc] /\
              Block.Number (core.currentBlock bc) = Z.of_nat (length cs').
Proof.
  intros [Hlast Hcs]. apply last_Some in Hlast as [cs' ->]. exists cs'.
  split; [reflexivity|].
  apply (Hcs (length cs')). rewrite lookup_app_r, Nat.sub_diag by lia. reflexivity.
Qed.

Lemma canonical_by_number (bc : core.ChainManager) (cs : list Block.t)
  (n : nat) (b : Block.t) :
  chains.canonical bc cs -> Z.of_nat n < 2 ^ 63 -> cs !! n = Some b ->
  core.GetBlockByNumber bc (Z.of_nat n) = Some b.
Proof.
  intros [_ Hcs] Hn Hb. destruct (Hcs _ _ Hb) as (_ & Hget & Hidx & _).
  unfold core.GetBlockByNumber, core.getBlockByNumber, big.Bytes.
  rewrite int64_small by lia. rewrite Z.abs_eq by lia. rewrite Hidx. exact Hget.
Qed.

(** X7. A block that was written and inserted, in either order, is read
    back by its hash and, its number being below 2^63 in absolute value,
    by its number; it is the head and the last-block pointer names it. *)
Theorem write_insert_round_trip (bc : core.ChainManager) (block : Block.t) :
  Z.abs (Block.Number block) < 2 ^ 63 ->
  forall bc',
    bc' = core.insert block (core.write block bc) \/
    bc' = core.write block (core.insert block bc) ->
    core.GetBlock bc' (Block.Hash block) = Some block /\
    core.GetBlockByNumber bc' (Block.NumberU64 block) = Some block /\
    core.CurrentBlock bc' = block /\
    core.lastBlockDb bc' = Some (Block.Hash block).
Proof.
  intros Hnum bc' Hbc'.
  assert (Hkey : big.Bytes (mach.int64 (Block.NumberU64 block))
                 = big.Bytes (Block.Number block)).
  { unfold Block.NumberU64, big.Uint64, big.Bytes, Block.Number in *.
    rewrite uint64_small by lia. rewrite int64_small by lia.
    apply Z.abs_eq. lia. }
  unfold core.GetBlockByNumber, core.getBlockByNumber. rewrite Hkey.
  destruct Hbc' as [-> | ->]; cbn; rewrite !lookup_insert_eq;
    unfold core.GetBlock; cbn; rewrite lookup_insert_eq; auto.
Qed.

Lemma write_insert_round_trip_witness :
  core.GetBlockByNumber (core.insert sample.B1 (core.write sample.B1 sample.manager)) 1
  = Some sample.B1.
Proof.
  apply (write_insert_round_trip sample.manager sample.B1); [reflexivity|].
  left. reflexivity.
Defined.

(** ** [Export] and [ExportN] *)

Lemma exportLoop_canonical (encodeFails : Block.t -> bool)
  (bc : core.ChainManager) (cs : list Block.t) :
  chains.canonical bc cs ->
  Z.of_nat (length cs) <= 2 ^ 63 ->
  (forall b, b ∈ cs -> encodeFails b = false) ->
  forall (d k fuel : nat) (w : list Block.t),
    (k + d = length cs)%nat -> (d <= fuel)%nat ->
    core.exportLoop encodeFails fuel bc (Z.of_nat k) (Z.of_nat (length cs) - 1) w
    = Some (None, w ++ drop k cs).
Proof.
  intros Hcan Hlen Hok. induction d as [|d IH]; intros k fuel w Hk Hfuel.
  - rewrite drop_ge, app_nil_r by lia.
    destruct fuel; cbn [core.exportLoop];
      (destruct (Z.leb_spec (Z.of_nat k) (Z.of_nat (length cs) - 1)); [lia|reflexivity]).
  - destruct fuel as [|fuel]; [lia|]. cbn [core.exportLoop].
    destruct (Z.leb_spec (Z.of_nat k) (Z.of_nat (length cs) - 1)); [|lia].
    destruct (lookup_lt_is_Some_2 cs k) as [b Hb]; [lia|].
    rewrite (canonical_by_number bc cs k b Hcan) by (lia || exact Hb).
    rewrite Hok by (eapply list_elem_of_lookup_2; exact Hb).
    rewrite uint64_small by lia.
    replace (Z.of_nat k + 1) with (Z.of_nat (S k)) by lia.
    rewrite IH by lia. rewrite <- app_assoc. cbn [app].
    rewrite (drop_S _ _ _ Hb). reflexivity.
Qed.

(** X8. [Export] of a manager whose canonical chain is [cs] (at most 2^63
    blocks, each of which the writer takes) appends the blocks of [cs],
    genesis first, to the writer and returns no error; as many loop
    iterations as there are blocks suffice. *)
Theorem Export_writes_canonical_chain (encodeFails : Block.t -> bool) (fuel : nat)
  (bc : core.ChainManager) (cs w : list Block.t) :
  chains.canonical bc cs ->
  Z.of_nat (length cs) <= 2 ^ 63 ->
  (forall b, b ∈ cs -> encodeFails b = false) ->
  (length cs <= fuel)%nat ->
  core.Export encodeFails fuel bc w = Some (None, w ++ cs).
Proof.
  intros Hcan Hlen Hok Hfuel.
  destruct (canonical_head _ _ Hcan) as (cs' & Hcs & Hnum).
  unfold core.Export, core.ExportN, Block.NumberU64, big.Uint64.
  fold (Block.Number (core.currentBlock bc)).
  rewrite Hnum, Z.abs_eq by lia.
  assert (Hl : length cs = S (length cs')) by (rewrite Hcs, length_app; cbn; lia).
  rewrite uint64_small by lia.
  destruct (Z.gtb_spec 0 (Z.of_nat (length cs'))); [lia|].
  replace (Z.of_nat (length cs')) with (Z.of_nat (length cs) - 1) by lia.
  apply (exportLoop_canonical encodeFails bc cs Hcan Hlen Hok (length cs) 0 fuel w); lia.
Qed.

Lemma Export_writes_canonical_chain_witness :
  core.Export (fun _ => false) 2 sample.manager1 []
  = Some (None, [sample.genesis; core.currentBlock sample.manager1]).
Proof.
  apply (Export_writes_canonical_chain (fun _ => false) 2 sample.manager1
           [sample.genesis; core.currentBlock sample.manager1] []).
  - exact canonical_manager1.
  - cbn. lia.
  - reflexivity.
  - cbn. lia.
Defined.

Lemma exportLoop_spec (encodeFails : Block.t -> bool) (bc : core.ChainManager)
  (last : Z) :
  last < 2 ^ 64 - 1 ->
  forall (fuel : nat) (nr : Z) (w : list Block.t),
    0 <= nr -> (Z.to_nat (last - nr + 1) <= fuel)%nat ->
    exists (err : option core.ExportErr) (added : list Block.t),
      core.exportLoop encodeFails fuel bc nr last w = Some (err, w ++ added) /\
      (forall (i : nat) (b : Block.t),
          added !! i = Some b ->
          core.GetBlockByNumber bc (nr + Z.of_nat i) = Some b /\
          encodeFails b = false) /\
      match err with
      | None => Z.of_nat (length added) = Z.max 0 (last - nr + 1)
      | Some (core.NotFound at_) =>
          at_ = nr + Z.of_nat (length added) /\ at_ <= last /\
          core.GetBlockByNumber bc at_ = None
      | Some (core.WriteFailed at_) =>
          at_ = nr + Z.of_nat (length added) /\ at_ <= last /\
          exists b, core.GetBlockByNumber bc at_ = Some b /\ encodeFails b = true
      | Some (core.FirstGreaterThanLast _ _) => False
      end.
Proof.
  intros Hlast. induction fuel as [|fuel IH]; intros nr w Hnr Hfuel.
  - cbn [core.exportLoop]. destruct (Z.leb_spec nr last); [lia|].
    exists None, []. rewrite app_nil_r. split; [reflexivity|].
    split; [intros i b Hi; discriminate|]. cbn. lia.
  - cbn [core.exportLoop]. destruct (Z.leb_spec nr last).
    + destruct (core.GetBlockByNumber bc nr) as [block|] eqn:Hget.
      * destruct (encodeFails block) eqn:Henc.
        -- exists (Some (core.WriteFailed nr)), []. rewrite app_nil_r.
           split; [reflexivity|]. split; [intros i b Hi; discriminate|].
           cbn. split; [lia|]. split; [lia|]. exists block. auto.
        -- rewrite uint64_small by lia.
           destruct (IH (nr + 1) (w ++ [block])) as (err & added & Hrun & Hadded & Herr);
             [lia|lia|].
           exists err, (block :: added). rewrite Hrun, <- app_assoc.
           split; [reflexivity|]. split.
           ++ intros [|i] b Hi.
              ** cbn in Hi. injection Hi as <-. rewrite Z.add_0_r. auto.
              ** cbn in Hi. destruct (Hadded i b Hi) as [Hg He].
                 replace (nr + Z.of_nat (S i)) with (nr + 1 + Z.of_nat i) by lia. auto.
           ++ destruct err as [[| |]|]; cbn [length]; try exact Herr.
              ** destruct Herr as (-> & ? & ?). split; [lia|]. auto.
              ** destruct Herr as (-> & ? & ?). split; [lia|]. auto.
              ** lia.
      * exists (Some (core.NotFound nr)), []. rewrite app_nil_r.
        split; [reflexivity|]. split; [intros i b Hi; discriminate|].
        cbn. rewrite Z.add_0_r. auto.
    + exists None, []. rewrite app_nil_r. split; [reflexivity|].
      split; [intros i b Hi; discriminate|]. cbn. lia.
Qed.

(** X9. [ExportN] over the numbers [first..last] ([last] below 2^64 - 1)
    returns after at most [last - first + 1] iterations.  What it appended
    to the writer are the blocks with the numbers [first], [first + 1],
    ... in this order.  It returns no error when it wrote all of them;
    otherwise the error names the first number whose block is not found
    or is refused by the writer, and nothing is written from there on.
    With [first > last] nothing is written. *)
Theorem ExportN_writes_in_order (encodeFails : Block.t -> bool) (fuel : nat)
  (bc : core.ChainManager) (w : list Block.t) (first last : Z) :
  0 <= first -> last < 2 ^ 64 - 1 ->
  (Z.to_nat (last - first + 1) <= fuel)%nat ->
  exists (err : option core.ExportErr) (added : list Block.t),
    core.ExportN encodeFails fuel bc w first last = Some (err, w ++ added) /\
    (forall (i : nat) (b : Block.t),
        added !! i = Some b ->
        core.GetBlockByNumber bc (first + Z.of_nat i) = Some b /\
        encodeFails b = false) /\
    match err with
    | None => first <= last /\ Z.of_nat (length added) = last - first + 1
    | Some (core.NotFound nr) =>
        nr = first + Z.of_nat (length added) /\ nr <= last /\
        core.GetBlockByNumber bc nr = None
    | Some (core.WriteFailed nr) =>
        nr = first + Z.of_nat (length added) /\ nr <= last /\
        exists b, core.GetBlockByNumber bc nr = Some b /\ encodeFails b = true
    | Some (core.FirstGreaterThanLast f l) =>
        f = first /\ l = last /\ last < first /\ added = []
    end.
Proof.
  intros Hfirst Hlast Hfuel. unfold core.ExportN.
  destruct (Z.gtb_spec first last) as [Hgt|Hle].
  - exists (Some (core.FirstGreaterThanLast first last)), [].
    rewrite app_nil_r. split; [reflexivity|].
    split; [intros i b Hi; discriminate|]. auto.
  - destruct (exportLoop_spec encodeFails bc last Hlast fuel first w Hfirst Hfuel)
      as (err & added & Hrun & Hadded & Herr).
    exists err, added. split; [exact Hrun|]. split; [exact Hadded|].
    destruct err as [[| |]|]; try exact Herr; [contradiction|lia].
Qed.

Lemma ExportN_writes_in_order_witness :
  core.ExportN (fun _ => false) 3 sample.manager1 [] 0 2
  = Some (Some (core.NotFound 2), [sample.genesis; core.currentBlock sample.manager1]).
Proof.
  destruct (ExportN_writes_in_order (fun _ => false) 3 sample.manager1 [] 0 2)
    as (err & added & Hrun & _); [lia|lia|vm_compute; lia|].
  rewrite Hrun. vm_compute in Hrun. injection Hrun as <- <-. reflexivity.
Defined.

(** ** Rewinding the chain *)

Lemma removeWalk_total (stop : Block.t -> bool) :
  forall (fuel : nat) (bc : core.ChainManager) (b : Block.t),
    invariants.keyed bc ->
    (core.GetBlock bc (Block.Hash b) = Some b /\ (size (core.blockDb bc) <= fuel)%nat) \/
    (size (core.blockDb bc) < fuel)%nat ->
    is_Some (core.removeWalk fuel stop bc (Some b)).
Proof.
  induction fuel as [|fuel IH]; intros bc b Hkeyed Hsize.
  - cbn. destruct (stop b); [eauto|]. exfalso.
    destruct Hsize as [[Hget Hsize]|Hsize]; [|lia].
    unfold core.GetBlock in Hget.
    assert (core.blockDb bc = ∅) as Hempty by (apply map_size_empty_iff; lia).
    rewrite Hempty in Hget. discriminate.
  - cbn [core.removeWalk]. destruct (stop b); [eauto|].
    set (bc' := core.removeBlock b bc).
    assert (Hkeyed' : invariants.keyed bc').
    { intros h x Hx. apply Hkeyed. unfold core.GetBlock, bc' in *. cbn in Hx.
      apply lookup_delete_Some in Hx as [_ Hx]. exact Hx. }
    assert (Hsize' : (size (core.blockDb bc') <= fuel)%nat).
    { unfold bc'. cbn. destruct Hsize as [[Hget Hsize]|Hsize].
      - rewrite map_size_delete. unfold core.GetBlock in Hget. rewrite Hget. cbn beta iota. lia.
      - rewrite map_size_delete.
        destruct (core.blockDb bc !! Block.Hash b); unfold id; lia. }
    destruct (core.GetBlock bc' (Block.ParentHash b)) as [p|] eqn:Hp.
    + apply IH; [exact Hkeyed'|]. left. split; [|exact Hsize'].
      rewrite (Hkeyed' _ _ Hp). exact Hp.
    + destruct fuel; cbn; eauto.
Qed.

Lemma removeWalk_keeps (stop : Block.t -> bool) :
  forall (fuel : nat) (bc bc' : core.ChainManager) (block : option Block.t),
    core.removeWalk fuel stop bc block = Some bc' ->
    core.numDb bc' = core.numDb bc /\
    core.lastBlockDb bc' = core.lastBlockDb bc /\
    core.genesisBlock bc' = core.genesisBlock bc /\
    core.td bc' = core.td bc /\
    core.currentBlock bc' = core.currentBlock bc /\
    core.cache bc' = core.cache bc /\
    core.futureBlocks bc' = core.futureBlocks bc /\
    core.blockDb bc' ⊆ core.blockDb bc /\
    (forall b, block = Some b -> stop b = false ->
               core.GetBlock bc' (Block.Hash b) = None).
Proof.
  induction fuel as [|fuel IH]; intros bc bc' block Hrun.
  - destruct block as [b|]; cbn in Hrun.
    + destruct (stop b) eqn:Hstop; [|discriminate]. injection Hrun as <-.
      repeat split; auto. intros ? [= <-] ?. congruence.
    + injection Hrun as <-. repeat split; auto. discriminate.
  - destruct block as [b|]; cbn [core.removeWalk] in Hrun.
    + destruct (stop b) eqn:Hstop.
      * injection Hrun as <-. repeat split; auto. intros ? [= <-] ?. congruence.
      * apply IH in Hrun as (? & ? & ? & ? & ? & ? & ? & Hsub & _).
        repeat split; auto.
        -- etrans; [exact Hsub|]. cbn. apply delete_subseteq.
        -- intros ? [= <-] _. unfold core.GetBlock.
           eapply lookup_weaken_None; [|exact Hsub]. cbn. apply lookup_delete_eq.
    + injection Hrun as <-. repeat split; auto. discriminate.
Qed.

Lemma without_keeps (l : list Block.t) :
  forall bc : core.ChainManager,
    core.numDb (chains.without bc l) = core.numDb bc /\
    core.lastBlockDb (chains.without bc l) = core.lastBlockDb bc /\
    core.genesisBlock (chains.without bc l) = core.genesisBlock bc /\
    core.td (chains.without bc l) = core.td bc /\
    core.currentBlock (chains.without bc l) = core.currentBlock bc /\
    core.cache (chains.without bc l) = core.cache bc /\
    core.futureBlocks (chains.without bc l) = core.futureBlocks bc /\
    (forall h, h ∈ map Block.Hash l -> core.GetBlock (chains.without bc l) h = None) /\
    (forall h, h ∉ map Block.Hash l ->
               core.GetBlock (chains.without bc l) h = core.GetBlock bc h).
Proof.
  induction l as [|x l IH]; intros bc.
  - cbn. repeat split; auto. intros h Hh. inversion Hh.
  - change (chains.without bc (x :: l)) with (chains.without (core.removeBlock x bc) l).
    destruct (IH (core.removeBlock x bc)) as (-> & -> & -> & -> & -> & -> & -> & Hin & Hout).
    repeat split; auto.
    + intros h Hh. destruct (decide (h ∈ map Block.Hash l)) as [Hl|Hl]; [auto|].
      rewrite (Hout _ Hl). cbn in Hh. apply elem_of_cons in Hh as [->|Hh]; [|contradiction].
      unfold core.GetBlock. cbn. apply lookup_delete_eq.
    + intros h Hh. cbn in Hh. apply not_elem_of_cons in Hh as [Hx Hl].
      rewrite (Hout _ Hl). unfold core.GetBlock. cbn. apply lookup_delete_ne. congruence.
Qed.

(** The walk down a chain whose blocks are stored under distinct hashes:
    [d] blocks are removed, then the walk is at block [k]. *)
Lemma removeWalk_descend (stop : Block.t -> bool) (cs : list Block.t) (k : nat) :
  (forall i j a b, cs !! i = Some a -> cs !! j = Some b ->
                   Block.Hash a = Block.Hash b -> i = j) ->
  (forall n b, cs !! S n = Some b ->
               exists p, cs !! n = Some p /\ Block.ParentHash b = Block.Hash p) ->
  forall (d i : nat) (b : Block.t) (fuel : nat) (bc : core.ChainManager),
    i = (k + d)%nat -> cs !! i = Some b ->
    (forall n x, (k < n <= i)%nat -> cs !! n = Some x -> stop x = false) ->
    (forall n x, (n <= i)%nat -> cs !! n = Some x ->
                 core.GetBlock bc (Block.Hash x) = Some x) ->
    core.removeWalk (d + fuel) stop bc (Some b)
    = core.removeWalk fuel stop
        (chains.without bc (rev (take d (drop (S k) cs)))) (cs !! k).
Proof.
  intros Hinj Hparent. induction d as [|d IH]; intros i b fuel bc Hi Hb Hstop Hget.
  - rewrite Nat.add_0_r in Hi. subst i. rewrite Hb. reflexivity.
  - subst i. replace (k + S d)%nat with (S (k + d)) in * by lia.
    cbn [Nat.add core.removeWalk]. rewrite (Hstop (S (k + d)) b) by (lia || exact Hb).
    destruct (Hparent _ _ Hb) as (p & Hp & Hlink). cbn zeta.
    assert (Hne : forall n x, (n <= k + d)%nat -> cs !! n = Some x ->
                              Block.Hash b <> Block.Hash x).
    { intros n x Hn Hx Heq. pose proof (Hinj _ _ _ _ Hb Hx Heq). lia. }
    assert (Hget' : forall n x, (n <= k + d)%nat -> cs !! n = Some x ->
                core.GetBlock (core.removeBlock b bc) (Block.Hash x) = Some x).
    { intros n x Hn Hx. unfold core.GetBlock. cbn.
      rewrite lookup_delete_ne by (eapply Hne; eauto). apply (Hget n); [lia|exact Hx]. }
    rewrite Hlink, (Hget' (k + d)%nat p) by (lia || exact Hp).
    rewrite (IH (k + d)%nat p fuel (core.removeBlock b bc) eq_refl Hp).
    + f_equal. assert (Hd : drop (S k) cs !! d = Some b).
      { rewrite lookup_drop. replace (S k + d)%nat with (S (k + d)) by lia. exact Hb. }
      rewrite (take_S_r _ _ _ Hd), rev_app_distr. reflexivity.
    + intros n x Hn Hx. apply (Hstop n); [lia|exact Hx].
    + exact Hget'.
Qed.

Lemma makeCache_keeps (bc : core.ChainManager) :
  core.blockDb (core.makeCache bc) = core.blockDb bc /\
  core.numDb (core.makeCache bc) = core.numDb bc /\
  core.lastBlockDb (core.makeCache bc) = core.lastBlockDb bc /\
  core.genesisBlock (core.makeCache bc) = core.genesisBlock bc /\
  core.td (core.makeCache bc) = core.td bc /\
  core.currentBlock (core.makeCache bc) = core.currentBlock bc /\
  core.lastBlockHash (core.makeCache bc) = core.lastBlockHash bc /\
  core.futureBlocks (core.makeCache bc) = core.futureBlocks bc.
Proof. unfold core.makeCache, core.setCache. cbn. auto 10. Qed.

Lemma CalcGasLimit_total (P : params.t) (parent : Block.t) :
  params.GasLimitBoundDivisor P <> 0 -> is_Some (core.CalcGasLimit P parent).
Proof.
  intros Hdiv. unfold core.CalcGasLimit, big.Div.
  destruct (Z.eqb_spec (params.GasLimitBoundDivisor P) 0); [contradiction|].
  cbn. destruct (_ <? _); eauto.
Qed.

(** Projections of the manager after the setters. *)
Ltac fields :=
  cbn [core.blockDb core.numDb core.lastBlockDb core.genesisBlock core.td
       core.currentBlock core.lastBlockHash core.cache core.futureBlocks
       core.write core.insert core.setCurrentBlock core.setTotalDifficulty
       core.setLastBlockHash core.setGenesisBlock core.setCache core.removeBlock
       core.setFutureBlocks] in *.

Lemma removeWalk_first (stop : Block.t -> bool) (fuel : nat)
  (bc bc' : core.ChainManager) (b : Block.t) :
  core.removeWalk fuel stop bc (Some b) = Some bc' -> stop b = false ->
  core.GetBlock bc' (Block.Hash b) = None.
Proof.
  intros Hrun Hstop.
  destruct (removeWalk_keeps _ _ _ _ _ Hrun) as (_ & _ & _ & _ & _ & _ & _ & _ & H).
  apply H; auto.
Qed.

Lemma removeWalk_visits (cs : list Block.t) :
  (forall i j a b, cs !! i = Some a -> cs !! j = Some b ->
                   Block.Hash a = Block.Hash b -> i = j) ->
  (forall n b, cs !! S n = Some b ->
               exists p, cs !! n = Some p /\ Block.ParentHash b = Block.Hash p) ->
  forall (i : nat) (b : Block.t) (fuel : nat) (bc bc' : core.ChainManager),
    cs !! i = Some b ->
    (forall n x, (n <= i)%nat -> cs !! n = Some x ->
                 core.GetBlock bc (Block.Hash x) = Some x) ->
    core.removeWalk fuel (fun _ => false) bc (Some b) = Some bc' ->
    forall n x, (n <= i)%nat -> cs !! n = Some x ->
                core.GetBlock bc' (Block.Hash x) = None.
Proof.
  intros Hinj Hparent. induction i as [|i IH]; intros b fuel bc bc' Hb Hget Hrun n x Hn Hx.
  - assert (n = 0%nat) as -> by lia. rewrite Hb in Hx. injection Hx as <-.
    apply (removeWalk_first _ _ _ _ _ Hrun); reflexivity.
  - destruct (decide (n = S i)) as [->|Hne].
    + rewrite Hb in Hx. injection Hx as <-.
      apply (removeWalk_first _ _ _ _ _ Hrun); reflexivity.
    + destruct fuel as [|fuel]; [discriminate|]. cbn [core.removeWalk] in Hrun.
      destruct (Hparent _ _ Hb) as (p & Hp & Hlink).
      assert (Hget' : forall m y, (m <= i)%nat -> cs !! m = Some y ->
                  core.GetBlock (core.removeBlock b bc) (Block.Hash y) = Some y).
      { intros m y Hm Hy. unfold core.GetBlock. cbn.
        rewrite lookup_delete_ne.
        - apply (Hget m); [lia|exact Hy].
        - intros Heq. pose proof (Hinj _ _ _ _ Hb Hy Heq). lia. }
      rewrite Hlink, (Hget' i p) in Hrun by (lia || exact Hp).
      apply (IH p fuel _ bc' Hp Hget' Hrun n x); [lia|exact Hx].
Qed.

Lemma canonical_parent (bc : core.ChainManager) (cs : list Block.t) :
  chains.canonical bc cs ->
  forall n b, cs !! S n = Some b ->
              exists p, cs !! n = Some p /\ Block.ParentHash b = Block.Hash p.
Proof. intros [_ Hcs] n b Hb. apply (Hcs _ _ Hb). Qed.

Lemma canonical_stored (bc : core.ChainManager) (cs : list Block.t) :
  chains.canonical bc cs ->
  forall n b, cs !! n = Some b -> core.GetBlock bc (Block.Hash b) = Some b.
Proof. intros [_ Hcs] n b Hb. apply (Hcs _ _ Hb). Qed.

(** X10. [Reset] returns on every database whose blocks are stored under
    their own hashes, after at most one step per stored block and one
    more.  Afterwards the genesis block is the head, is stored and is
    named by the last-block pointer; the total difficulty is zero; no
    other block was added; with a genesis block of number 0 the
    canonical chain is the genesis block alone. *)
Theorem Reset_rewinds_to_genesis (fuel : nat) (bc : core.ChainManager) :
  invariants.keyed bc ->
  (size (core.blockDb bc) < fuel)%nat ->
  exists bc',
    core.Reset fuel bc = Some bc' /\
    core.CurrentBlock bc' = core.genesisBlock bc /\
    core.genesisBlock bc' = core.genesisBlock bc /\
    core.Td bc' = 0 /\
    core.lastBlockDb bc' = Some (Block.Hash (core.genesisBlock bc)) /\
    core.GetBlock bc' (Block.Hash (core.genesisBlock bc)) = Some (core.genesisBlock bc) /\
    (forall h, h <> Block.Hash (core.genesisBlock bc) ->
               core.GetBlock bc' h = None \/ core.GetBlock bc' h = core.GetBlock bc h) /\
    invariants.keyed bc' /\
    (Block.Number (core.genesisBlock bc) = 0 ->
     chains.canonical bc' [core.genesisBlock bc]).
Proof.
  intros Hkeyed Hsize.
  destruct (removeWalk_total (fun _ => false) fuel bc (core.currentBlock bc) Hkeyed
              (or_intror Hsize)) as [bc1 Hrun].
  destruct (removeWalk_keeps _ _ _ _ _ Hrun)
    as (Hnum & Hlast & Hgen & Htd & Hcur & Hcache & Hfut & Hsub & _).
  unfold core.Reset. rewrite Hrun. eexists. split; [reflexivity|].
  fields. rewrite Hgen.
  match goal with |- context [core.makeCache ?x] =>
    destruct (makeCache_keeps x) as (Mb & Mn & Ml & Mg & Mt & Mc & Mh & Mf) end.
  unfold core.CurrentBlock, core.Td, invariants.keyed, chains.canonical.
  unfold core.GetBlock. fields. rewrite Mb, Mn, Ml, Mg, Mc. fields. rewrite Hgen.
  assert (Hother : forall h, h <> Block.Hash (core.genesisBlock bc) ->
            <[Block.Hash (core.genesisBlock bc) := core.genesisBlock bc]>
              (core.blockDb bc1) !! h = None \/
            <[Block.Hash (core.genesisBlock bc) := core.genesisBlock bc]>
              (core.blockDb bc1) !! h = core.blockDb bc !! h).
  { intros h Hh. rewrite lookup_insert_ne by congruence.
    destruct (core.blockDb bc1 !! h) as [x|] eqn:Hx; [right|left; reflexivity].
    symmetry. eapply lookup_weaken; eauto. }
  do 4 (split; [reflexivity|]).
  split; [apply lookup_insert_eq|]. split; [exact Hother|]. split.
  - intros h b Hb. destruct (decide (h = Block.Hash (core.genesisBlock bc))) as [->|Hne].
    + rewrite lookup_insert_eq in Hb. injection Hb as <-. reflexivity.
    + destruct (Hother h Hne) as [Hn|Hs]; [congruence|].
      apply Hkeyed. unfold core.GetBlock. rewrite <- Hs. exact Hb.
  - intros Hzero. split; [reflexivity|].
    intros [|n] b; cbn; [|discriminate]. intros [= <-].
    rewrite Hzero. repeat split; auto; cbn; apply lookup_insert_eq.
Qed.

Lemma keyed_by_list (bc : core.ChainManager) :
  Forall (fun hb => Block.Hash hb.2 = hb.1) (map_to_list (core.blockDb bc)) ->
  invariants.keyed bc.
Proof.
  intros Hall h b Hb. unfold core.GetBlock in Hb.
  apply elem_of_map_to_list in Hb.
  apply (proj1 (Forall_forall _ _) Hall (h, b) Hb).
Qed.

Lemma keyed_manager1 : invariants.keyed sample.manager1.
Proof. apply keyed_by_list. vm_compute. repeat constructor. Qed.

Lemma Reset_rewinds_to_genesis_witness :
  exists bc', core.Reset 3 sample.manager1 = Some bc' /\
              core.CurrentBlock bc' = sample.genesis /\ core.Td bc' = 0.
Proof.
  destruct (Reset_rewinds_to_genesis 3 sample.manager1 keyed_manager1)
    as (bc' & Hrun & Hcur & _ & Htd & _).
  - vm_compute. lia.
  - exists bc'. auto.
Defined.

(** X11. [Reset] of a manager whose canonical chain is [cs], the genesis
    block being its first block, deletes every other block of the chain
    from the database but leaves the number index as it is: the index
    still names the deleted block, and [GetBlockByNumber] returns nil
    for its number. *)
Theorem Reset_leaves_number_index (fuel : nat) (bc : core.ChainManager)
  (cs : list Block.t) :
  chains.canonical bc cs ->
  cs !! 0%nat = Some (core.genesisBlock bc) ->
  invariants.keyed bc ->
  (size (core.blockDb bc) < fuel)%nat ->
  exists bc',
    core.Reset fuel bc = Some bc' /\
    forall (n : nat) (b : Block.t),
      cs !! S n = Some b ->
      core.GetBlock bc' (Block.Hash b) = None /\
      core.numDb bc' !! Z.of_nat (S n) = Some (Block.Hash b) /\
      (Z.of_nat (S n) < 2 ^ 63 -> core.GetBlockByNumber bc' (Z.of_nat (S n)) = None).
Proof.
  intros Hcan Hgen0 Hkeyed Hsize.
  destruct (removeWalk_total (fun _ => false) fuel bc (core.currentBlock bc) Hkeyed
              (or_intror Hsize)) as [bc1 Hrun].
  destruct (removeWalk_keeps _ _ _ _ _ Hrun)
    as (Hnum & Hlast & Hgen & Htd & Hcur & Hcache & Hfut & Hsub & _).
  destruct (canonical_head _ _ Hcan) as (cs' & Hcs & Hheadnum).
  assert (Hhead : cs !! length cs' = Some (core.currentBlock bc)).
  { rewrite Hcs, lookup_app_r, Nat.sub_diag by lia. reflexivity. }
  pose proof (removeWalk_visits cs
                (fun i j a b => canonical_hash_inj bc cs i j a b Hcan)
                (canonical_parent bc cs Hcan) _ _ _ _ _ Hhead
                (fun n x _ Hx => canonical_stored bc cs Hcan n x Hx) Hrun) as Hgone.
  unfold core.Reset. rewrite Hrun. eexists. split; [reflexivity|].
  intros n b Hb. fields. rewrite Hgen.
  match goal with |- context [core.makeCache ?x] =>
    destruct (makeCache_keeps x) as (Mb & Mn & Ml & Mg & Mt & Mc & Mh & Mf) end.
  assert (Hn : (S n <= length cs')%nat).
  { apply lookup_lt_Some in Hb. rewrite Hcs, length_app in Hb. cbn in Hb. lia. }
  assert (Hne : Block.Hash (core.genesisBlock bc) <> Block.Hash b).
  { intros Heq. pose proof (canonical_hash_inj bc cs 0 (S n) _ _ Hcan Hgen0 Hb Heq).
    discriminate. }
  destruct Hcan as [_ Hcs0].
  destruct (Hcs0 _ _ Hgen0) as (Hgnum & _).
  destruct (Hcs0 _ _ Hb) as (_ & _ & Hidx & _).
  assert (Hstore : core.GetBlock
                     (core.setTotalDifficulty 0
                        (core.makeCache
                           (core.setCurrentBlock (core.genesisBlock bc)
                              (core.insert (core.genesisBlock bc)
                                 (core.write (core.genesisBlock bc) bc1)))))
                     (Block.Hash b) = None).
  { unfold core.GetBlock. fields. rewrite Mb. fields.
    rewrite lookup_insert_ne by exact Hne. apply (Hgone (S n) b Hn Hb). }
  assert (Hindex : core.numDb
                     (core.setTotalDifficulty 0
                        (core.makeCache
                           (core.setCurrentBlock (core.genesisBlock bc)
                              (core.insert (core.genesisBlock bc)
                                 (core.write (core.genesisBlock bc) bc1)))))
                   !! Z.of_nat (S n) = Some (Block.Hash b)).
  { fields. rewrite Mn. fields. rewrite Hgnum. unfold big.Bytes.
    change (Z.abs (Z.of_nat 0)) with 0. rewrite lookup_insert_ne by lia. rewrite Hnum. exact Hidx. }
  split; [exact Hstore|]. split; [exact Hindex|].
  intros Hsmall. unfold core.GetBlockByNumber, core.getBlockByNumber, big.Bytes.
  rewrite int64_small by lia. rewrite Z.abs_eq by lia.
  rewrite Hindex. exact Hstore.
Qed.

Lemma Reset_leaves_number_index_witness :
  exists bc', core.Reset 3 sample.manager1 = Some bc' /\
              core.numDb bc' !! 1 = Some 101%N /\
              core.GetBlockByNumber bc' 1 = None.
Proof.
  destruct (Reset_leaves_number_index 3 sample.manager1 _ canonical_manager1
              eq_refl keyed_manager1) as (bc' & Hrun & Hgone).
  - vm_compute. lia.
  - exists bc'. split; [exact Hrun|].
    destruct (Hgone 0%nat (core.currentBlock sample.manager1) eq_refl) as (_ & Hidx & Hnum).
    split; [exact Hidx|]. apply Hnum. reflexivity.
Defined.

Lemma elem_of_rev {A : Type} (l : list A) (x : A) : x ∈ rev l <-> x ∈ l.
Proof. rewrite !list_elem_of_In. symmetry. apply in_rev. Qed.

(** X12. [SetHead] to block [k] of the canonical chain [cs], a block
    that carries its total difficulty, returns when the gas-limit
    divisor is not zero, after one step of the walk per block above
    [k].  The canonical chain is then [cs] up to block [k],
    the total difficulty is the one stored with that block, and the
    blocks above [k] are gone from the database. *)
Theorem SetHead_rewinds_canonical_chain (P : params.t) (fuel : nat)
  (bc : core.ChainManager) (cs : list Block.t) (k : nat) (head : Block.t) :
  chains.canonical bc cs ->
  cs !! k = Some head ->
  params.GasLimitBoundDivisor P <> 0 ->
  (length cs - S k <= fuel)%nat ->
  exists bc',
    core.SetHead P fuel head true bc = core.Done bc' /\
    chains.canonical bc' (take (S k) cs) /\
    core.Td bc' = Block.Td head /\
    core.genesisBlock bc' = core.genesisBlock bc /\
    forall (n : nat) (b : Block.t),
      (k < n)%nat -> cs !! n = Some b -> core.GetBlock bc' (Block.Hash b) = None.
Proof.
  intros Hcan Hk Hdiv Hfuel.
  destruct (canonical_head _ _ Hcan) as (cs' & Hcs & Hheadnum).
  assert (Hhead : cs !! length cs' = Some (core.currentBlock bc)).
  { rewrite Hcs, lookup_app_r, Nat.sub_diag by lia. reflexivity. }
  assert (Hlen : length cs = S (length cs')) by (rewrite Hcs, length_app; cbn; lia).
  assert (Hkle : (k <= length cs')%nat) by (apply lookup_lt_Some in Hk; lia).
  pose proof (fun i j a b => canonical_hash_inj bc cs i j a b Hcan) as Hinj.
  set (stop := fun block : Block.t => N.eqb (Block.Hash block) (Block.Hash head)).
  set (gone := rev (take (length cs' - k) (drop (S k) cs))).
  assert (Hrun : core.removeWalk fuel stop bc (Some (core.currentBlock bc))
                 = Some (chains.without bc gone)).
  { replace fuel with ((length cs' - k) + (fuel - (length cs' - k)))%nat by lia.
    rewrite (removeWalk_descend stop cs k Hinj (canonical_parent bc cs Hcan)
               (length cs' - k) (length cs') (core.currentBlock bc)
               (fuel - (length cs' - k)) bc); [| lia | exact Hhead | | ].
    - rewrite Hk. fold gone. destruct (fuel - (length cs' - k))%nat; cbn;
        unfold stop; rewrite N.eqb_refl; reflexivity.
    - intros n x Hn Hx. unfold stop. apply N.eqb_neq. intros Heq.
      pose proof (Hinj _ _ _ _ Hx Hk Heq). lia.
    - intros n x _ Hx. exact (canonical_stored bc cs Hcan n x Hx). }
  destruct (without_keeps gone bc)
    as (Wn & Wl & Wg & Wt & Wc & Wca & Wf & Win & Wout).
  assert (Hgone : forall n b, (k < n)%nat -> cs !! n = Some b ->
                              Block.Hash b ∈ map Block.Hash gone).
  { intros n b Hn Hb. apply list_elem_of_fmap. exists b. split; [reflexivity|].
    unfold gone. rewrite elem_of_rev. apply list_elem_of_lookup.
    exists (n - S k)%nat. rewrite lookup_take_lt.
    - rewrite lookup_drop. replace (S k + (n - S k))%nat with n by lia. exact Hb.
    - apply lookup_lt_Some in Hb. lia. }
  assert (Hkept : forall n b, (n <= k)%nat -> cs !! n = Some b ->
                              Block.Hash b ∉ map Block.Hash gone).
  { intros n b Hn Hb Hin. apply list_elem_of_fmap in Hin as (x & Heq & Hx).
    unfold gone in Hx. rewrite elem_of_rev in Hx.
    apply list_elem_of_lookup in Hx as (j & Hj).
    apply lookup_take_Some in Hj as [Hj _]. rewrite lookup_drop in Hj.
    pose proof (Hinj _ _ _ _ Hb Hj Heq). lia. }
  unfold core.SetHead. fold stop. rewrite Hrun. cbn zeta iota.
  match goal with |- context [core.makeCache ?x] =>
    destruct (makeCache_keeps x) as (Mb & Mn & Ml & Mg & Mt & Mc & Mh & Mf) end.
  fields.
  unfold core.setLastState. fields. unfold core.GetBlock at 1. fields.
  rewrite Mb. fields.
  change (core.blockDb (chains.without bc gone) !! Block.Hash head)
    with (core.GetBlock (chains.without bc gone) (Block.Hash head)).
  rewrite (Wout _ (Hkept k head (Nat.le_refl k) Hk)).
  rewrite (canonical_stored bc cs Hcan k head Hk).
  fields.
  destruct (CalcGasLimit_total P head Hdiv) as [gl ->].
  eexists. split; [reflexivity|].
  unfold core.Td. fields. rewrite Mg. fields.
  split; [|split; [reflexivity|split; [exact Wg|]]].
  - split.
    + fields. rewrite last_lookup, length_take, Nat.min_l by lia.
      cbn [Nat.pred]. rewrite lookup_take_lt by lia. exact Hk.
    + intros n b Hb. apply lookup_take_Some in Hb as [Hb Hn].
      destruct Hcan as [_ Hcs0]. destruct (Hcs0 _ _ Hb) as (Hnum & Hget & Hidx & Hpar).
      split; [exact Hnum|]. split; [|split].
      * unfold core.GetBlock. fields. rewrite Mb. fields.
        change (core.blockDb (chains.without bc gone) !! Block.Hash b)
          with (core.GetBlock (chains.without bc gone) (Block.Hash b)).
        rewrite (Wout _ (Hkept n b ltac:(lia) Hb)). exact Hget.
      * fields. rewrite Mn. fields. rewrite Wn.
        destruct (Hcs0 _ _ Hk) as (Hknum & _ & Hkidx & _).
        unfold big.Bytes. rewrite Hknum, Z.abs_eq by lia.
        destruct (decide (n = k)) as [->|Hne].
        -- rewrite lookup_insert_eq. rewrite Hb in Hk. injection Hk as ->. reflexivity.
        -- rewrite lookup_insert_ne by lia. exact Hidx.
      * destruct n as [|m]; [exact I|]. destruct Hpar as (p & Hp & Hlink).
        exists p. split; [|exact Hlink]. rewrite lookup_take_lt by lia. exact Hp.
  - intros n b Hn Hb. unfold core.GetBlock. fields. rewrite Mb. fields.
    apply (Win _ (Hgone n b Hn Hb)).
Qed.

Lemma SetHead_rewinds_canonical_chain_witness :
  exists bc',
    core.SetHead params.sample 1 sample.genesis true sample.manager1 = core.Done bc' /\
    chains.canonical bc' [sample.genesis].
Proof.
  destruct (SetHead_rewinds_canonical_chain params.sample 1 sample.manager1
              [sample.genesis; core.currentBlock sample.manager1] 0 sample.genesis
              canonical_manager1 eq_refl) as (bc' & Hrun & Hcan & _).
  - discriminate.
  - cbn. lia.
  - exists bc'. auto.
Defined.

(** X13. [SetHead] to a block that is not in the database does not come
    back with a manager.  The walk, which ends on every database that
    stores its blocks under their own hashes, removes the chain.  For a
    head without total difficulty [setTotalDifficulty] then panics.  For
    a head that has one, [insert] points the last-block pointer at the
    missing block and [setLastState] looks for block 400000 with
    [GetBlockByNumber], which waits for the lock that [SetHead] holds. *)
Theorem SetHead_unknown_head_never_completes (P : params.t) (fuel : nat)
  (bc : core.ChainManager) (head : Block.t) (hasTd : bool) :
  invariants.keyed bc ->
  (size (core.blockDb bc) < fuel)%nat ->
  core.GetBlock bc (Block.Hash head) = None ->
  core.SetHead P fuel head hasTd bc
  = if hasTd then core.Deadlocks else core.Panics.
Proof.
  intros Hkeyed Hsize Hnone.
  destruct (removeWalk_total
              (fun block => N.eqb (Block.Hash block) (Block.Hash head))
              fuel bc (core.currentBlock bc) Hkeyed (or_intror Hsize)) as [bc1 Hrun].
  destruct (removeWalk_keeps _ _ _ _ _ Hrun) as (_ & _ & _ & _ & _ & _ & _ & Hsub & _).
  unfold core.SetHead. rewrite Hrun. cbn zeta.
  destruct hasTd; [|reflexivity].
  match goal with |- context [core.makeCache ?x] =>
    destruct (makeCache_keeps x) as (Mb & Mn & Ml & Mg & Mt & Mc & Mh & Mf) end.
  unfold core.setLastState. fields. unfold core.GetBlock at 1. fields.
  rewrite Mb. fields.
  rewrite (lookup_weaken_None _ _ _ Hnone Hsub). reflexivity.
Qed.

Lemma SetHead_unknown_head_never_completes_witness :
  core.SetHead params.sample 3 sample.B2 true sample.manager1 = core.Deadlocks /\
  core.SetHead params.sample 3 sample.B2 false sample.manager1 = core.Panics.
Proof.
  split.
  - apply (SetHead_unknown_head_never_completes params.sample 3 sample.manager1
             sample.B2 true keyed_manager1).
    + vm_compute. lia.
    + reflexivity.
  - apply (SetHead_unknown_head_never_completes params.sample 3 sample.manager1
             sample.B2 false keyed_manager1).
    + vm_compute. lia.
    + reflexivity.
Defined.

Lemma Reset_head (fuel : nat) (bc bc' : core.ChainManager) :
  core.Reset fuel bc = Some bc' ->
  core.currentBlock bc' = core.genesisBlock bc /\
  core.lastBlockHash bc' = Block.Hash (core.genesisBlock bc) /\
  core.genesisBlock bc' = core.genesisBlock bc.
Proof.
  unfold core.Reset.
  destruct (core.removeWalk fuel _ bc _) as [bc1|] eqn:Hrun; [|discriminate].
  destruct (removeWalk_keeps _ _ _ _ _ Hrun) as (_ & _ & Hgen & _).
  intros [= <-]. fields.
  match goal with |- context [core.makeCache ?x] =>
    destruct (makeCache_keeps x) as (Mb & Mn & Ml & Mg & Mt & Mc & Mh & Mf) end.
  rewrite Mc, Mh, Mg. fields. rewrite Hgen. auto.
Qed.

(** X14. How [setLastState] ends.  When it returns, the total difficulty
    of the manager is the one stored with the head and the last block
    hash is the head's; the head is the block that the last-block
    pointer names, else block 400000, else (no pointer) the genesis block
    after a [Reset].  It exits only when the pointer names a block that
    is missing and block 400000 is missing too, panics only with a zero
    gas-limit divisor, and blocks only when the caller holds the lock and
    the missing block, or the missing pointer, sends it to
    [GetBlockByNumber] or [Reset]. *)
Theorem setLastState_outcomes (P : params.t) (fuel : nat) (locked : bool)
  (bc : core.ChainManager) :
  match core.setLastState P fuel locked bc with
  | core.Done bc' =>
      core.Td bc' = Block.Td (core.CurrentBlock bc') /\
      core.lastBlockHash bc' = Block.Hash (core.CurrentBlock bc') /\
      core.genesisBlock bc' = core.genesisBlock bc /\
      match core.lastBlockDb bc with
      | Some data =>
          core.blockDb bc' = core.blockDb bc /\
          (core.GetBlock bc data = Some (core.CurrentBlock bc') \/
           (core.GetBlock bc data = None /\ locked = false /\
            core.GetBlockByNumber bc 400000 = Some (core.CurrentBlock bc') /\
            core.lastBlockDb bc' = Some (Block.Hash (core.CurrentBlock bc'))))
      | None => locked = false /\ core.CurrentBlock bc' = core.genesisBlock bc
      end
  | core.Exit =>
      locked = false /\
      exists data, core.lastBlockDb bc = Some data /\
                   core.GetBlock bc data = None /\
                   core.GetBlockByNumber bc 400000 = None
  | core.Panics => params.GasLimitBoundDivisor P = 0
  | core.Diverges =>
      locked = false /\ core.lastBlockDb bc = None /\ core.Reset fuel bc = None
  | core.Deadlocks =>
      locked = true /\
      (core.lastBlockDb bc = None \/
       exists data, core.lastBlockDb bc = Some data /\ core.GetBlock bc data = None)
  end.
Proof.
  assert (Hgas : forall b, core.CalcGasLimit P b = None ->
                           params.GasLimitBoundDivisor P = 0).
  { intros b Hb. destruct (Z.eq_dec (params.GasLimitBoundDivisor P) 0) as [|Hne]; [auto|].
    destruct (CalcGasLimit_total P b Hne) as [x Hx]. congruence. }
  unfold core.setLastState, core.Td, core.CurrentBlock.
  destruct (core.lastBlockDb bc) as [data|] eqn:Hlast.
  - destruct (core.GetBlock bc data) as [block|] eqn:Hget.
    + fields. destruct (core.CalcGasLimit P block) eqn:Hgl; [|eapply Hgas; eauto].
      fields. auto 10.
    + destruct locked; [eauto 10|].
      destruct (core.GetBlockByNumber bc 400000) as [block|] eqn:Hnum; [|eauto 10].
      fields. destruct (core.CalcGasLimit P block) eqn:Hgl; [|eapply Hgas; eauto].
      fields. auto 10.
  - destruct locked; [auto|].
    destruct (core.Reset fuel bc) as [bcr|] eqn:Hreset; [|auto].
    destruct (Reset_head _ _ _ Hreset) as (Hcur & Hhash & Hgen).
    fields. destruct (core.CalcGasLimit P (core.currentBlock bcr)) eqn:Hgl;
      [|eapply Hgas; eauto].
    fields. rewrite Hhash, Hcur, Hgen. auto.
Qed.

(** X15. [ResetWithGenesisBlock] returns on every database whose blocks
    are stored under their own hashes.  Afterwards the given block,
    stamped with its own difficulty as total difficulty, is the genesis
    block and the head, is stored and is named by the last-block
    pointer; the total difficulty of the manager is that of the head;
    with number 0 the block is the whole canonical chain. *)
Theorem ResetWithGenesisBlock_installs_genesis (fuel : nat) (gb : Block.t)
  (bc : core.ChainManager) :
  invariants.keyed bc ->
  (size (core.blockDb bc) < fuel)%nat ->
  exists bc',
    core.ResetWithGenesisBlock fuel gb bc = Some bc' /\
    core.genesisBlock bc' = Block.setTd (Block.Difficulty gb) gb /\
    core.CurrentBlock bc' = core.genesisBlock bc' /\
    core.Td bc' = Block.Td (core.CurrentBlock bc') /\
    core.Td bc' = Block.Difficulty gb /\
    core.lastBlockDb bc' = Some (Block.Hash gb) /\
    core.GetBlock bc' (Block.Hash gb) = Some (core.genesisBlock bc') /\
    invariants.keyed bc' /\
    (Block.Number gb = 0 -> chains.canonical bc' [core.genesisBlock bc']).
Proof.
  intros Hkeyed Hsize.
  destruct (removeWalk_total (fun _ => false) fuel bc (core.currentBlock bc) Hkeyed
              (or_intror Hsize)) as [bc1 Hrun].
  destruct (removeWalk_keeps _ _ _ _ _ Hrun)
    as (Hnum & Hlast & Hgen & Htd & Hcur & Hcache & Hfut & Hsub & _).
  unfold core.ResetWithGenesisBlock. rewrite Hrun. eexists. split; [reflexivity|].
  fields.
  match goal with |- context [core.makeCache ?x] =>
    destruct (makeCache_keeps x) as (Mb & Mn & Ml & Mg & Mt & Mc & Mh & Mf) end.
  unfold core.CurrentBlock, core.Td, invariants.keyed, chains.canonical.
  unfold core.GetBlock. fields. rewrite Mb, Mn, Ml, Mg, Mc. fields.
  set (g := Block.setTd (Block.Difficulty gb) gb).
  change (Block.Hash g) with (Block.Hash gb). change (Block.Number g) with (Block.Number gb).
  do 5 (split; [reflexivity|]).
  split; [apply lookup_insert_eq|]. split.
  - intros h b Hb. destruct (decide (h = Block.Hash gb)) as [->|Hne].
    + rewrite lookup_insert_eq in Hb. injection Hb as <-. reflexivity.
    + rewrite lookup_insert_ne in Hb by congruence. apply Hkeyed.
      unfold core.GetBlock. eapply lookup_weaken; eauto.
  - intros Hzero. split; [reflexivity|].
    intros [|n] b; cbn; [|discriminate]. intros [= <-].
    change (Block.Number g) with (Block.Number gb). rewrite Hzero.
    change (Block.Hash g) with (Block.Hash gb).
    repeat split; auto; cbn; apply lookup_insert_eq.
Qed.

Lemma ResetWithGenesisBlock_installs_genesis_witness :
  exists bc', core.ResetWithGenesisBlock 3 sample.B1 sample.manager1 = Some bc' /\
              core.Td bc' = 131073.
Proof.
  destruct (ResetWithGenesisBlock_installs_genesis 3 sample.B1 sample.manager1
              keyed_manager1) as (bc' & Hrun & _ & _ & _ & Htd & _).
  - vm_compute. lia.
  - exists bc'. auto.
Defined.

(** ** Ancestors, hashes and uncles *)

(** X16. [GetUnclesInChain] collects the uncles of the block and of its
    ancestors as [GetAncestors] finds them: for a length [n + 1], the
    uncles of the block followed by those of its first [n] ancestors;
    for a nil block or a length of 0, nothing. *)
Theorem GetUnclesInChain_along_ancestors (bc : core.ChainManager)
  (block : Block.t) (n : nat) :
  core.GetUnclesInChain bc (Some block) (S n)
  = concat (map Block.Uncles (block :: core.GetAncestors bc block n)) /\
  core.GetUnclesInChain bc (Some block) 0 = [] /\
  core.GetUnclesInChain bc None n = [].
Proof.
  split; [|split; [reflexivity|destruct n; reflexivity]].
  revert block. induction n as [|n IH]; intros block.
  - cbn. destruct (core.GetBlock bc (Block.ParentHash block)); reflexivity.
  - change (core.GetUnclesInChain bc (Some block) (S (S n)))
      with (Block.Uncles block
            ++ core.GetUnclesInChain bc (core.GetBlock bc (Block.ParentHash block)) (S n)).
    cbn [core.GetAncestors].
    destruct (core.GetBlock bc (Block.ParentHash block)) as [p|] eqn:Hp.
    + rewrite IH. reflexivity.
    + cbn. reflexivity.
Qed.

(** X17. The hashes that [GetBlockHashesFromHash] returns are a prefix
    of the hashes of the ancestors that [GetAncestors] returns for the
    same block and length; the two agree when no ancestor with a number
    of zero or less has a stored parent. *)
Theorem hashes_are_ancestor_hashes (bc : core.ChainManager)
  (block : Block.t) (max : nat) :
  core.GetBlock bc (Block.Hash block) = Some block ->
  core.GetBlockHashesFromHash bc (Block.Hash block) (Z.of_nat max)
    `prefix_of` map Block.Hash (core.GetAncestors bc block max) /\
  ((forall b, b ∈ core.GetAncestors bc block max ->
              Block.Number b <= 0 -> core.GetBlock bc (Block.ParentHash b) = None) ->
   core.GetBlockHashesFromHash bc (Block.Hash block) (Z.of_nat max)
   = map Block.Hash (core.GetAncestors bc block max)).
Proof.
  intros Hget. unfold core.GetBlockHashesFromHash. rewrite Hget, Nat2Z.id. clear Hget.
  revert block. induction max as [|max IH]; intros block.
  - cbn. split; [reflexivity|auto].
  - cbn [core.hashesFrom core.GetAncestors].
    destruct (core.GetBlock bc (Block.ParentHash block)) as [p|] eqn:Hp.
    + cbn [map]. rewrite big_Cmp_le. destruct (IH p) as [Hpre Heq]. split.
      * destruct (Z.leb_spec (Block.Number p) 0).
        -- apply prefix_cons, prefix_nil.
        -- apply prefix_cons, Hpre.
      * intros Hgenesis. f_equal.
        destruct (Z.leb_spec (Block.Number p) 0) as [Hle|Hgt].
        -- pose proof (Hgenesis p ltac:(left) Hle) as Hnone.
           destruct max; cbn; [reflexivity|]. rewrite Hnone. reflexivity.
        -- apply Heq. intros b Hb. apply Hgenesis. right. exact Hb.
    + cbn. split; [reflexivity|auto].
Qed.

Lemma hashes_are_ancestor_hashes_witness :
  core.GetBlockHashesFromHash sample.manager1 101 (Z.of_nat 5)
  = map Block.Hash (core.GetAncestors sample.manager1
                      (core.currentBlock sample.manager1) 5).
Proof.
  apply (hashes_are_ancestor_hashes sample.manager1
           (core.currentBlock sample.manager1) 5); [reflexivity|].
  intros b Hb _. vm_compute in Hb.
  apply list_elem_of_singleton in Hb. subst b. reflexivity.
Defined.

(** X18. [CalcTotalDiff] fails exactly when the parent is not stored, and
    then the total difficulty that [InsertChain] stamps on the block is
    the block's own difficulty; when the parent is stored, its result is
    the stamped total difficulty plus the difficulties of the block's
    uncles. *)
Theorem CalcTotalDiff_counts_uncles (bc : core.ChainManager) (block : Block.t) :
  match core.CalcTotalDiff bc block with
  | Some td =>
      is_Some (core.GetBlock bc (Block.ParentHash block)) /\
      td = Block.Td (core.stamp bc block)
           + fold_right Z.add 0 (map Header.Difficulty (Block.Uncles block))
  | None =>
      core.GetBlock bc (Block.ParentHash block) = None /\
      Block.Td (core.stamp bc block) = Block.Difficulty block
  end.
Proof.
  unfold core.CalcTotalDiff, core.stamp.
  destruct (core.GetBlock bc (Block.ParentHash block)) as [p|]; [|auto].
  split; [eauto|]. cbn.
  assert (Hfold : forall l acc,
             fold_left (fun acc u => acc + Header.Difficulty u) l acc
             = acc + fold_right Z.add 0 (map Header.Difficulty l)).
  { induction l as [|u l IH]; intros acc; cbn; [lia|]. rewrite IH. lia. }
  rewrite Hfold. lia.
Qed.

(** ** Reorganisation *)

Lemma descends_tail (bc : core.ChainManager) (x : Block.t) (l : list Block.t) :
  chains.descends bc (x :: l) -> chains.descends bc l.
Proof. cbn. intros [_ H]. exact H. Qed.

Lemma descends_app_r (bc : core.ChainManager) (l1 l2 : list Block.t) :
  chains.descends bc (l1 ++ l2) -> chains.descends bc l2.
Proof.
  induction l1 as [|x l1 IH]; [auto|]. intros H. apply IH.
  exact (descends_tail _ _ _ H).
Qed.

Lemma descends_next (bc : core.ChainManager) (x : Block.t) (l : list Block.t) :
  chains.descends bc (x :: l) -> l <> [] ->
  core.GetBlock bc (Block.ParentHash x) = head l /\
  Some (Block.Number x) = (fun y => Block.Number y + 1) <$> head l.
Proof.
  destruct l as [|y l]; [congruence|]. cbn. intros [[Hget Hnum] _] _.
  rewrite Hget, Hnum. auto.
Qed.

Lemma descends_number (bc : core.ChainManager) (c : Block.t) (lt : list Block.t) :
  forall (l : list Block.t),
    chains.descends bc (l ++ c :: lt) ->
    forall (i : nat) (x : Block.t),
      l !! i = Some x ->
      Block.Number x = Block.Number c + Z.of_nat (length l - i).
Proof.
  induction l as [|a l IH]; intros Hd i x Hx; [discriminate|].
  destruct i as [|i].
  - cbn in Hx. injection Hx as <-.
    destruct (descends_next bc a (l ++ c :: lt) Hd) as [_ Hnum];
      [destruct l; discriminate|].
    destruct l as [|a' l].
    + cbn in Hnum. injection Hnum as ->. cbn. lia.
    + cbn in Hnum. injection Hnum as ->.
      rewrite (IH (descends_tail _ _ _ Hd) 0%nat a' eq_refl). cbn [length]. lia.
  - cbn in Hx. rewrite (IH (descends_tail _ _ _ Hd) i x Hx). cbn [length].
    apply lookup_lt_Some in Hx. lia.
Qed.

Lemma descends_head_number (bc : core.ChainManager) (c : Block.t)
  (l lt : list Block.t) (x : Block.t) :
  chains.descends bc (l ++ c :: lt) ->
  head (l ++ c :: lt) = Some x ->
  Block.Number x = Block.Number c + Z.of_nat (length l).
Proof.
  intros Hd Hx. destruct l as [|a l].
  - cbn in Hx. injection Hx as <-. cbn. lia.
  - cbn in Hx. injection Hx as <-.
    rewrite (descends_number bc c lt (a :: l) Hd 0%nat a eq_refl). cbn [length]. lia.
Qed.

Lemma NumberU64_small (b : Block.t) :
  0 <= Block.Number b < 2 ^ 64 -> Block.NumberU64 b = Block.Number b.
Proof.
  intros H. unfold Block.NumberU64, big.Uint64, Block.Number in *.
  rewrite Z.abs_eq by lia. apply uint64_small. lia.
Qed.

Lemma reduceOld_spec (bc : core.ChainManager) (num : Z) :
  forall (l1 : list Block.t) (b : Block.t) (l2 : list Block.t) (fuel : nat),
    chains.descends bc (l1 ++ b :: l2) ->
    Forall (fun x => Block.NumberU64 x <> num) l1 ->
    Block.NumberU64 b = num ->
    (length l1 <= fuel)%nat ->
    core.reduceOld fuel bc (head (l1 ++ b :: l2)) num = Some (Some b).
Proof.
  induction l1 as [|x l1 IH]; intros b l2 fuel Hd Hne Hb Hfuel.
  - cbn [app head]. destruct fuel; cbn; rewrite Hb, Z.eqb_refl; reflexivity.
  - cbn [app head]. destruct fuel as [|fuel]; [cbn in Hfuel; lia|].
    cbn [core.reduceOld]. inversion Hne as [|? ? Hx Hrest]; subst.
    destruct (Z.eqb_spec (Block.NumberU64 x) (Block.NumberU64 b)); [contradiction|].
    destruct (descends_next bc x (l1 ++ b :: l2) Hd) as [-> _];
      [destruct l1; discriminate|].
    apply IH; auto. { exact (descends_tail _ _ _ Hd). } cbn in Hfuel. lia.
Qed.

Lemma reduceNew_spec (bc : core.ChainManager) (num : Z) :
  forall (l1 : list Block.t) (b : Block.t) (l2 : list Block.t) (fuel : nat)
         (acc : list Block.t),
    chains.descends bc (l1 ++ b :: l2) ->
    Forall (fun x => Block.NumberU64 x <> num) l1 ->
    Block.NumberU64 b = num ->
    (length l1 <= fuel)%nat ->
    core.reduceNew fuel bc (head (l1 ++ b :: l2)) num acc = Some (Some b, acc ++ l1).
Proof.
  induction l1 as [|x l1 IH]; intros b l2 fuel acc Hd Hne Hb Hfuel.
  - cbn [app head]. rewrite app_nil_r.
    destruct fuel; cbn; rewrite Hb, Z.eqb_refl; reflexivity.
  - cbn [app head]. destruct fuel as [|fuel]; [cbn in Hfuel; lia|].
    cbn [core.reduceNew]. inversion Hne as [|? ? Hx Hrest]; subst.
    destruct (Z.eqb_spec (Block.NumberU64 x) (Block.NumberU64 b)); [contradiction|].
    destruct (descends_next bc x (l1 ++ b :: l2) Hd) as [-> _];
      [destruct l1; discriminate|].
    rewrite IH; auto.
    + rewrite <- app_assoc. reflexivity.
    + exact (descends_tail _ _ _ Hd).
    + cbn in Hfuel. lia.
Qed.

Lemma findCommon_spec (bc : core.ChainManager) (c : Block.t) (lo ln : list Block.t) :
  forall (o1 n1 : list Block.t) (fuel : nat) (acc : list Block.t) (ob nb : Block.t),
    length o1 = length n1 ->
    chains.descends bc (o1 ++ c :: lo) ->
    chains.descends bc (n1 ++ c :: ln) ->
    (forall x y, x ∈ o1 -> y ∈ n1 -> Block.Hash x <> Block.Hash y) ->
    (length o1 <= fuel)%nat ->
    head (o1 ++ c :: lo) = Some ob ->
    head (n1 ++ c :: ln) = Some nb ->
    core.findCommon fuel bc ob nb acc = Some (inr (acc ++ n1)).
Proof.
  induction o1 as [|x o1 IH]; intros [|y n1] fuel acc ob nb Hlen Hdo Hdn Hne Hfuel Hob Hnb;
    try discriminate.
  - cbn in Hob, Hnb. injection Hob as <-. injection Hnb as <-. rewrite app_nil_r.
    destruct fuel; cbn; rewrite N.eqb_refl; reflexivity.
  - cbn in Hob, Hnb. injection Hob as <-. injection Hnb as <-.
    destruct fuel as [|fuel]; [cbn in Hfuel; lia|]. cbn [core.findCommon].
    destruct (N.eqb_spec (Block.Hash x) (Block.Hash y)) as [Heq|_].
    { exfalso. apply (Hne x y); [left|left|exact Heq]. }
    destruct (descends_next bc x (o1 ++ c :: lo) Hdo) as [Hox _];
      [destruct o1; discriminate|].
    destruct (descends_next bc y (n1 ++ c :: ln) Hdn) as [Hny _];
      [destruct n1; discriminate|].
    rewrite Hox, Hny.
    destruct (head (o1 ++ c :: lo)) as [ob'|] eqn:Hob'; [|destruct o1; discriminate].
    destruct (head (n1 ++ c :: ln)) as [nb'|] eqn:Hnb'; [|destruct n1; discriminate].
    rewrite (IH n1 fuel (acc ++ [y]) ob' nb'); auto.
    + rewrite <- app_assoc. reflexivity.
    + exact (descends_tail _ _ _ Hdo).
    + exact (descends_tail _ _ _ Hdn).
    + intros a b Ha Hb. apply Hne; right; assumption.
    + cbn in Hfuel. lia.
Qed.

(** [diff] between two walks that meet in [c]: the blocks of the new
    walk above [c], the highest first. *)
Lemma diff_spec (bc : core.ChainManager) (c : Block.t) (o1 n1 lo ln : list Block.t)
  (fuel : nat) (ob nb : Block.t) :
  chains.descends bc (o1 ++ c :: lo) ->
  chains.descends bc (n1 ++ c :: ln) ->
  (forall x y, x ∈ o1 -> y ∈ n1 -> Block.Hash x <> Block.Hash y) ->
  0 <= Block.Number c ->
  Block.Number c + Z.of_nat (length o1) < 2 ^ 64 ->
  Block.Number c + Z.of_nat (length n1) < 2 ^ 64 ->
  (length o1 + length n1 <= fuel)%nat ->
  head (o1 ++ c :: lo) = Some ob ->
  head (n1 ++ c :: ln) = Some nb ->
  core.diff fuel bc ob nb = Some (inr n1).
Proof.
  intros Hdo Hdn Hne Hc Ho Hn Hfuel Hob Hnb.
  pose proof (descends_head_number _ _ _ _ _ Hdo Hob) as Hobn.
  pose proof (descends_head_number _ _ _ _ _ Hdn Hnb) as Hnbn.
  assert (Hou : Block.NumberU64 ob = Block.Number c + Z.of_nat (length o1))
    by (rewrite NumberU64_small; lia).
  assert (Hnu : Block.NumberU64 nb = Block.Number c + Z.of_nat (length n1))
    by (rewrite NumberU64_small; lia).
  unfold core.diff. rewrite Hou, Hnu.
  destruct (Z.gtb_spec (Block.Number c + Z.of_nat (length o1))
              (Block.Number c + Z.of_nat (length n1))) as [Hgt|Hle].
  - set (k := (length o1 - length n1)%nat).
    assert (Hsplit : o1 = take k o1 ++ drop k o1) by (symmetry; apply take_drop).
    assert (Hdl : length (drop k o1) = length n1) by (rewrite length_drop; lia).
    destruct (drop k o1 ++ c :: lo) as [|m rest] eqn:Hm; [destruct (drop k o1); discriminate|].
    assert (Hd' : chains.descends bc (take k o1 ++ m :: rest)).
    { rewrite <- Hm, app_assoc, <- Hsplit. exact Hdo. }
    assert (Hhead : head (take k o1 ++ m :: rest) = Some ob).
    { rewrite <- Hm, app_assoc, <- Hsplit. exact Hob. }
    assert (Hdm : chains.descends bc (drop k o1 ++ c :: lo)).
    { apply (descends_app_r bc (take k o1)). rewrite app_assoc, <- Hsplit. exact Hdo. }
    assert (Hmn : Block.Number m = Block.Number c + Z.of_nat (length n1)).
    { rewrite <- Hdl. apply (descends_head_number bc c (drop k o1) lo m Hdm).
      rewrite Hm. reflexivity. }
    rewrite <- Hhead.
    rewrite (reduceOld_spec bc _ (take k o1) m rest fuel Hd').
    + apply (findCommon_spec bc c lo ln (drop k o1) n1 fuel [] m nb); auto.
      * intros x y Hx Hy. apply Hne; [|exact Hy]. rewrite Hsplit.
        apply elem_of_app. right. exact Hx.
      * lia.
      * rewrite Hm. reflexivity.
    + apply Forall_forall. intros x Hx. apply list_elem_of_lookup in Hx as [i Hi].
      pose proof (lookup_lt_Some _ _ _ Hi) as Hilt. rewrite length_take in Hilt.
      assert (Hi' : o1 !! i = Some x).
      { rewrite lookup_take_lt in Hi by lia. exact Hi. }
      pose proof (descends_number bc c lo o1 Hdo i x Hi') as Hxn.
      rewrite NumberU64_small; lia.
    + rewrite NumberU64_small; lia.
    + rewrite length_take. lia.
  - set (k := (length n1 - length o1)%nat).
    assert (Hsplit : n1 = take k n1 ++ drop k n1) by (symmetry; apply take_drop).
    assert (Hdl : length (drop k n1) = length o1) by (rewrite length_drop; lia).
    destruct (drop k n1 ++ c :: ln) as [|m rest] eqn:Hm; [destruct (drop k n1); discriminate|].
    assert (Hd' : chains.descends bc (take k n1 ++ m :: rest)).
    { rewrite <- Hm, app_assoc, <- Hsplit. exact Hdn. }
    assert (Hhead : head (take k n1 ++ m :: rest) = Some nb).
    { rewrite <- Hm, app_assoc, <- Hsplit. exact Hnb. }
    assert (Hdm : chains.descends bc (drop k n1 ++ c :: ln)).
    { apply (descends_app_r bc (take k n1)). rewrite app_assoc, <- Hsplit. exact Hdn. }
    assert (Hmn : Block.Number m = Block.Number c + Z.of_nat (length o1)).
    { rewrite <- Hdl. apply (descends_head_number bc c (drop k n1) ln m Hdm).
      rewrite Hm. reflexivity. }
    rewrite <- Hhead.
    rewrite (reduceNew_spec bc _ (take k n1) m rest fuel [] Hd').
    + cbn [app].
      rewrite (findCommon_spec bc c lo ln o1 (drop k n1) fuel (take k n1) ob m); auto.
      * rewrite <- Hsplit. reflexivity.
      * intros x y Hx Hy. apply Hne; [exact Hx|]. rewrite Hsplit.
        apply elem_of_app. right. exact Hy.
      * lia.
      * rewrite Hm. reflexivity.
    + apply Forall_forall. intros x Hx. apply list_elem_of_lookup in Hx as [i Hi].
      pose proof (lookup_lt_Some _ _ _ Hi) as Hilt. rewrite length_take in Hilt.
      assert (Hi' : n1 !! i = Some x).
      { rewrite lookup_take_lt in Hi by lia. exact Hi. }
      pose proof (descends_number bc c ln n1 Hdn i x Hi') as Hxn.
      rewrite NumberU64_small; lia.
    + rewrite NumberU64_small; lia.
    + rewrite length_take. lia.
Qed.

Lemma fold_insert_numDb_other (k : Z) :
  forall (l : list Block.t) (bc : core.ChainManager),
    (forall x, x ∈ l -> big.Bytes (Block.Number x) <> k) ->
    core.numDb (fold_left (fun bc' block => core.insert block bc') l bc) !! k
    = core.numDb bc !! k.
Proof.
  induction l as [|x l IH]; intros bc Hne; [reflexivity|].
  cbn [fold_left]. rewrite IH by (intros y Hy; apply Hne; right; exact Hy).
  cbn. apply lookup_insert_ne. apply Hne. left.
Qed.

Lemma fold_insert_numDb (k : Z) (h : common.Hash) :
  forall (l : list Block.t) (bc : core.ChainManager),
    (forall x, x ∈ l -> big.Bytes (Block.Number x) = k -> Block.Hash x = h) ->
    (exists x, x ∈ l /\ big.Bytes (Block.Number x) = k) ->
    core.numDb (fold_left (fun bc' block => core.insert block bc') l bc) !! k = Some h.
Proof.
  induction l as [|x l IH]; intros bc Hall (y & Hy & Hk); [inversion Hy|].
  cbn [fold_left].
  destruct (decide (Exists (fun z => big.Bytes (Block.Number z) = k) l)) as [Hex|Hnex].
  - apply IH.
    + intros z Hz. apply Hall. right. exact Hz.
    + apply Exists_exists in Hex. exact Hex.
  - rewrite fold_insert_numDb_other.
    + apply elem_of_cons in Hy as [->|Hy].
      * cbn. rewrite Hk, lookup_insert_eq. f_equal. apply Hall; [left|exact Hk].
      * exfalso. apply Hnex. apply Exists_exists. eauto.
    + intros z Hz Hzk. apply Hnex. apply Exists_exists. eauto.
Qed.

Lemma canonical_descends (bc : core.ChainManager) (cs : list Block.t) :
  chains.canonical bc cs -> chains.descends bc (rev cs).
Proof.
  intros [_ Hcs]. revert Hcs. induction cs as [|x cs IH] using rev_ind; intros Hcs.
  - exact I.
  - rewrite rev_app_distr. cbn [rev app].
    assert (IH' : chains.descends bc (rev cs)).
    { apply IH. intros n b Hb. assert (Hn := lookup_lt_Some _ _ _ Hb).
      destruct (Hcs n b) as (H1 & H2 & H3 & H4).
      - rewrite lookup_app_l by lia. exact Hb.
      - repeat split; auto. destruct n as [|m]; [exact I|].
        destruct H4 as (p & Hp & Hlink). exists p. split; [|exact Hlink].
        rewrite lookup_app_l in Hp by lia. exact Hp. }
    destruct cs as [|y cs _] using rev_ind; [cbn; auto|].
    rewrite rev_app_distr in *. cbn [rev app] in *. split; [|exact IH'].
    assert (Hx : ((cs ++ [y]) ++ [x]) !! S (length cs) = Some x).
    { rewrite lookup_app_r by (rewrite length_app; cbn; lia).
      rewrite length_app. cbn. replace (S (length cs) - (length cs + 1))%nat with 0%nat by lia.
      reflexivity. }
    assert (Hy : ((cs ++ [y]) ++ [x]) !! length cs = Some y).
    { rewrite lookup_app_l by (rewrite length_app; cbn; lia).
      rewrite lookup_app_r, Nat.sub_diag by lia. reflexivity. }
    destruct (Hcs _ _ Hx) as (Hxn & _ & _ & p & Hp & Hlink).
    destruct (Hcs _ _ Hy) as (Hyn & Hyget & _).
    rewrite Hy in Hp. injection Hp as <-. rewrite Hlink, Hyget, Hxn, Hyn. split; [reflexivity|lia].
Qed.

(** A branch on top of [c], read upwards: numbers and parents. *)
Lemma descends_links (bc : core.ChainManager) (c : Block.t) :
  invariants.keyed bc ->
  forall news : list Block.t,
    chains.descends bc (rev news ++ [c]) ->
    forall (i : nat) (b : Block.t),
      news !! i = Some b ->
      Block.Number b = Block.Number c + Z.of_nat i + 1 /\
      exists p, (c :: news) !! i = Some p /\
                Block.ParentHash b = Block.Hash p /\
                core.GetBlock bc (Block.Hash p) = Some p.
Proof.
  intros Hkeyed. induction news as [|x news IH] using rev_ind; intros Hd i b Hb;
    [discriminate|].
  rewrite rev_app_distr in Hd. cbn [rev app] in Hd.
  pose proof (descends_tail _ _ _ Hd) as Hd'.
  assert (Hi := lookup_lt_Some _ _ _ Hb). rewrite length_app in Hi. cbn in Hi.
  destruct (decide (i = length news)) as [->|Hne].
  - rewrite lookup_app_r, Nat.sub_diag in Hb by lia. injection Hb as <-.
    destruct (descends_next bc x (rev news ++ [c]) Hd) as [Hget Hnum];
      [destruct (rev news); discriminate|].
    destruct (head (rev news ++ [c])) as [p|] eqn:Hp; [|destruct (rev news); discriminate].
    cbn in Hnum. injection Hnum as Hnum.
    pose proof (descends_head_number bc c (rev news) [] p Hd' Hp) as Hpn.
    rewrite length_rev in Hpn. split; [lia|].
    exists p. split; [|split].
    + destruct news as [|y news _] using rev_ind.
      * cbn in Hp |- *. exact Hp.
      * rewrite rev_app_distr in Hp. cbn in Hp. injection Hp as <-.
        rewrite length_app. cbn [length]. rewrite app_comm_cons.
        rewrite lookup_app_l by (cbn; rewrite length_app; cbn; lia).
        rewrite app_comm_cons, lookup_app_r by (cbn; lia). cbn [length].
        replace (length news + 1 - S (length news))%nat with 0%nat by lia. reflexivity.
    + symmetry. apply (Hkeyed _ _ Hget).
    + rewrite (Hkeyed _ _ Hget). exact Hget.
  - rewrite lookup_app_l in Hb by lia.
    destruct (IH Hd' i b Hb) as (Hn & p & Hp & Hlink & Hstored).
    split; [exact Hn|]. exists p. split; [|auto].
    rewrite app_comm_cons, lookup_app_l; [exact Hp|]. cbn. lia.
Qed.

Lemma reorg_canonical (bc bcF : core.ChainManager) (cs : list Block.t) (j : nat)
  (c : Block.t) (side : list Block.t) (nb : Block.t) :
  chains.canonical bc cs ->
  cs !! j = Some c ->
  invariants.keyed bc ->
  chains.descends bc (nb :: rev side ++ [c]) ->
  core.GetBlock bc (Block.Hash nb) = None ->
  core.currentBlock bcF = nb ->
  core.blockDb bcF = <[Block.Hash nb := nb]> (core.blockDb bc) ->
  core.numDb bcF
  = <[big.Bytes (Block.Number nb) := Block.Hash nb]>
      (core.numDb (fold_left (fun bc' block => core.insert block bc')
                     (nb :: rev side) bc)) ->
  chains.canonical bcF (take (S j) cs ++ side ++ [nb]).
Proof.
  intros Hcan Hj Hkeyed Hd Hnew Hcur Hdb Hidx.
  set (news := side ++ [nb]).
  assert (Hrev : rev news = nb :: rev side) by (unfold news; apply rev_unit).
  assert (Hd' : chains.descends bc (rev news ++ [c])) by (rewrite Hrev; exact Hd).
  pose proof (descends_links bc c Hkeyed news Hd') as Hlinks.
  pose proof Hcan as [_ Hcs]. destruct (Hcs _ _ Hj) as (Hcn & Hcget & _).
  assert (Hjlt : (j < length cs)%nat) by (apply lookup_lt_Some in Hj; exact Hj).
  assert (Hlt : length (take (S j) cs) = S j) by (rewrite length_take; lia).
  assert (Hm : length news = S (length side)) by (unfold news; rewrite length_app; cbn; lia).
  assert (Hlastnews : news !! length side = Some nb).
  { unfold news. rewrite lookup_app_r, Nat.sub_diag by lia. reflexivity. }
  assert (Hnbnum : Block.Number nb = Z.of_nat j + Z.of_nat (length side) + 1).
  { destruct (Hlinks _ _ Hlastnews) as [Hn _]. lia. }
  assert (Hstored : forall i b, news !! i = Some b -> (i < length side)%nat ->
                                core.GetBlock bc (Block.Hash b) = Some b).
  { intros i b Hb Hi.
    destruct (lookup_lt_is_Some_2 news (S i)) as [b' Hb']; [lia|].
    destruct (Hlinks _ _ Hb') as (_ & p & Hp & _ & Hget).
    change ((c :: news) !! S i) with (news !! i) in Hp.
    rewrite Hb in Hp. injection Hp as <-. exact Hget. }
  assert (Hkeys : forall x, x ∈ rev news ->
            exists i, news !! i = Some x /\
                      big.Bytes (Block.Number x) = Z.of_nat j + Z.of_nat i + 1).
  { intros x Hx. rewrite elem_of_rev in Hx.
    apply list_elem_of_lookup in Hx as [i Hi].
    exists i. split; [exact Hi|]. destruct (Hlinks _ _ Hi) as [Hn _].
    unfold big.Bytes. rewrite Hn, Hcn. apply Z.abs_eq. lia. }
  change (side ++ [nb]) with news.
  split.
  - rewrite Hcur. unfold news. rewrite !app_assoc. apply last_snoc.
  - intros n b Hb.
    destruct (decide (n < S j)%nat) as [Hn|Hn].
    + rewrite lookup_app_l in Hb by lia. rewrite lookup_take_lt in Hb by lia.
      destruct (Hcs _ _ Hb) as (Hnum & Hget & Hnidx & Hpar).
      split; [exact Hnum|]. split; [|split].
      * unfold core.GetBlock in *. rewrite Hdb, lookup_insert_ne; [exact Hget|].
        intros Heq. rewrite <- Heq in Hget. congruence.
      * rewrite Hidx, lookup_insert_ne.
        -- rewrite <- Hrev, fold_insert_numDb_other; [exact Hnidx|].
           intros x Hx. destruct (Hkeys x Hx) as (i & _ & ->). lia.
        -- unfold big.Bytes. rewrite Hnbnum. lia.
      * destruct n as [|m]; [exact I|]. destruct Hpar as (p & Hp & Hlink).
        exists p. split; [|exact Hlink].
        rewrite lookup_app_l by lia. rewrite lookup_take_lt by lia. exact Hp.
    + rewrite lookup_app_r in Hb by lia. rewrite Hlt in Hb.
      set (i := (n - S j)%nat) in *.
      assert (Hi := lookup_lt_Some _ _ _ Hb).
      destruct (Hlinks _ _ Hb) as (Hnum & p & Hp & Hlink & Hpget).
      assert (Hbkey : big.Bytes (Block.Number b) = Z.of_nat n).
      { unfold big.Bytes. rewrite Hnum, Hcn. rewrite Z.abs_eq by lia. lia. }
      split; [rewrite Hnum, Hcn; lia|]. split; [|split].
      * unfold core.GetBlock in *. rewrite Hdb.
        destruct (decide (i = length side)) as [Hlast|Hmid].
        -- rewrite Hlast, Hlastnews in Hb. injection Hb as <-. apply lookup_insert_eq.
        -- pose proof (Hstored i b Hb ltac:(lia)) as Hget.
           rewrite lookup_insert_ne; [exact Hget|].
           intros Heq. rewrite <- Heq in Hget. congruence.
      * rewrite Hidx. destruct (decide (i = length side)) as [Hlast|Hmid].
        -- rewrite Hlast, Hlastnews in Hb. injection Hb as <-.
           rewrite <- Hbkey. apply lookup_insert_eq.
        -- rewrite lookup_insert_ne
             by (unfold big.Bytes; rewrite Hnbnum, Z.abs_eq by lia; lia).
           rewrite <- Hrev. rewrite <- Hbkey. apply fold_insert_numDb.
           ++ intros x Hx Hxk. destruct (Hkeys x Hx) as (i' & Hi' & Hk').
              assert (i' = i) as -> by lia. congruence.
           ++ exists b. split; [|reflexivity].
              rewrite elem_of_rev. apply list_elem_of_lookup. eauto.
      * destruct n as [|m]; [lia|]. exists p. split; [|exact Hlink].
        destruct (decide (m < S j)%nat) as [Hmj|Hmj].
        -- assert (m = j) as -> by lia. assert (i = 0%nat) as Hi0 by lia.
           rewrite Hi0 in Hp. cbn in Hp. injection Hp as <-.
           rewrite lookup_app_l by lia. rewrite lookup_take_lt by lia. exact Hj.
        -- rewrite lookup_app_r by lia. rewrite Hlt.
           replace i with (S (m - S j)) in Hp by lia. exact Hp.
Qed.

(** X19. A block that forks the canonical chain [cs] and carries more
    total difficulty reorganises it.  The block [nb] sits on top of the
    stored side blocks [side], which leave the chain after its block
    [j]; the database stores blocks under their own hashes, the side
    blocks are not on the chain, [nb] is new and does not extend the
    head, the numbers fit 64 bits, and the processor accepts [nb].
    Then the walks of [diff] end within [length cs + length side] steps
    and [InsertChain] returns [(0, nil)]; the canonical chain is then
    [cs] up to block [j] followed by [side] and the stamped [nb]: these
    are indexed by number and [nb] is the head.  One [ChainEvent] is
    posted for the block. *)
Theorem InsertChain_reorganises (E : core.Env) (fuel : nat)
  (bc : core.ChainManager) (cs : list Block.t) (j : nat) (c : Block.t)
  (side : list Block.t) (nb : Block.t) (logs : core.Logs) :
  chains.canonical bc cs ->
  cs !! j = Some c ->
  invariants.keyed bc ->
  chains.descends bc (nb :: rev side ++ [c]) ->
  (forall x y, x ∈ side -> y ∈ cs -> Block.Hash x <> Block.Hash y) ->
  core.GetBlock bc (Block.Hash nb) = None ->
  Block.ParentHash nb <> Block.Hash (core.currentBlock bc) ->
  Z.of_nat (length cs + length side) < 2 ^ 64 ->
  (length cs + length side <= fuel)%nat ->
  core.procInterrupt E 0 = false ->
  core.Verify E (Block.header nb) = true ->
  Block.Hash nb ∉ core.BadHashes E ->
  core.Process E bc (core.stamp bc nb) = inr logs ->
  core.td bc < Block.Td (core.stamp bc nb) ->
  let r := core.InsertChain E fuel [0%nat] bc [nb] in
  core.outcome r = core.Return 0 None /\
  chains.canonical (core.manager r) (take (S j) cs ++ side ++ [core.stamp bc nb]) /\
  core.Td (core.manager r) = Block.Td (core.stamp bc nb) /\
  core.blocks r = [core.stamp bc nb] /\
  core.posted r
  = Some [Some (core.ChainEvent (core.stamp bc nb) (Block.Hash nb) logs)].
Proof.
  intros Hcan Hj Hkeyed Hd Hoff Hnew Hfork Hbits Hfuel Hint Hver Hbad Hproc Htd.
  set (nb' := core.stamp bc nb) in *.
  assert (Hd' : chains.descends bc ((nb' :: rev side) ++ c :: [])) by exact Hd.
  destruct (canonical_head _ _ Hcan) as (cs' & Hcs & Hheadnum).
  pose proof Hcan as [_ Hcs0]. destruct (Hcs0 _ _ Hj) as (Hcn & _).
  assert (Hjlt : (j < length cs)%nat) by (apply lookup_lt_Some in Hj; exact Hj).
  assert (Hrevcs : rev cs = rev (drop (S j) cs) ++ c :: rev (take j cs)).
  { rewrite <- (take_drop_middle cs j c Hj) at 1.
    rewrite rev_app_distr. cbn [rev]. rewrite <- app_assoc. reflexivity. }
  assert (Hdiff : core.diff fuel bc (core.currentBlock bc) nb'
                  = Some (inr (nb' :: rev side))).
  { apply (diff_spec bc c (rev (drop (S j) cs)) (nb' :: rev side)
             (rev (take j cs)) [] fuel).
    - rewrite <- Hrevcs. apply canonical_descends. exact Hcan.
    - exact Hd'.
    - intros x y Hx Hy. rewrite elem_of_rev in Hx.
      assert (Hxcs : x ∈ cs).
      { rewrite <- (take_drop (S j) cs). apply elem_of_app. right. exact Hx. }
      apply elem_of_cons in Hy as [->|Hy].
      + apply list_elem_of_lookup in Hxcs as [n Hn].
        pose proof (canonical_stored bc cs Hcan n x Hn) as Hget.
        intros Heq. rewrite Heq in Hget.
        change (Block.Hash nb') with (Block.Hash nb) in Hget. congruence.
      + rewrite elem_of_rev in Hy. intros Heq. apply (Hoff y x Hy Hxcs). auto.
    - lia.
    - rewrite length_rev, length_drop. lia.
    - cbn [length]. rewrite length_rev. lia.
    - cbn [length]. rewrite !length_rev, length_drop. lia.
    - rewrite <- Hrevcs, Hcs, rev_app_distr. reflexivity.
    - reflexivity. }
  assert (Hwait : core.waitNonce E [nb] 0 [false] [0%nat] = core.NonceReady [true] []).
  { cbn. rewrite Hver. reflexivity. }
  unfold core.InsertChain.
  change (core.enter [0%nat] bc [nb])
    with {| core.bc := bc; core.nonceDone := [0%nat]; core.nonceChecked := [false];
            core.queue := [None] |}.
  cbn [core.insertLoop]. unfold core.insertBlock.
  cbn [core.nonceChecked core.nonceDone core.bc]. rewrite Hint, Hwait.
  rewrite (bool_decide_eq_false_2 _ Hbad).
  cbn [core.bc core.withNonces]. fold nb'. rewrite Hproc.
  unfold core.accept. cbn [core.bc core.withNonces].
  rewrite big_Cmp_gt. unfold core.Td.
  destruct (Z.gtb_spec (Block.Td nb') (core.td bc)) as [_|?]; [|lia].
  change (Block.ParentHash nb') with (Block.ParentHash nb).
  destruct (N.eqb_spec (Block.ParentHash nb) (Block.Hash (core.currentBlock bc)))
    as [?|_]; [contradiction|].
  cbn [negb]. unfold core.merge. rewrite Hdiff.
  cbn [core.bc core.withBc core.setQueue core.queue core.leave core.insertLoop
       core.outcome core.manager core.blocks core.posted app].
  split; [reflexivity|]. split; [|split; [|split; reflexivity]].
  - apply (reorg_canonical bc _ cs j c side nb' Hcan Hj Hkeyed Hd Hnew).
    + reflexivity.
    + cbn. destruct (fold_insert_keeps (rev side) (core.insert nb' bc)) as (-> & _).
      reflexivity.
    + reflexivity.
  - reflexivity.
Qed.

Lemma canonical_manager2 :
  chains.canonical sample.manager2
    [sample.genesis; core.currentBlock sample.manager1].
Proof.
  split; [reflexivity|].
  intros [|[|n]] b; cbn; intros [= <-]; vm_compute; repeat split.
  eexists. split; reflexivity.
Qed.

Lemma keyed_manager2 : invariants.keyed sample.manager2.
Proof. apply keyed_by_list. vm_compute. repeat constructor. Qed.

Lemma InsertChain_reorganises_witness :
  let E := sample.env ∅ (fun _ => true) sample.accepting false in
  let r := core.InsertChain E 3 [0%nat] sample.manager2 [sample.S2] in
  Block.Hash <$> core.GetBlockByNumber sample.manager2 1 = Some 101%N /\
  chains.canonical (core.manager r)
    [sample.genesis; core.stamp sample.manager1 sample.S1;
     core.stamp sample.manager2 sample.S2].
Proof.
  intros E r. split; [reflexivity|].
  apply (InsertChain_reorganises E 3 sample.manager2
           [sample.genesis; core.currentBlock sample.manager1] 0 sample.genesis
           [core.stamp sample.manager1 sample.S1] sample.S2 []).
  - exact canonical_manager2.
  - reflexivity.
  - exact keyed_manager2.
  - vm_compute. auto.
  - intros x y Hx Hy. apply list_elem_of_singleton in Hx. subst x.
    apply elem_of_cons in Hy as [->|Hy]; [vm_compute; discriminate|].
    apply list_elem_of_singleton in Hy. subst y. vm_compute. discriminate.
  - reflexivity.
  - vm_compute. discriminate.
  - vm_compute. reflexivity.
  - cbn. lia.
  - reflexivity.
  - reflexivity.
  - apply not_elem_of_empty.
  - reflexivity.
  - vm_compute. reflexivity.
Defined.

(** ** The keys of the database *)

Lemma insertLoop_keyed (E : core.Env) (fuel : nat) (chain : list Block.t)
  (rest : list Block.t) :
  forall (i : nat) (done : list Block.t) (st : core.loopState),
    invariants.keyed (core.bc st) ->
    invariants.keyed (core.manager (core.insertLoop E fuel chain i done rest st)).
Proof.
  induction rest as [|block rest IH]; intros i done st Hkeyed; [exact Hkeyed|].
  cbn [core.insertLoop].
  pose proof (insertBlock_effect E fuel chain i block st) as Hstep.
  pose proof (insertBlock_stamps E fuel chain i block st) as [Hblock _].
  destruct (core.insertBlock E fuel chain i block st) as [st' block'| |st' block' out].
  - apply IH. destruct Hstep as (_ & Hdb & _).
    intros h b Hb. unfold core.GetBlock in Hb.
    destruct Hdb as [Hdb|Hdb]; rewrite Hdb in Hb; [exact (Hkeyed h b Hb)|].
    destruct (decide (Block.Hash block = h)) as [<-|Hne].
    + rewrite lookup_insert_eq in Hb. injection Hb as <-.
      destruct Hblock as [-> | ->]; reflexivity.
    + rewrite lookup_insert_ne in Hb by exact Hne. exact (Hkeyed h b Hb).
  - exact Hkeyed.
  - destruct Hstep as [-> _]. exact Hkeyed.
Qed.

(** X20. When every block of the database is stored under its own hash,
    this is still so after [InsertChain], however the call ends. *)
Theorem InsertChain_stores_under_own_hash (E : core.Env) (fuel : nat)
  (arrivals : list nat) (self : core.ChainManager) (chain : list Block.t) :
  invariants.keyed self ->
  invariants.keyed (core.manager (core.InsertChain E fuel arrivals self chain)).
Proof.
  intros Hkeyed.
  apply (insertLoop_keyed E fuel chain chain 0 [] (core.enter arrivals self chain)).
  exact Hkeyed.
Qed.

Lemma InsertChain_stores_under_own_hash_witness :
  invariants.keyed sample.manager1.
Proof.
  apply (InsertChain_stores_under_own_hash
           (sample.env ∅ (fun _ => true) sample.accepting false) 0 [0%nat]
           sample.manager [sample.B1]).
  apply keyed_by_list. vm_compute. repeat constructor.
Defined.

(** X21. [GetBlockByNumber] converts its 64-bit number to a signed one
    and uses the bytes of the absolute value as the key: a number [num]
    from 2^63 to 2^64 - 1 is looked up as [2^64 - num]. *)
Theorem GetBlockByNumber_aliases_high_numbers (bc : core.ChainManager) (num : Z) :
  2 ^ 63 <= num < 2 ^ 64 ->
  core.GetBlockByNumber bc num = core.GetBlockByNumber bc (2 ^ 64 - num).
Proof.
  intros Hnum. unfold core.GetBlockByNumber, core.getBlockByNumber, big.Bytes.
  assert (Hhigh : mach.int64 num = num - 2 ^ 64).
  { unfold mach.int64.
    replace (num + 2 ^ 63) with ((num - 2 ^ 63) + 1 * 2 ^ 64) by lia.
    rewrite Z.mod_add by lia. rewrite Z.mod_small by lia. lia. }
  destruct (Z.eq_dec num (2 ^ 63)) as [->|Hne]; [reflexivity|].
  rewrite Hhigh. rewrite (int64_small (2 ^ 64 - num)) by lia.
  replace (Z.abs (num - 2 ^ 64)) with (Z.abs (2 ^ 64 - num)) by lia. reflexivity.
Qed.

Lemma GetBlockByNumber_aliases_high_numbers_witness :
  Block.Hash <$> core.GetBlockByNumber sample.manager1 (2 ^ 64 - 1) = Some 101%N.
Proof.
  rewrite (GetBlockByNumber_aliases_high_numbers sample.manager1 (2 ^ 64 - 1)) by lia.
  reflexivity.
Defined.

(** * Further properties of the downloader *)

(** ** Import statistics *)

Lemma pruneImported_spec (hasBlock : common.Hash -> bool) :
  forall (queue : list downloader.taggedBlock) (done : Z),
    0 <= done -> done + Z.of_nat (length queue) < 2 ^ 63 ->
    exists imported rest,
      downloader.pruneImported hasBlock queue done
      = (rest, done + Z.of_nat (length imported)) /\
      queue = imported ++ rest /\
      Forall (fun b => hasBlock (Block.Hash (downloader.RawBlock b)) = true) imported /\
      (forall b, head rest = Some b ->
                 hasBlock (Block.Hash (downloader.RawBlock b)) = false).
Proof.
  induction queue as [|b queue IH]; intros done Hdone Hsmall.
  - exists [], []. cbn. rewrite Z.add_0_r. repeat split; auto. discriminate.
  - cbn [downloader.pruneImported].
    destruct (hasBlock (Block.Hash (downloader.RawBlock b))) eqn:Hb.
    + cbn [length] in Hsmall. rewrite int64_small by lia.
      destruct (IH (done + 1)) as (imported & rest & Hrun & Hq & Hall & Hhead); [lia|lia|].
      exists (b :: imported), rest. rewrite Hrun. cbn [length].
      split; [f_equal; lia|]. split; [rewrite Hq; reflexivity|].
      split; [constructor; assumption|exact Hhead].
    + exists [], (b :: queue). cbn. rewrite Z.add_0_r. repeat split; auto.
      intros ? [= <-]. exact Hb.
Qed.

(** X22. [Stats] drops from the import queue the leading blocks that the
    chain has, and no other: the queue that stays starts with a block
    the chain does not have, the count of imported blocks grows by the
    number dropped (the counts being below 2^63), and the reported number
    of importing blocks is the length of what stays.  A second call with
    the same readings changes nothing and reports the same. *)
Theorem Stats_drops_imported_prefix (hasBlock : common.Hash -> bool)
  (pending cached elapsed : Z) (s : downloader.importStats) :
  0 <= downloader.importDone s ->
  downloader.importDone s + Z.of_nat (length (downloader.importQueue s)) < 2 ^ 63 ->
  exists estimate s' imported,
    downloader.Stats hasBlock pending cached elapsed s
    = ((pending, cached, Z.of_nat (length (downloader.importQueue s')), estimate), s') /\
    downloader.importQueue s = imported ++ downloader.importQueue s' /\
    Forall (fun b => hasBlock (Block.Hash (downloader.RawBlock b)) = true) imported /\
    (forall b, head (downloader.importQueue s') = Some b ->
               hasBlock (Block.Hash (downloader.RawBlock b)) = false) /\
    downloader.importDone s'
    = downloader.importDone s + Z.of_nat (length imported) /\
    downloader.importStart s' = downloader.importStart s /\
    (downloader.importDone s' = 0 -> estimate = 0) /\
    downloader.Stats hasBlock pending cached elapsed s'
    = ((pending, cached, Z.of_nat (length (downloader.importQueue s')), estimate), s').
Proof.
  intros Hdone Hsmall.
  destruct (pruneImported_spec hasBlock (downloader.importQueue s)
              (downloader.importDone s) Hdone Hsmall)
    as (imported & rest & Hrun & Hq & Hall & Hhead).
  unfold downloader.Stats. rewrite Hrun.
  exists (if downloader.importDone s + Z.of_nat (length imported) >? 0
          then mach.int64
                 (Z.quot elapsed (downloader.importDone s + Z.of_nat (length imported))
                  * mach.int64 (mach.int64 (pending + cached) + Z.of_nat (length rest)))
          else 0),
    {| downloader.importStart := downloader.importStart s;
       downloader.importQueue := rest;
       downloader.importDone := downloader.importDone s + Z.of_nat (length imported) |},
    imported.
  split; [reflexivity|].
  cbn [downloader.importQueue downloader.importDone downloader.importStart].
  split; [exact Hq|]. split; [exact Hall|]. split; [exact Hhead|].
  split; [reflexivity|]. split; [reflexivity|]. split.
  - intros ->. reflexivity.
  - assert (Hagain : downloader.pruneImported hasBlock rest
                       (downloader.importDone s + Z.of_nat (length imported))
                     = (rest, downloader.importDone s + Z.of_nat (length imported))).
    { destruct rest as [|b rest]; [reflexivity|]. cbn.
      rewrite (Hhead b eq_refl). reflexivity. }
    rewrite Hagain. reflexivity.
Qed.

Lemma Stats_drops_imported_prefix_witness :
  let tag (b : Block.t) :=
    {| downloader.RawBlock := b; downloader.OriginPeer := "A" |} in
  let s := {| downloader.importStart := 0;
              downloader.importQueue := [tag sample.B1; tag sample.B2; tag sample.B3];
              downloader.importDone := 0 |} in
  fst (downloader.Stats (fun h => N.eqb h 101 || N.eqb h 103) 5 7 1000 s)
  = (5, 7, 2, 14000).
Proof.
  intros tag s.
  destruct (Stats_drops_imported_prefix (fun h => N.eqb h 101 || N.eqb h 103)
              5 7 1000 s) as (estimate & s' & imported & Hrun & _).
  - cbn. lia.
  - cbn. lia.
  - rewrite Hrun. vm_compute in Hrun. injection Hrun as _ Hest Hs'.
    cbn [fst]. rewrite <- Hest, <- Hs'. reflexivity.
Defined.

(** ** Banned hashes, known hashes and cross checks *)

Lemma insertByNumber_elem (b x : Block.t) (l : list Block.t) :
  x ∈ downloader.insertByNumber b l <-> x = b \/ x ∈ l.
Proof.
  induction l as [|y l IH]; cbn.
  - rewrite list_elem_of_singleton. split; [auto|]. intros [?|H]; [auto|inversion H].
  - destruct (_ <? _).
    + rewrite !elem_of_cons, IH. tauto.
    + rewrite !elem_of_cons. tauto.
Qed.

Lemma sortByNumber_elem (x : Block.t) (l : list Block.t) :
  x ∈ downloader.sortByNumber l <-> x ∈ l.
Proof.
  induction l as [|y l IH]; cbn; [tauto|].
  rewrite insertByNumber_elem, IH, elem_of_cons. tauto.
Qed.

Lemma lastLinked_elem (rest : list Block.t) :
  forall cur : Block.t, downloader.lastLinked cur rest ∈ cur :: rest.
Proof.
  induction rest as [|b rest IH]; intros cur; cbn; [left|].
  destruct (N.eqb _ _); [right; apply IH|left].
Qed.

Lemma phaseOut_subseteq (BadHashes : gset N) (each : gset N -> list N) (fuel : nat) :
  forall banned banned' : gset N,
    downloader.phaseOut BadHashes each fuel banned = Some banned' -> banned' ⊆ banned.
Proof.
  induction fuel as [|fuel IH]; intros banned banned'; cbn [downloader.phaseOut];
    destruct (_ <? _)%nat; try discriminate; try (intros [= <-]; reflexivity).
  intros Hrun. apply IH in Hrun. etrans; [exact Hrun|]. apply subseteq_difference_l.
  reflexivity.
Qed.

(** What [banLoop] may have banned: hashes of blocks that the peer
    delivered. *)
Lemma banLoop_bans_delivered (BadHashes : gset N) (each : gset N -> list N)
  (fuel : nat) (peerId : string) (head : common.Hash)
  (events : list downloader.banEvent) :
  forall d : downloader.Downloader,
    let d' := fst (downloader.banLoop BadHashes each fuel peerId head events d) in
    downloader.peers d' = downloader.peers d /\
    downloader.queue d' = downloader.queue d /\
    downloader.checks d' ⊆ downloader.checks d /\
    ((downloader.banned d' ⊆ downloader.banned d) \/
     (exists pack block,
         downloader.BanBlocks pack ∈ events /\
         downloader.blockPack.peerId pack = peerId /\
         block ∈ downloader.blockPack.blocks pack /\
         (exists first, first ∈ downloader.blockPack.blocks pack /\
                        Block.Hash first = head) /\
         downloader.banned d' ⊆ {[Block.Hash block]} ∪ downloader.banned d)).
Proof.
  induction events as [|ev events IH]; intros d.
  - cbn. repeat split; auto.
  - assert (Hlater : forall d0,
               d0 = d \/ (downloader.peers d0 = downloader.peers d /\
                          downloader.queue d0 = downloader.queue d /\
                          downloader.checks d0 ⊆ downloader.checks d /\
                          downloader.banned d0 = downloader.banned d) ->
               let d' := fst (downloader.banLoop BadHashes each fuel peerId head events d0) in
               downloader.peers d' = downloader.peers d /\
               downloader.queue d' = downloader.queue d /\
               downloader.checks d' ⊆ downloader.checks d /\
               ((downloader.banned d' ⊆ downloader.banned d) \/
                (exists pack block,
                    downloader.BanBlocks pack ∈ ev :: events /\
                    downloader.blockPack.peerId pack = peerId /\
                    block ∈ downloader.blockPack.blocks pack /\
                    (exists first, first ∈ downloader.blockPack.blocks pack /\
                                   Block.Hash first = head) /\
                    downloader.banned d' ⊆ {[Block.Hash block]} ∪ downloader.banned d))).
    { intros d0 Hd0. destruct (IH d0) as (Hp & Hq & Hc & Hb). cbn zeta.
      assert (Hsame : downloader.peers d0 = downloader.peers d /\
                      downloader.queue d0 = downloader.queue d /\
                      downloader.checks d0 ⊆ downloader.checks d /\
                      downloader.banned d0 = downloader.banned d).
      { destruct Hd0 as [->|H]; [auto|exact H]. }
      destruct Hsame as (Hp0 & Hq0 & Hc0 & Hb0).
      split; [congruence|]. split; [congruence|]. split; [etrans; eassumption|].
      rewrite <- Hb0. destruct Hb as [Hb|(pack & block & Hin & Hb)]; [left; exact Hb|].
      right. exists pack, block. split; [right; exact Hin|exact Hb]. }
    destruct ev as [| | |pack]; cbn [downloader.banLoop].
    + cbn. repeat split; auto.
    + cbn. repeat split; auto.
    + apply Hlater. left. reflexivity.
    + destruct (downloader.staleCrossCheck _ d) as [d0|] eqn:Hstale.
      { apply Hlater. right. unfold downloader.staleCrossCheck in Hstale.
        destruct (downloader.blockPack.blocks pack) as [|b [|]]; try discriminate.
        destruct (_ !! _); [|discriminate]. injection Hstale as <-. cbn.
        repeat split; auto. apply delete_subseteq. }
      destruct (String.eqb_spec (downloader.blockPack.peerId pack) peerId) as [Hpeer|_];
        cbn [negb]; [|apply Hlater; left; reflexivity].
      destruct (downloader.sortByNumber _) as [|first rest] eqn:Hsort.
      { cbn. repeat split; auto. }
      destruct (N.eqb_spec (Block.Hash first) head) as [Hhead|_]; cbn [negb];
        [|cbn; repeat split; auto].
      assert (Hfirst : first ∈ downloader.blockPack.blocks pack).
      { apply sortByNumber_elem. rewrite Hsort. left. }
      assert (Hlast : downloader.lastLinked first rest ∈ downloader.blockPack.blocks pack).
      { apply sortByNumber_elem. rewrite Hsort. apply lastLinked_elem. }
      destruct (downloader.phaseOut _ _ _ _) as [banned'|] eqn:Hphase;
        cbn [fst downloader.withBanned downloader.peers downloader.queue
             downloader.checks downloader.banned];
        (split; [reflexivity|]; split; [reflexivity|]; split; [reflexivity|]);
        right; exists pack, (downloader.lastLinked first rest);
        (split; [left|]); (split; [exact Hpeer|]); (split; [exact Hlast|]);
        (split; [eauto|]).
      * exact (phaseOut_subseteq _ _ _ _ _ Hphase).
      * reflexivity.
Qed.

(** X23. [banBlocks] adds at most one hash to the banned set, the hash
    of a block that the banned peer delivered in a batch which also
    holds a block with the banned head hash; any other change of the set
    is an eviction.  It leaves the peers alone and registers no cross
    check. *)
Theorem banBlocks_bans_delivered_block (BadHashes : gset N)
  (Reserve : downloader.queue.t -> downloader.peer.t -> nat
             -> option (list common.Hash * downloader.queue.t))
  (Fetch : downloader.peer.t -> list common.Hash -> option downloader.Err)
  (each : gset N -> list N) (fuel : nat) (peerId : string) (head : common.Hash)
  (events : list downloader.banEvent) (d : downloader.Downloader) :
  let d' := fst (downloader.banBlocks BadHashes Reserve Fetch each fuel peerId head
                   events d) in
  downloader.peers d' = downloader.peers d /\
  downloader.checks d' ⊆ downloader.checks d /\
  ((downloader.banned d' ⊆ downloader.banned d) \/
   (exists pack block,
       downloader.BanBlocks pack ∈ events /\
       downloader.blockPack.peerId pack = peerId /\
       block ∈ downloader.blockPack.blocks pack /\
       (exists first, first ∈ downloader.blockPack.blocks pack /\
                      Block.Hash first = head) /\
       downloader.banned d' ⊆ {[Block.Hash block]} ∪ downloader.banned d)).
Proof.
  unfold downloader.banBlocks.
  destruct (downloader.Peer peerId d) as [p|]; [|cbn; auto].
  destruct (Reserve _ _ _) as [[request q]|]; [|cbn; auto].
  destruct (Fetch p request); [cbn; auto|].
  destruct (banLoop_bans_delivered BadHashes each fuel peerId head events
              (downloader.withQueue q d)) as (Hp & _ & Hc & Hb).
  cbn zeta. auto.
Qed.

Lemma findBanned_finds (banned : gset N) (hashes : list common.Hash) :
  forall index : nat,
    (exists h, h ∈ hashes /\ h ∈ banned) ->
    exists i hash, downloader.findBanned banned index hashes = Some (i, hash) /\
                   hash ∈ banned /\ hashes !! (i - index)%nat = Some hash /\
                   (index <= i)%nat.
Proof.
  induction hashes as [|x hashes IH]; intros index (h & Hin & Hb); [inversion Hin|].
  cbn [downloader.findBanned]. destruct (decide (x ∈ banned)) as [Hx|Hx].
  - rewrite (bool_decide_eq_true_2 _ Hx). exists index, x.
    rewrite Nat.sub_diag. auto.
  - rewrite (bool_decide_eq_false_2 _ Hx).
    apply elem_of_cons in Hin as [->|Hin]; [contradiction|].
    destruct (IH (S index)) as (i & hash & Hrun & Hhash & Hat & Hle); [eauto|].
    exists i, hash. split; [exact Hrun|]. split; [exact Hhash|]. split; [|lia].
    replace (i - index)%nat with (S (i - S index)) by lia. exact Hat.
Qed.

(** X24. A hash delivery of the active peer that holds a banned hash
    never lets the synchronisation go on: whatever [banBlocks] returns,
    [fetchHashes] fails with [ErrInvalidChain], unless [banBlocks] itself
    does not return.  The delivery does not move [head], the active peer
    or the set of peers tried. *)
Theorem banned_hash_ends_sync (BadHashes : gset N) (hasBlock : common.Hash -> bool)
  (getBlock : common.Hash -> option Block.t)
  (Reserve : downloader.queue.t -> downloader.peer.t -> nat
             -> option (list common.Hash * downloader.queue.t))
  (Fetch : downloader.peer.t -> list common.Hash -> option downloader.Err)
  (each : gset N -> list N) (fuel : nat) (pack : downloader.hashPack.t)
  (rnd : nat) (now : Z) (ban : list downloader.banEvent)
  (events : list downloader.fetchEvent) (st : downloader.fetchState) :
  downloader.hashPack.peerId pack = downloader.peer.id (downloader.active st) ->
  (exists h, h ∈ downloader.hashPack.hashes pack /\
             h ∈ downloader.banned (downloader.d st)) ->
  match downloader.fetchLoop BadHashes hasBlock getBlock Reserve Fetch each fuel
          (downloader.Hashes pack rnd now ban :: events) st with
  | downloader.FetchReturn st' err =>
      err = Some downloader.ErrInvalidChain /\
      downloader.head st' = downloader.head st /\
      downloader.active st' = downloader.active st /\
      downloader.attempted st' = downloader.attempted st
  | downloader.FetchStuck _ => True
  | _ => False
  end.
Proof.
  intros Hpeer Hbanned.
  cbn [downloader.fetchLoop downloader.handle]. unfold downloader.onHashes.
  rewrite Hpeer, String.eqb_refl. cbn [negb].
  destruct (downloader.hashPack.hashes pack) as [|x hashes] eqn:Hhashes.
  { destruct Hbanned as (h & Hh & _). inversion Hh. }
  cbn [length Nat.eqb].
  destruct (findBanned_finds _ _ 0 Hbanned) as (i & hash & -> & _).
  destruct (downloader.queue.Insert _ _) as [inserts q].
  destruct (downloader.banBlocks _ _ _ _ _ _ _ _ _) as [d' [err| |]]; cbn; auto.
Qed.

Lemma banned_hash_ends_sync_witness :
  exists st',
    downloader.fetchHashes sample.badHashes sample.noBlock sample.noBlockAt
      sample.reserve sample.fetch elements 1 sample.peerA 900
      [downloader.Hashes
         {| downloader.hashPack.peerId := "A";
            downloader.hashPack.hashes := [1000; 7; 1001]%N |} 0 0
         [downloader.BanTimeout]]
      sample.syncing
    = downloader.FetchReturn st' (Some downloader.ErrInvalidChain).
Proof.
  assert (Hbanned : exists h, h ∈ [1000; 7; 1001]%N /\ h ∈ sample.badHashes).
  { exists 7%N. split; [right; left|]. apply elem_of_singleton. reflexivity. }
  pose proof (banned_hash_ends_sync sample.badHashes sample.noBlock sample.noBlockAt
                sample.reserve sample.fetch elements 1
                {| downloader.hashPack.peerId := "A";
                   downloader.hashPack.hashes := [1000; 7; 1001]%N |} 0 0
                [downloader.BanTimeout] []
                (downloader.fetchStart sample.peerA 900 sample.syncing)
                eq_refl Hbanned) as H.
  unfold downloader.fetchHashes.
  destruct (downloader.fetchLoop _ _ _ _ _ _ _ _ _) as [st' err|st'|st'|] eqn:Hrun.
  - destruct H as (-> & _). exists st'. reflexivity.
  - contradiction.
  - exfalso. vm_compute in Hrun. discriminate.
  - contradiction.
Defined.

Lemma scanKnown_done (known : common.Hash -> bool) (hashes : list common.Hash) :
  forall (head : common.Hash) (kept : list common.Hash) (head' : common.Hash),
    downloader.scanKnown known hashes head = (kept, true, head') ->
    known head' = true /\ head' ∈ hashes /\ Forall (fun h => known h = false) kept.
Proof.
  induction hashes as [|h hashes IH]; intros head kept head'; cbn; [discriminate|].
  destruct (known h) eqn:Hh.
  - intros [= <- <-]. split; [exact Hh|]. split; [left|constructor].
  - destruct (downloader.scanKnown known hashes h) as [[kept0 done0] head0] eqn:Hrun.
    intros [= <- -> <-]. destruct (IH _ _ _ Hrun) as (Hk & Hin & Hall).
    split; [exact Hk|]. split; [right; exact Hin|]. constructor; assumption.
Qed.

Lemma Insert_blockPool (hashes : list common.Hash) :
  forall q : downloader.queue.t,
    downloader.queue.blockPool (snd (downloader.queue.Insert hashes q))
    = downloader.queue.blockPool q.
Proof.
  induction hashes as [|h hashes IH]; intros q; cbn; [reflexivity|].
  destruct (downloader.queue.pending h q); [apply IH|].
  specialize (IH (downloader.queue.push h q)).
  destruct (downloader.queue.Insert hashes (downloader.queue.push h q)). exact IH.
Qed.

Section FetchSuccess.

Variable BadHashes : gset N.
Variable hasBlock : common.Hash -> bool.
Variable getBlock : common.Hash -> option Block.t.
Variable Reserve :
  downloader.queue.t -> downloader.peer.t -> nat
  -> option (list common.Hash * downloader.queue.t).
Variable Fetch : downloader.peer.t -> list common.Hash -> option downloader.Err.
Variable each : gset N -> list N.

Lemma fetchLoop_finished (fuel : nat) (events : list downloader.fetchEvent) :
  forall st st' : downloader.fetchState,
    downloader.fetchLoop BadHashes hasBlock getBlock Reserve Fetch each fuel events st
    = downloader.FetchReturn st' None ->
    exists st0 pack rnd now ban,
      downloader.Hashes pack rnd now ban ∈ events /\
      downloader.onHashes BadHashes hasBlock getBlock Reserve Fetch each fuel
        pack rnd now ban st0
      = downloader.Finished st'.
Proof.
  induction events as [|ev events IH]; intros st st'; cbn [downloader.fetchLoop];
    [discriminate|].
  destruct (downloader.handle _ _ _ _ _ _ fuel ev st) as [st1|st1|st1 err|st1|] eqn:Hstep;
    try discriminate.
  - intros Hrun. destruct (IH _ _ Hrun) as (st0 & pack & rnd & now & ban & Hin & Hfin).
    exists st0, pack, rnd, now, ban. split; [right; exact Hin|exact Hfin].
  - intros [= <-]. destruct ev as [|pack rnd now ban|pack|now|]; cbn in Hstep.
    + discriminate.
    + exists st, pack, rnd, now, ban. split; [left|exact Hstep].
    + unfold downloader.onBlocks in Hstep. destruct (negb _); [discriminate|].
      destruct (downloader.blockPack.blocks pack) as [|b [|]]; try discriminate.
      destruct (_ !! _); [|discriminate]. destruct (negb _); discriminate.
    + unfold downloader.onCrossTick in Hstep. destruct (existsb _ _); discriminate.
    + unfold downloader.onTimeout in Hstep. destruct (find _ _); [|discriminate].
      destruct (N.eqb _ _); discriminate.
Qed.

Lemma onHashes_finished (fuel : nat) (pack : downloader.hashPack.t) (rnd : nat)
  (now : Z) (ban : list downloader.banEvent) (st st' : downloader.fetchState) :
  downloader.onHashes BadHashes hasBlock getBlock Reserve Fetch each fuel
    pack rnd now ban st
  = downloader.Finished st' ->
  downloader.hashPack.peerId pack = downloader.peer.id (downloader.active st) /\
  downloader.head st' ∈ downloader.hashPack.hashes pack /\
  (downloader.head st' ∉ downloader.banned (downloader.d st')) /\
  (hasBlock (downloader.head st') = true \/
   is_Some (downloader.queue.GetBlock (downloader.head st')
              (downloader.queue (downloader.d st')))) /\
  downloader.queue.blockOffset (downloader.queue (downloader.d st'))
  = match getBlock (downloader.head st') with
    | Some block => mach.int64 (mach.uint64 (Block.NumberU64 block + 1))
    | None => 0
    end.
Proof.
  unfold downloader.onHashes.
  destruct (String.eqb_spec (downloader.hashPack.peerId pack)
              (downloader.peer.id (downloader.active st))) as [Hpeer|_];
    cbn [negb]; [|discriminate].
  destruct (length _ =? 0)%nat; [discriminate|].
  destruct (downloader.findBanned _ _ _) as [[index hash]|] eqn:Hban.
  { destruct (downloader.queue.Insert _ _).
    destruct (downloader.banBlocks _ _ _ _ _ _ _ _ _) as [? [| |]]; discriminate. }
  destruct (downloader.scanKnown _ _ _) as [[kept done] head'] eqn:Hscan.
  pose proof (Insert_blockPool kept (downloader.queue (downloader.d st))) as Hpool.
  destruct (downloader.queue.Insert kept _) as [inserts q]. cbn [snd] in Hpool.
  destruct done; cbn [negb andb].
  - rewrite andb_false_r. intros [= <-]. cbn.
    destruct (scanKnown_done _ _ _ _ _ Hscan) as (Hknown & Hin & _).
    split; [exact Hpeer|]. split; [exact Hin|]. split; [|split; [|reflexivity]].
    + assert (Hnone : forall hashes i,
                 downloader.findBanned (downloader.banned (downloader.d st)) i hashes = None ->
                 forall h, h ∈ hashes -> h ∉ downloader.banned (downloader.d st)).
      { induction hashes as [|x hashes IHh]; intros i Hf h Hh; [inversion Hh|].
        cbn in Hf. destruct (decide (x ∈ downloader.banned (downloader.d st))) as [Hx|Hx].
        - rewrite (bool_decide_eq_true_2 _ Hx) in Hf. discriminate.
        - rewrite (bool_decide_eq_false_2 _ Hx) in Hf.
          apply elem_of_cons in Hh as [->|Hh]; [exact Hx|]. exact (IHh _ Hf h Hh). }
      exact (Hnone _ _ Hban _ Hin).
    + apply orb_true_iff in Hknown as [Hk|Hk]; [left; exact Hk|right].
      apply bool_decide_eq_true in Hk. unfold downloader.queue.GetBlock in *.
      rewrite Hpool. exact Hk.
  - rewrite andb_true_r. destruct (length inserts =? 0)%nat; [discriminate|].
    destruct (_ <? _); [discriminate|].
    destruct (downloader.crossSelect _ _) as [[? ?]|]; discriminate.
Qed.

End FetchSuccess.

(** X25. When [fetchHashes] returns without error, one of the hash
    deliveries of the then active peer held a hash that the chain or the
    queue's block cache knows, and none that is banned up to it: that
    hash is the last value of [head], and the queue's block offset was
    set to the number after the block [getBlock] has for it (to 0 when it
    has none). *)
Theorem fetchHashes_success_reaches_known_hash (BadHashes : gset N)
  (hasBlock : common.Hash -> bool) (getBlock : common.Hash -> option Block.t)
  (Reserve : downloader.queue.t -> downloader.peer.t -> nat
             -> option (list common.Hash * downloader.queue.t))
  (Fetch : downloader.peer.t -> list common.Hash -> option downloader.Err)
  (each : gset N -> list N) (fuel : nat) (p : downloader.peer.t) (h : common.Hash)
  (events : list downloader.fetchEvent) (self : downloader.Downloader)
  (st : downloader.fetchState) :
  downloader.fetchHashes BadHashes hasBlock getBlock Reserve Fetch each fuel p h
    events self
  = downloader.FetchReturn st None ->
  (exists pack rnd now ban,
      downloader.Hashes pack rnd now ban ∈ events /\
      downloader.head st ∈ downloader.hashPack.hashes pack) /\
  (downloader.head st ∉ downloader.banned (downloader.d st)) /\
  (hasBlock (downloader.head st) = true \/
   is_Some (downloader.queue.GetBlock (downloader.head st)
              (downloader.queue (downloader.d st)))) /\
  downloader.queue.blockOffset (downloader.queue (downloader.d st))
  = match getBlock (downloader.head st) with
    | Some block => mach.int64 (mach.uint64 (Block.NumberU64 block + 1))
    | None => 0
    end.
Proof.
  unfold downloader.fetchHashes. intros Hrun.
  destruct (fetchLoop_finished _ _ _ _ _ _ _ _ _ _ Hrun)
    as (st0 & pack & rnd & now & ban & Hin & Hfin).
  destruct (onHashes_finished _ _ _ _ _ _ _ _ _ _ _ _ _ Hfin) as (_ & Hhead & Hrest).
  split; [eauto 10|exact Hrest].
Qed.

Lemma fetchHashes_success_reaches_known_hash_witness :
  let getBlock (h : common.Hash) :=
    if N.eqb h 100 then Some sample.genesis else None in
  exists st,
    downloader.fetchHashes sample.badHashes (N.eqb 100) getBlock
      sample.reserve sample.fetch elements 1 sample.peerA 900
      [downloader.Hashes
         {| downloader.hashPack.peerId := "A";
            downloader.hashPack.hashes := [1000; 100; 99]%N |} 0 0 []]
      sample.syncing
    = downloader.FetchReturn st None /\
    downloader.head st = 100%N /\
    downloader.queue.blockOffset (downloader.queue (downloader.d st)) = 1.
Proof.
  intros getBlock.
  destruct (downloader.fetchHashes sample.badHashes (N.eqb 100) getBlock
              sample.reserve sample.fetch elements 1 sample.peerA 900
              [downloader.Hashes
                 {| downloader.hashPack.peerId := "A";
                    downloader.hashPack.hashes := [1000; 100; 99]%N |} 0 0 []]
              sample.syncing) as [st [err|]|st|st|] eqn:Hrun;
    try (exfalso; vm_compute in Hrun; discriminate).
  exists st. split; [reflexivity|].
  destruct (fetchHashes_success_reaches_known_hash _ _ _ _ _ _ _ _ _ _ _ _ Hrun)
    as (_ & _ & _ & Hoffset).
  assert (Hhead : downloader.head st = 100%N).
  { vm_compute in Hrun. injection Hrun as <-. reflexivity. }
  split; [exact Hhead|]. rewrite Hoffset, Hhead. reflexivity.
Defined.

(** X26. A cross check that a hash delivery of the active peer
    registers is answered by the next block deliveries.  When the
    handling of the delivery lets the loop go on, two neighbouring hashes
    [origin] and [parent] of the new ones were chosen, the check of
    [origin] is in the table with a deadline [blockSoftTTL] after the
    delivery, and the block [origin] is requested from the active peer
    before the next hashes.  A single block with that hash, delivered by
    the active peer, removes the check when its parent hash is [parent]
    and fails the synchronisation with [ErrCrossCheckFailed] otherwise;
    so does a tick of the cross-check timer after the deadline while the
    check is still there. *)
Theorem cross_check_is_answered (BadHashes : gset N) (hasBlock : common.Hash -> bool)
  (getBlock : common.Hash -> option Block.t)
  (Reserve : downloader.queue.t -> downloader.peer.t -> nat
             -> option (list common.Hash * downloader.queue.t))
  (Fetch : downloader.peer.t -> list common.Hash -> option downloader.Err)
  (each : gset N -> list N) (fuel : nat) (pack : downloader.hashPack.t)
  (rnd : nat) (now : Z) (ban : list downloader.banEvent)
  (st st1 : downloader.fetchState) :
  downloader.hashPack.peerId pack = downloader.peer.id (downloader.active st) ->
  downloader.onHashes BadHashes hasBlock getBlock Reserve Fetch each fuel
    pack rnd now ban st
  = downloader.Continue st1 ->
  exists origin parent,
    downloader.checks (downloader.d st1) !! origin
    = Some {| downloader.expire := now + downloader.blockSoftTTL;
              downloader.parent := parent |} /\
    downloader.active st1 = downloader.active st /\
    downloader.sent st1
    = downloader.sent st
      ++ [downloader.GetBlocks (downloader.peer.id (downloader.active st)) [origin];
          downloader.GetHashes (downloader.peer.id (downloader.active st))
            (downloader.head st1)] /\
    (forall block,
        Block.Hash block = origin ->
        downloader.onBlocks
          {| downloader.blockPack.peerId := downloader.peer.id (downloader.active st);
             downloader.blockPack.blocks := [block] |} st1
        = if N.eqb (Block.ParentHash block) parent
          then downloader.Continue
                 (downloader.withD
                    (downloader.withChecks
                       (delete origin (downloader.checks (downloader.d st1)))
                       (downloader.d st1)) st1)
          else downloader.Fail st1 downloader.ErrCrossCheckFailed) /\
    (forall now', now + downloader.blockSoftTTL < now' ->
                  downloader.onCrossTick now' st1
                  = downloader.Fail st1 downloader.ErrCrossCheckFailed).
Proof.
  intros Hpeer. unfold downloader.onHashes.
  rewrite Hpeer, String.eqb_refl. cbn [negb].
  destruct (length _ =? 0)%nat; [discriminate|].
  destruct (downloader.findBanned _ _ _) as [[index hash]|].
  { destruct (downloader.queue.Insert _ _).
    destruct (downloader.banBlocks _ _ _ _ _ _ _ _ _) as [? [| |]]; discriminate. }
  destruct (downloader.scanKnown _ _ _) as [[kept done] head'].
  destruct (downloader.queue.Insert kept _) as [inserts q].
  destruct done; cbn [negb andb].
  { rewrite andb_false_r. discriminate. }
  rewrite andb_true_r. destruct (length inserts =? 0)%nat; [discriminate|].
  destruct (_ <? _); [discriminate|].
  destruct (downloader.crossSelect rnd inserts) as [[origin parent]|]; [|discriminate].
  intros [= <-]. exists origin, parent. cbn.
  split; [apply lookup_insert_eq|]. split; [reflexivity|].
  split; [rewrite <- app_assoc; reflexivity|]. split.
  - intros block Hblock. unfold downloader.onBlocks. cbn.
    rewrite String.eqb_refl. cbn [negb]. rewrite Hblock, lookup_insert_eq. cbn.
    destruct (N.eqb _ _); reflexivity.
  - intros now' Hlate. unfold downloader.onCrossTick. cbn.
    match goal with |- (if ?b then _ else _) = _ => assert (Hb : b = true) end.
    { apply existsb_exists.
      exists (origin, {| downloader.expire := now + downloader.blockSoftTTL;
                         downloader.parent := parent |}).
      split.
      - apply list_elem_of_In, elem_of_map_to_list, lookup_insert_eq.
      - cbn. apply Z.gtb_lt. lia. }
    rewrite Hb. reflexivity.
Qed.

Lemma cross_check_is_answered_witness :
  exists st1 origin parent,
    downloader.onHashes sample.badHashes sample.noBlock sample.noBlockAt
      sample.reserve sample.fetch elements 1 sample.batch 5 0 []
      (downloader.fetchStart sample.peerA 900 sample.syncing)
    = downloader.Continue st1 /\
    downloader.checks (downloader.d st1) !! origin
    = Some {| downloader.expire := 0 + downloader.blockSoftTTL;
              downloader.parent := parent |}.
Proof.
  destruct (downloader.onHashes sample.badHashes sample.noBlock sample.noBlockAt
              sample.reserve sample.fetch elements 1 sample.batch 5 0 []
              (downloader.fetchStart sample.peerA 900 sample.syncing))
    as [st1|st1|st1 err|st1|] eqn:Hrun;
    try (exfalso; vm_compute in Hrun; discriminate).
  destruct (cross_check_is_answered sample.badHashes sample.noBlock sample.noBlockAt
              sample.reserve sample.fetch elements 1 sample.batch 5 0 []
              (downloader.fetchStart sample.peerA 900 sample.syncing) st1
              eq_refl Hrun)
    as (origin & parent & Hcheck & _).
  exists st1, origin, parent. split; [reflexivity|exact Hcheck].
Defined.

(** X27. [TakeBlocks] hands on what the queue yields.  An empty yield
    leaves the import statistics alone; any other restarts them at the
    clock's time with the yielded blocks, so that at every later [Stats]
    (fewer than 2^63 blocks) the imported and the importing blocks add up
    to the blocks taken, of which the imported ones are the first; the
    estimate is zero as long as the first block is not in the chain. *)
Theorem TakeBlocks_restarts_statistics (hasBlock : common.Hash -> bool)
  (blocks : list downloader.taggedBlock) (now : Z) (s : downloader.importStats)
  (pending cached elapsed : Z) :
  Z.of_nat (length blocks) < 2 ^ 63 ->
  fst (downloader.TakeBlocks blocks now s) = blocks /\
  (blocks = [] -> snd (downloader.TakeBlocks blocks now s) = s) /\
  (blocks <> [] ->
   exists estimate s2 imported,
     downloader.Stats hasBlock pending cached elapsed
       (snd (downloader.TakeBlocks blocks now s))
     = ((pending, cached, Z.of_nat (length (downloader.importQueue s2)), estimate), s2) /\
     downloader.importStart s2 = now /\
     blocks = imported ++ downloader.importQueue s2 /\
     downloader.importDone s2 = Z.of_nat (length imported) /\
     (forall b, head blocks = Some b ->
                hasBlock (Block.Hash (downloader.RawBlock b)) = false ->
                estimate = 0 /\ downloader.importQueue s2 = blocks)).
Proof.
  intros Hsmall. split; [reflexivity|]. split; [intros ->; reflexivity|].
  intros Hne. unfold downloader.TakeBlocks. cbn [snd].
  destruct blocks as [|b0 blocks0] eqn:Hblocks; [congruence|].
  rewrite <- Hblocks in *. assert (Hpos : (0 <? length blocks)%nat = true).
  { rewrite Hblocks. reflexivity. }
  rewrite Hpos.
  destruct (pruneImported_spec hasBlock blocks 0) as (imported & rest & Hrun & Hq & Hall & Hhead);
    [lia|lia|].
  unfold downloader.Stats. cbn [downloader.importQueue downloader.importDone
                                  downloader.importStart].
  rewrite Hrun.
  exists (if 0 + Z.of_nat (length imported) >? 0
          then mach.int64
                 (Z.quot elapsed (0 + Z.of_nat (length imported))
                  * mach.int64 (mach.int64 (pending + cached) + Z.of_nat (length rest)))
          else 0),
    {| downloader.importStart := now; downloader.importQueue := rest;
       downloader.importDone := 0 + Z.of_nat (length imported) |},
    imported.
  cbn [downloader.importQueue downloader.importDone downloader.importStart].
  split; [reflexivity|]. split; [reflexivity|]. split; [exact Hq|].
  split; [lia|].
  intros b Hb Hnot. destruct imported as [|x imported].
  - cbn in Hq |- *. auto.
  - exfalso. rewrite Hq in Hb. cbn in Hb. injection Hb as ->.
    inversion Hall; subst. congruence.
Qed.

Lemma TakeBlocks_restarts_statistics_witness :
  let tag (b : Block.t) :=
    {| downloader.RawBlock := b; downloader.OriginPeer := "A" |} in
  let s := {| downloader.importStart := 3; downloader.importQueue := [];
              downloader.importDone := 9 |} in
  fst (downloader.Stats (fun h => N.eqb h 102) 0 0 1000
         (snd (downloader.TakeBlocks [tag sample.B1; tag sample.B2] 50 s)))
  = (0, 0, 2, 0).
Proof.
  intros tag s.
  destruct (TakeBlocks_restarts_statistics (fun h => N.eqb h 102)
              [tag sample.B1; tag sample.B2] 50 s 0 0 1000) as (_ & _ & Hstats).
  - cbn. lia.
  - destruct Hstats as (estimate & s2 & imported & Hrun & _ & _ & _ & Hfirst);
      [discriminate|].
    destruct (Hfirst (tag sample.B1) eq_refl eq_refl) as [-> Hqueue].
    rewrite Hrun, Hqueue. reflexivity.
Defined.
